(** * Email-Classification-System: the PII masking pipeline of [utils.py]

    A shallow embedding of [clean_text], the pattern recognizers,
    [detect_cvv_from_context], [post_process_dates],
    [resolve_overlapping_entities] and the record-building part of
    [mask_pii], together with the properties stated about them.

    Conventions.
    - A Python [str] is a [list ascii]: a sequence of code points below 256.
      On that range the character classes of Python's [re] module and of
      [str.lower], [str.strip] are the tables given below.
    - Python integers (offsets into the text) are [Z]; slicing follows
      Python's rules for negative and out-of-range bounds.
    - Confidence scores are IEEE binary64 numbers, as Python floats are. *)

From Stdlib Require Import Ascii String.
From Stdlib Require Import List ZArith Lia Bool PrimFloat.
From Stdlib Require Import Sorting.Sorted Sorting.Permutation.
Import ListNotations.
Local Open Scope Z_scope.
#[local] Set Warnings "-inexact-float".

(** ** Strings *)

Definition text := list ascii.

Definition str (s : string) : text := list_ascii_of_string s.

Definition code (c : ascii) : N := N_of_ascii c.

Definition len (s : text) : Z := Z.of_nat (length s).

(** A slice bound as Python normalises it: a negative bound counts from the
    end, and the result is clamped to [0, n]. *)
Definition slice_bound (n i : Z) : Z :=
  if i <? 0 then Z.max 0 (i + n) else Z.min i n.

(** [s[i:j]] *)
Definition slice (s : text) (i j : Z) : text :=
  let a := slice_bound (len s) i in
  let b := slice_bound (len s) j in
  firstn (Z.to_nat (b - a)) (skipn (Z.to_nat a) s).

(** [kw in s] for two strings: [kw] occurs in [s] as a substring. *)
Fixpoint starts_with (kw s : text) : bool :=
  match kw, s with
  | [], _ => true
  | a :: kw', b :: s' => Ascii.eqb a b && starts_with kw' s'
  | _ :: _, [] => false
  end.

Fixpoint str_in (kw s : text) : bool :=
  starts_with kw s
  || match s with
     | [] => false
     | _ :: s' => str_in kw s'
     end.

(** *** Character classes (code points 0..255) *)

Definition in_range (lo hi : N) (c : ascii) : bool :=
  ((lo <=? code c) && (code c <=? hi))%N.

(** [\s], and the characters [str.strip] removes: TAB..CR, FS..US, space,
    NEL and the no-break space. *)
Definition is_space (c : ascii) : bool :=
  in_range 9 13 c || in_range 28 32 c
  || (code c =? 133)%N || (code c =? 160)%N.

(** [\d] *)
Definition is_digit (c : ascii) : bool := in_range 48 57 c.

(** [\w]: alphanumeric characters and the underscore. *)
Definition is_word (c : ascii) : bool :=
  in_range 48 57 c || in_range 65 90 c || (code c =? 95)%N
  || in_range 97 122 c
  || (code c =? 170)%N || in_range 178 179 c || (code c =? 181)%N
  || in_range 185 186 c || in_range 188 190 c
  || in_range 192 214 c || in_range 216 246 c || in_range 248 255 c.

(** [str.lower] on one character. *)
Definition lower_char (c : ascii) : ascii :=
  if in_range 65 90 c || in_range 192 214 c || in_range 216 222 c
  then ascii_of_N (code c + 32)
  else c.

Definition lower (s : text) : text := map lower_char s.

(** [str.lstrip], [str.rstrip], [str.strip] *)
Fixpoint lstrip (s : text) : text :=
  match s with
  | [] => []
  | c :: s' => if is_space c then lstrip s' else s
  end.

Fixpoint rstrip (s : text) : text :=
  match s with
  | [] => []
  | c :: s' =>
      match rstrip s' with
      | [] => if is_space c then [] else [c]
      | r => c :: r
      end
  end.

Definition strip (s : text) : text := rstrip (lstrip s).

(** ** Regular expressions

    The fragment of Python's [re] syntax the program uses, with the
    semantics of a backtracking matcher: alternatives are tried left to
    right, repetitions are greedy, and the first success is the match. *)

Inductive regex : Type :=
| Eps                                             (* the empty pattern *)
| Cls (p : ascii -> bool)                         (* a character or a class *)
| Seq (r1 r2 : regex)
| Alt (r1 r2 : regex)                             (* r1|r2 *)
| Rep (p : ascii -> bool) (lo : nat) (hi : option nat)
                                                  (* c{lo,hi}, c*, c+, c? *)
| WordB                                           (* \b *)
| Grp (n : nat) (r : regex).                      (* the n-th ( ... ) *)

(** A position of the matcher inside the subject: the character before it,
    its offset, the characters from it on, and the groups closed so far. *)
Record mstate : Type := mkState {
  m_prev : option ascii;
  m_pos : nat;
  m_rest : text;
  m_groups : list (nat * (nat * nat))
}.

Definition is_word_opt (o : option ascii) : bool :=
  match o with
  | Some c => is_word c
  | None => false
  end.

Definition at_boundary (st : mstate) : bool :=
  xorb (is_word_opt (m_prev st)) (is_word_opt (hd_error (m_rest st))).

Definition can_more (hi : option nat) : bool :=
  match hi with
  | Some O => false
  | _ => true
  end.

(** Greedy repetition of a class: take one more character when allowed and
    fall back to stopping here when the continuation fails further on. *)
Fixpoint rep_match (p : ascii -> bool) (lo : nat) (hi : option nat)
    (prev : option ascii) (pos : nat) (rest : text)
    (gs : list (nat * (nat * nat)))
    (k : mstate -> option mstate) {struct rest} : option mstate :=
  let stop := match lo with
              | O => k (mkState prev pos rest gs)
              | S _ => None
              end in
  match rest with
  | c :: t =>
      if can_more hi && p c then
        match rep_match p (pred lo) (option_map pred hi)
                (Some c) (S pos) t gs k with
        | Some r => Some r
        | None => stop
        end
      else stop
  | [] => stop
  end.

Fixpoint rmatch (r : regex) (st : mstate) (k : mstate -> option mstate)
  : option mstate :=
  match r with
  | Eps => k st
  | Cls p =>
      match m_rest st with
      | c :: t =>
          if p c then k (mkState (Some c) (S (m_pos st)) t (m_groups st))
          else None
      | [] => None
      end
  | Seq r1 r2 => rmatch r1 st (fun st' => rmatch r2 st' k)
  | Alt r1 r2 =>
      match rmatch r1 st k with
      | Some res => Some res
      | None => rmatch r2 st k
      end
  | Rep p lo hi =>
      rep_match p lo hi (m_prev st) (m_pos st) (m_rest st) (m_groups st) k
  | WordB => if at_boundary st then k st else None
  | Grp n r1 =>
      rmatch r1 st
        (fun st' => k (mkState (m_prev st') (m_pos st') (m_rest st')
                         ((n, (m_pos st, m_pos st')) :: m_groups st')))
  end.

(** A match object: [m.start()], [m.end()] and the spans of its groups. *)
Record rx_match : Type := mkMatch {
  mt_start : nat;
  mt_end : nat;
  mt_groups : list (nat * (nat * nat))
}.

Definition match_at (r : regex) (prev : option ascii) (pos : nat) (rest : text)
  : option rx_match :=
  match rmatch r (mkState prev pos rest []) Some with
  | Some st => Some (mkMatch pos (m_pos st) (m_groups st))
  | None => None
  end.

Fixpoint find_group (n : nat) (gs : list (nat * (nat * nat)))
  : option (nat * nat) :=
  match gs with
  | [] => None
  | (i, sp) :: gs' => if Nat.eqb i n then Some sp else find_group n gs'
  end.

(** [m.start(n)] and [m.end(n)]; -1 for a group that took no part. *)
Definition group_start (m : rx_match) (n : nat) : Z :=
  match find_group n (mt_groups m) with
  | Some (a, _) => Z.of_nat a
  | None => -1
  end.

Definition group_end (m : rx_match) (n : nat) : Z :=
  match find_group n (mt_groups m) with
  | Some (_, b) => Z.of_nat b
  | None => -1
  end.

(** [m.group(n)] on the subject [s]. *)
Definition group (s : text) (m : rx_match) (n : nat) : text :=
  slice s (group_start m n) (group_end m n).

(** The scan shared by [re.finditer] and [re.sub]: try the pattern at each
    offset from left to right; after a match resume at its end ([skip]
    counts the characters of the match still to pass over).  No pattern of
    the program matches the empty string; after an empty match the scan
    moves on by one character. *)
Fixpoint scan (r : regex) (prev : option ascii) (pos : nat) (rest : text)
    (skip : nat) {struct rest} : list rx_match :=
  match skip with
  | S skip' =>
      match rest with
      | [] => []
      | c :: t => scan r (Some c) (S pos) t skip'
      end
  | O =>
      match match_at r prev pos rest with
      | Some m =>
          m :: match rest with
               | [] => []
               | c :: t => scan r (Some c) (S pos) t (pred (mt_end m - pos))
               end
      | None =>
          match rest with
          | [] => []
          | c :: t => scan r (Some c) (S pos) t O
          end
      end
  end.

(** [re.finditer(r, s)] *)
Definition finditer (r : regex) (s : text) : list rx_match :=
  scan r None O s O.

(** [re.search(r, s)] as a truth value. *)
Definition search (r : regex) (s : text) : bool :=
  match finditer r s with
  | [] => false
  | _ :: _ => true
  end.

(** [re.sub(r, repl, s)] for a replacement without group references. *)
Fixpoint sub_scan (r : regex) (repl : text) (prev : option ascii) (pos : nat)
    (rest : text) (skip : nat) {struct rest} : text :=
  match skip with
  | S skip' =>
      match rest with
      | [] => []
      | c :: t => sub_scan r repl (Some c) (S pos) t skip'
      end
  | O =>
      match match_at r prev pos rest with
      | Some m =>
          repl ++ match rest with
                  | [] => []
                  | c :: t =>
                      match (mt_end m - pos)%nat with
                      | O => c :: sub_scan r repl (Some c) (S pos) t O
                      | S n => sub_scan r repl (Some c) (S pos) t n
                      end
                  end
      | None =>
          match rest with
          | [] => []
          | c :: t => c :: sub_scan r repl (Some c) (S pos) t O
          end
      end
  end.

Definition re_sub (r : regex) (repl : text) (s : text) : text :=
  sub_scan r repl None O s O.

(** *** Building patterns *)

Definition is_char (a : ascii) : ascii -> bool := Ascii.eqb a.

(** A literal character under [(?i)]. *)
Definition is_char_ci (a : ascii) (c : ascii) : bool :=
  Ascii.eqb (lower_char a) (lower_char c).

Definition one_of (cs : text) (c : ascii) : bool :=
  existsb (Ascii.eqb c) cs.

Fixpoint seq_of (rs : list regex) : regex :=
  match rs with
  | [] => Eps
  | [r] => r
  | r :: rs' => Seq r (seq_of rs')
  end.

(** A literal word, and the same under [(?i)]. *)
Definition lit (s : string) : regex :=
  seq_of (map (fun a => Cls (is_char a)) (str s)).

Definition lit_ci (s : string) : regex :=
  seq_of (map (fun a => Cls (is_char_ci a)) (str s)).

Definition plus (p : ascii -> bool) : regex := Rep p 1 None.
Definition star (p : ascii -> bool) : regex := Rep p 0 None.
Definition opt (p : ascii -> bool) : regex := Rep p 0 (Some 1%nat).
Definition times (p : ascii -> bool) (lo hi : nat) : regex := Rep p lo (Some hi).

(** ** [clean_text] *)

(** [<[^>]+>] *)
Definition tag_pattern : regex :=
  seq_of [Cls (is_char "<"); plus (fun c => negb (is_char ">" c));
          Cls (is_char ">")].

(** [\s+] *)
Definition spaces_pattern : regex := plus is_space.

Definition clean_text (s : text) : text :=
  let s := re_sub tag_pattern [] s in
  let s := strip (re_sub spaces_pattern (str " ") s) in
  s.

(** ** Entities

    The dictionaries built in [mask_pii] and [detect_cvv_from_context]:
    keys ["entity_type"], ["start"], ["end"], ["entity"], ["score"] and,
    for the CVV detector only, ["context"]. *)

Record entity : Type := mkEntity {
  entity_type : string;
  start : Z;
  end_ : Z;
  entity_text : text;
  score : float;
  context : option text
}.

Definition set_entity_type (e : entity) (ty : string) : entity :=
  mkEntity ty (start e) (end_ e) (entity_text e) (score e) (context e).

(** ** [list.sort(key=...)]: a stable sort on an integer key *)

Section Sort.
Context {A : Type} (key : A -> Z).

Fixpoint insert_by (x : A) (l : list A) : list A :=
  match l with
  | [] => [x]
  | y :: l' => if key x <=? key y then x :: l else y :: insert_by x l'
  end.

Fixpoint sort_by (l : list A) : list A :=
  match l with
  | [] => []
  | x :: l' => insert_by x (sort_by l')
  end.
End Sort.

(** ** [resolve_overlapping_entities] *)

(** [resolved_entities[-1]], when the list is not empty. *)
Fixpoint last_of {A : Type} (l : list A) : option A :=
  match l with
  | [] => None
  | [x] => Some x
  | _ :: l' => last_of l'
  end.

(** [resolved_entities[-1] = current] *)
Definition set_last {A : Type} (l : list A) (x : A) : list A :=
  removelast l ++ [x].

Definition span_length (e : entity) : Z := end_ e - start e.

(** The test of lines 129-130: [current] beats [last]. *)
Definition wins (current last : entity) : bool :=
  PrimFloat.ltb (score last) (score current)
  || (PrimFloat.eqb (score current) (score last)
      && (span_length last <? span_length current)).

(** One iteration of the loop body, on the accumulator. *)
Definition resolve_step (resolved_entities : list entity) (current : entity)
  : list entity :=
  match last_of resolved_entities with
  | None => resolved_entities ++ [current]
  | Some last =>
      if start current <? end_ last then
        if wins current last then set_last resolved_entities current
        else resolved_entities
      else resolved_entities ++ [current]
  end.

Definition resolve_overlapping_entities (entities : list entity) : list entity :=
  match entities with
  | [] => entities
  | _ => fold_left resolve_step (sort_by start entities) []
  end.

(** ** The pattern recognizers of [setup_presidio_analyzer] *)

Definition between (a b : ascii) : ascii -> bool := in_range (code a) (code b).

(** [\b(0[1-9]|1[0-2])[/\-](0?[0-9]|[0-9]{2}|[0-9]{4})\b] *)
Definition expiry_pattern : regex :=
  seq_of
    [WordB;
     Grp 1 (Alt (Seq (Cls (is_char "0")) (Cls (between "1" "9")))
                (Seq (Cls (is_char "1")) (Cls (between "0" "2"))));
     Cls (one_of (str "/-"));
     Grp 2 (Alt (Seq (opt (is_char "0")) (Cls (between "0" "9")))
           (Alt (times (between "0" "9") 2 2)
                (times (between "0" "9") 4 4)));
     WordB].

Definition expiry_score : float := 0.8%float.

(** [\b(0[1-9]|[12][0-9]|3[01])[-/](0[1-9]|1[0-2])[-/](19|20)\d{2}\b] *)
Definition dob_pattern : regex :=
  seq_of
    [WordB;
     Grp 1 (Alt (Seq (Cls (is_char "0")) (Cls (between "1" "9")))
           (Alt (Seq (Cls (one_of (str "12"))) (Cls (between "0" "9")))
                (Seq (Cls (is_char "3")) (Cls (one_of (str "01"))))));
     Cls (one_of (str "-/"));
     Grp 2 (Alt (Seq (Cls (is_char "0")) (Cls (between "1" "9")))
                (Seq (Cls (is_char "1")) (Cls (between "0" "2"))));
     Cls (one_of (str "-/"));
     Grp 3 (Alt (lit "19") (lit "20"));
     times is_digit 2 2;
     WordB].

Definition dob_score : float := 0.9%float.

(** What the analyzer hands back for one recognizer result. *)
Record recognizer_result : Type := mkResult {
  rr_entity_type : string;
  rr_start : Z;
  rr_end : Z;
  rr_score : float
}.

(** Modelled from the spec: the engine that runs a [PatternRecognizer]
    (the [presidio_analyzer] package, not part of the repository).  Per
    section 4.2 a recognizer makes one pass of standard regular-expression
    matching over the text, its matches do not overlap one another, and each
    match is a candidate of the recognizer's entity type with the pattern's
    score. *)
Definition pattern_recognizer (supported_entity : string) (pattern : regex)
    (pattern_score : float) (s : text) : list recognizer_result :=
  map (fun m => mkResult supported_entity
                  (Z.of_nat (mt_start m)) (Z.of_nat (mt_end m)) pattern_score)
      (finditer pattern s).

Definition expiry_recognizer : text -> list recognizer_result :=
  pattern_recognizer "EXPIRY_NO" expiry_pattern expiry_score.

Definition dob_recognizer : text -> list recognizer_result :=
  pattern_recognizer "DOB" dob_pattern dob_score.

(** ** [post_process_dates] *)

Definition dob_keywords : list text :=
  map str ["born"; "birth"; "dob"; "date of birth"]%string.

Definition expiry_keywords : list text :=
  map str ["expiry"; "exp"; "expires"; "valid until"; "valid till"]%string.

(** [any(keyword in snippet for keyword in keywords)] *)
Definition any_in (keywords : list text) (snippet : text) : bool :=
  existsb (fun keyword => str_in keyword snippet) keywords.

(** The window of lines 88-91. *)
Definition date_snippet (s : text) (e : entity) : text :=
  let context_start := Z.max 0 (start e - 30) in
  let context_end := Z.min (len s) (end_ e + 30) in
  lower (slice s context_start context_end).

(** The loop body, on one entity. *)
Definition reclassify (s : text) (e : entity) : entity :=
  if String.eqb (entity_type e) "DOB" || String.eqb (entity_type e) "EXPIRY_NO"
  then
    let snippet := date_snippet s e in
    if any_in dob_keywords snippet then set_entity_type e "DOB"
    else if any_in expiry_keywords snippet then set_entity_type e "EXPIRY_NO"
    else e
  else e.

(** With every dictionary of the list a distinct object, the loop is a map. *)
Definition post_process_dates (s : text) (entities : list entity)
  : list entity :=
  map (reclassify s) entities.

(** The same loop on a store of dictionaries: the list holds references
    (indices into the store), which may repeat, and the loop assigns to
    the referenced dictionary.  The returned list is the argument itself. *)
Definition store := list entity.

Fixpoint store_set (h : store) (a : nat) (e : entity) : store :=
  match h, a with
  | [], _ => []
  | _ :: h', O => e :: h'
  | x :: h', S a' => x :: store_set h' a' e
  end.

Definition reclassify_at (s : text) (h : store) (a : nat) : store :=
  match nth_error h a with
  | Some e => store_set h a (reclassify s e)
  | None => h
  end.

Definition post_process_dates_store (s : text) (h : store) (entities : list nat)
  : store * list nat :=
  (fold_left (reclassify_at s) entities h, entities).

(** ** [detect_cvv_from_context] *)

Definition cvv_keywords : list regex :=
  [lit_ci "cvv";
   lit_ci "cvc";
   seq_of [lit_ci "security"; plus is_space; lit_ci "code"];
   seq_of [lit_ci "card"; plus is_space; lit_ci "verification"];
   seq_of [lit_ci "verification"; plus is_space; lit_ci "code"];
   seq_of [lit_ci "card"; plus is_space; lit_ci "security"; plus is_space;
           lit_ci "code"];
   seq_of [lit_ci "three"; plus is_space; lit_ci "digit"; plus is_space;
           lit_ci "code"];
   seq_of [lit_ci "four"; plus is_space; lit_ci "digit"; plus is_space;
           lit_ci "code"]].

(** [[\s:,\-]] *)
Definition is_separator (c : ascii) : bool :=
  is_space c || one_of (str ":,-") c.

(** [(?i){keyword}[\s:,\-]*(\d{3,4})] *)
Definition cvv_pattern (keyword : regex) : regex :=
  seq_of [keyword; star is_separator; Grp 1 (times is_digit 3 4)].

Definition false_positive_keywords : list text :=
  map str ["year"; "date"; "phone"; "zip"; "postal";
           "age"; "quantity"; "amount"; "price"]%string.

(** [len(digits) in [3, 4]] *)
Definition len_3_or_4 (digits : text) : bool :=
  (len digits =? 3) || (len digits =? 4).

Definition keyword_score : float := 0.9%float.
Definition proximity_score : float := 0.7%float.

(** The body of the inner loop of the first pass: the entities appended
    for one match (none or one). *)
Definition keyword_hit (s : text) (m : rx_match) : list entity :=
  let cvv_digits := group s m 1 in
  let digit_start := group_start m 1 in
  let digit_end := group_end m 1 in
  if len_3_or_4 cvv_digits then
    let context_start := Z.max 0 (Z.of_nat (mt_start m) - 20) in
    let context_end := Z.min (len s) (Z.of_nat (mt_end m) + 20) in
    let context := lower (slice s context_start context_end) in
    let is_likely_cvv := negb (any_in false_positive_keywords context) in
    if is_likely_cvv then
      [mkEntity "CVV_NO" digit_start digit_end cvv_digits keyword_score
         (Some (strip context))]
    else []
  else [].

(** The first pass: keywords in order, and for each its matches in order. *)
Definition keyword_pass (s : text) : list entity :=
  flat_map (fun keyword => flat_map (keyword_hit s)
                             (finditer (cvv_pattern keyword) s))
           cvv_keywords.

Definition card_keywords : list string :=
  ["card"; "credit"; "debit"; "payment"; "expire"; "expiry"; "valid"]%string.

(** [\b(\d{3,4})\b] *)
Definition digit_pattern : regex :=
  seq_of [WordB; Grp 1 (times is_digit 3 4); WordB].

(** [\b{keyword}\b] *)
Definition whole_word (keyword : string) : regex :=
  seq_of [WordB; lit keyword; WordB].

(** [\d{4}[-/]\d{2}[-/]\d{2,4}] *)
Definition date_like : regex :=
  seq_of [times is_digit 4 4; Cls (one_of (str "-/")); times is_digit 2 2;
          Cls (one_of (str "-/")); times is_digit 2 4].

(** [\$\d+] *)
Definition dollar_amount : regex :=
  seq_of [Cls (is_char "$"); plus is_digit].

(** [\d{4}\s*\d{4}\s*\d{4}\s*\d{4}] *)
Definition card_number_like : regex :=
  seq_of [times is_digit 4 4; star is_space; times is_digit 4 4; star is_space;
          times is_digit 4 4; star is_space; times is_digit 4 4].

Definition same_span (digit_start digit_end : Z) (existing : entity) : bool :=
  (start existing =? digit_start) && (end_ existing =? digit_end).

(** The body of the second loop, on the list built so far. *)
Definition proximity_step (s : text) (cvv_entities : list entity)
    (digit_match : rx_match) : list entity :=
  let digit_text := group s digit_match 1 in
  let digit_start := group_start digit_match 1 in
  let digit_end := group_end digit_match 1 in
  let context_start := Z.max 0 (digit_start - 50) in
  let context_end := Z.min (len s) (digit_end + 50) in
  let context := lower (slice s context_start context_end) in
  let has_card_context :=
    existsb (fun keyword => search (whole_word keyword) context)
            card_keywords in
  let likely_cvv_context :=
    has_card_context
    && negb (search date_like context)
    && negb (search dollar_amount context)
    && negb (search card_number_like context)
    && len_3_or_4 digit_text in
  if likely_cvv_context then
    let is_duplicate :=
      existsb (same_span digit_start digit_end) cvv_entities in
    if negb is_duplicate then
      cvv_entities
        ++ [mkEntity "CVV_NO" digit_start digit_end digit_text
              proximity_score (Some (strip context))]
    else cvv_entities
  else cvv_entities.

Definition detect_cvv_from_context (s : text) : list entity :=
  fold_left (proximity_step s) (finditer digit_pattern s) (keyword_pass s).

(** ** [mask_pii]: the entity records *)

Record masked_entity : Type := mkMasked {
  position : Z * Z;
  classification : string;
  entity_value : text            (* the key ["entity"] *)
}.

Definition entity_mapping : list (string * string) :=
  [("PERSON", "full_name"); ("EMAIL_ADDRESS", "email");
   ("PHONE_NUMBER", "phone_number"); ("DOB", "dob");
   ("AADHAR_NUM", "aadhar_num"); ("CREDIT_DEBIT_NO", "credit_debit_no");
   ("CVV_NO", "cvv_no"); ("EXPIRY_NO", "expiry_no")]%string.

Fixpoint dict_get (d : list (string * string)) (key default : string)
  : string :=
  match d with
  | [] => default
  | (k, v) :: d' => if String.eqb k key then v else dict_get d' key default
  end.

Definition lower_string (s : string) : string :=
  string_of_list_ascii (lower (str s)).

(** Lines 279-291 *)
Definition of_result (cleaned_text : text) (result : recognizer_result)
  : entity :=
  mkEntity (rr_entity_type result) (rr_start result) (rr_end result)
    (slice cleaned_text (rr_start result) (rr_end result))
    (rr_score result) None.

(** Lines 305-311 *)
Definition to_masked (e : entity) : masked_entity :=
  mkMasked (start e, end_ e)
    (dict_get entity_mapping (entity_type e) (lower_string (entity_type e)))
    (entity_text e).

(** Lines 277-301: from the analyzer's results to the resolved entities. *)
Definition resolved_entities_of (cleaned_text : text)
    (analyzer_results : list recognizer_result) : list entity :=
  let entities := map (of_result cleaned_text) analyzer_results in
  let cvv_entities := detect_cvv_from_context cleaned_text in
  let entities := entities ++ cvv_entities in
  let entities := post_process_dates cleaned_text entities in
  resolve_overlapping_entities entities.

(** Lines 303-314: the records, sorted by position. *)
Definition masked_entities_of (entities : list entity) : list masked_entity :=
  sort_by (fun x => fst (position x)) (map to_masked entities).

Section MaskPii.
(** The two engines of the Presidio packages: [analyzer.analyze] with the
    entity list and language fixed as in the call, and
    [anonymizer.anonymize] with the operator table.  Either may raise
    ([None]); [mask_pii] catches nothing, so the exception is its own
    outcome. *)
Variable analyze : text -> option (list recognizer_result).
Variable anonymize : text -> list entity -> option text.

Definition mask_pii (s : text) : option (text * list masked_entity) :=
  let cleaned_text := clean_text s in
  match analyze cleaned_text with
  | None => None
  | Some analyzer_results =>
      let entities := resolved_entities_of cleaned_text analyzer_results in
      let masked_entities := masked_entities_of entities in
      match anonymize cleaned_text entities with
      | None => None
      | Some masked_email => Some (masked_email, masked_entities)
      end
  end.
End MaskPii.

(** ** The other patterns of [setup_presidio_analyzer] *)

(** [\b\d{4}\s\d{4}\s\d{4}\b] *)
Definition aadhar_pattern : regex :=
  seq_of [WordB; times is_digit 4 4; Cls is_space; times is_digit 4 4;
          Cls is_space; times is_digit 4 4; WordB].

Definition aadhar_score : float := 0.9%float.

(** [[-\s]] *)
Definition is_dash_or_space (c : ascii) : bool := is_char "-" c || is_space c.

(** [\d{4}[-\s]?], the group repeated by [{3}] *)
Definition card_group : regex :=
  Seq (times is_digit 4 4) (opt is_dash_or_space).

(** [\b(?:\d{4}[-\s]?){3}\d{4}\b], the group written out three times *)
Definition credit_card_pattern : regex :=
  seq_of [WordB; card_group; card_group; card_group; times is_digit 4 4;
          WordB].

Definition credit_card_score : float := 0.85%float.

(** [[-.\s]] *)
Definition is_phone_separator (c : ascii) : bool :=
  one_of (str "-.") c || is_space c.

(** [(?:\+\d{1,3}[-.\s]?)?\(?\d{3}\)?[-.\s]?\d{3}[-.\s]?\d{4}] *)
Definition phone_pattern : regex :=
  seq_of
    [Alt (seq_of [Cls (is_char "+"); times is_digit 1 3;
                  opt is_phone_separator])
         Eps;
     opt (is_char "("); times is_digit 3 3; opt (is_char ")");
     opt is_phone_separator; times is_digit 3 3;
     opt is_phone_separator; times is_digit 4 4].

Definition phone_score : float := 0.8%float.

Definition aadhar_recognizer : text -> list recognizer_result :=
  pattern_recognizer "AADHAR_NUM" aadhar_pattern aadhar_score.

Definition credit_card_recognizer : text -> list recognizer_result :=
  pattern_recognizer "CREDIT_DEBIT_NO" credit_card_pattern credit_card_score.

Definition phone_recognizer : text -> list recognizer_result :=
  pattern_recognizer "PHONE_NUMBER" phone_pattern phone_score.

(** The five recognizers, in the order they are registered. *)
Definition custom_recognizers (s : text) : list recognizer_result :=
  credit_card_recognizer s ++ aadhar_recognizer s ++ expiry_recognizer s
  ++ dob_recognizer s ++ phone_recognizer s.

(** ** The operator table of [mask_pii] (lines 332-341): the replacement
    for each entity type *)


(** ** The anonymizer engine *)





(** ** [email_processing_api] ([main.py]) *)

(** What [data.get("input_email_body")] can be: [None], a string, or a
    value of another type, of which only the truth value matters. *)
Inductive py_value : Type :=
| PyNone
| PyStr (s : text)
| PyOther (truth : bool).

(** [bool(v)] *)
Definition truthy (v : py_value) : bool :=
  match v with
  | PyNone => false
  | PyStr s => match s with [] => false | _ :: _ => true end
  | PyOther truth => truth
  end.

(** [isinstance(v, str)] *)
Definition is_str (v : py_value) : bool :=
  match v with
  | PyStr _ => true
  | _ => false
  end.

(** The request, as far as the handler reads it: [request.is_json] and
    the value under ["input_email_body"] of the JSON object. *)
Record request : Type := mkRequest {
  is_json : bool;
  input_email_body : py_value
}.

(** The JSON body of a response.  The ["details"] of the internal error
    are the text of the exception, which the engines choose. *)
Inductive response_body : Type :=
| ErrorBody (error : string)
| InternalErrorBody
| ResultBody (input_email_body : text)
             (list_of_masked_entities : list masked_entity)
             (masked_email : text)
             (category_of_the_email : string).

Section Api.
Variable analyze : text -> option (list recognizer_result).
Variable anonymize : text -> list entity -> option text.
(** [classify_email] of [models.py]: the fine-tuned model, which may raise. *)
Variable classify_email : text -> option string.

Definition email_processing_api (req : request) : response_body * Z :=
  if negb (is_json req) then (ErrorBody "Request must be JSON", 400)
  else
    let v := input_email_body req in
    if negb (truthy v) || negb (is_str v) then
      (ErrorBody "Invalid or missing 'input_email_body'", 400)
    else
      match v with
      | PyStr body =>
          let cleaned_email_body := clean_text body in
          match mask_pii analyze anonymize cleaned_email_body with
          | None => (InternalErrorBody, 500)
          | Some (masked_email_text, list_of_entities) =>
              match classify_email masked_email_text with
              | None => (InternalErrorBody, 500)
              | Some email_category =>
                  (ResultBody body list_of_entities masked_email_text
                     email_category, 200)
              end
          end
      | _ => (ErrorBody "Invalid or missing 'input_email_body'", 400)
      end.
End Api.

(** * Properties *)

(** ** Scenarios *)

Example clean_text_scenario :
  clean_text (str "  <p>Hello   <b>world</b> </p> <> a>b <x  y ")
  = str "Hello world <> a>b <x y".
Proof. vm_compute. reflexivity. Qed.

Example zip_is_not_a_cvv : detect_cvv_from_context (str "Zip: 123") = [].
Proof. vm_compute. reflexivity. Qed.

Example proximity_scenario :
  detect_cvv_from_context (str "my card 4321 ok")
  = [mkEntity "CVV_NO" 8 12 (str "4321") 0.7%float
       (Some (str "my card 4321 ok"))].
Proof. vm_compute. reflexivity. Qed.

Example expiry_scenario :
  map (fun r => (rr_start r, rr_end r))
      (expiry_recognizer (str "Expires: 01/02/25 01/5 01-2025 112/25 12/25"))
  = [(9, 14); (18, 22); (23, 30); (38, 43)].
Proof. vm_compute. reflexivity. Qed.

(** ** Sorting *)

Section SortFacts.
Context {A : Type} (key : A -> Z).

Definition key_le (a b : A) : Prop := key a <= key b.

Lemma insert_by_perm (x : A) (l : list A) :
  Permutation (x :: l) (insert_by key x l).
Proof.
  induction l as [|y l IH]; simpl.
  - apply Permutation_refl.
  - destruct (key x <=? key y).
    + apply Permutation_refl.
    + eapply perm_trans; [apply perm_swap|].
      apply perm_skip, IH.
Qed.

Lemma sort_by_perm (l : list A) : Permutation l (sort_by key l).
Proof.
  induction l as [|x l IH]; simpl.
  - constructor.
  - eapply perm_trans; [apply perm_skip, IH|apply insert_by_perm].
Qed.

Lemma insert_by_sorted (x : A) (l : list A) :
  StronglySorted key_le l -> StronglySorted key_le (insert_by key x l).
Proof.
  induction 1 as [|y l Hs IH Hall]; simpl.
  - repeat constructor.
  - destruct (key x <=? key y) eqn:E.
    + apply Z.leb_le in E. constructor.
      * constructor; assumption.
      * constructor; [exact E|].
        eapply Forall_impl; [|exact Hall].
        unfold key_le. intros; lia.
    + apply Z.leb_gt in E. constructor; [exact IH|].
      eapply Permutation_Forall; [apply insert_by_perm|].
      constructor; [unfold key_le; lia|exact Hall].
Qed.

Lemma sort_by_sorted (l : list A) : StronglySorted key_le (sort_by key l).
Proof.
  induction l; simpl; [constructor|now apply insert_by_sorted].
Qed.

(** Stability: entries with the same key keep their order. *)
Lemma insert_by_stable (z : Z) (x : A) (l : list A) :
  filter (fun a => key a =? z) (insert_by key x l)
  = filter (fun a => key a =? z) (x :: l).
Proof.
  induction l as [|y l IH]; [reflexivity|].
  cbn [insert_by]. destruct (key x <=? key y) eqn:E; [reflexivity|].
  apply Z.leb_gt in E. cbn [filter] in *. rewrite IH.
  destruct (key x =? z) eqn:Ex, (key y =? z) eqn:Ey; try reflexivity.
  apply Z.eqb_eq in Ex, Ey. lia.
Qed.

Lemma sort_by_stable (z : Z) (l : list A) :
  filter (fun a => key a =? z) (sort_by key l)
  = filter (fun a => key a =? z) l.
Proof.
  induction l as [|x l IH]; [reflexivity|].
  cbn [sort_by]. rewrite insert_by_stable. cbn [filter]. now rewrite IH.
Qed.
End SortFacts.

(** ** Lists seen from their last element *)

Lemma last_of_snoc {A : Type} (l : list A) (x : A) :
  last_of (l ++ [x]) = Some x.
Proof.
  induction l as [|y l IH]; [reflexivity|].
  cbn [app last_of]. rewrite IH. now destruct (l ++ [x]) eqn:E; [destruct l|].
Qed.

Lemma last_of_cases {A : Type} (l : list A) :
  (l = [] /\ last_of l = None)
  \/ exists l' x, l = l' ++ [x] /\ last_of l = Some x.
Proof.
  destruct l as [|a l]; [left; now split|right].
  destruct (@exists_last A (a :: l)) as [l' [x E]]; [discriminate|].
  exists l', x. split; [exact E|]. rewrite E. apply last_of_snoc.
Qed.

Lemma set_last_snoc {A : Type} (l : list A) (x y : A) :
  set_last (l ++ [x]) y = l ++ [y].
Proof. unfold set_last. now rewrite removelast_last. Qed.

Section SortedSnoc.
Context {A : Type} (R : A -> A -> Prop).

Lemma Sorted_snoc (l : list A) (a b : A) :
  Sorted R (l ++ [a]) -> R a b -> Sorted R (l ++ [a; b]).
Proof.
  intros Hs Hab. induction l as [|p l IH]; cbn [app] in *.
  - repeat constructor. exact Hab.
  - inversion Hs as [|? ? Hs' Hhd]; subst. constructor; [now apply IH|].
    destruct l; cbn [app] in *; inversion Hhd; subst; now constructor.
Qed.

Lemma Sorted_replace_last (l : list A) (a b : A) :
  Sorted R (l ++ [a]) -> (forall p, R p a -> R p b) -> Sorted R (l ++ [b]).
Proof.
  intros Hs Hab. induction l as [|p l IH]; cbn [app] in *.
  - repeat constructor.
  - inversion Hs as [|? ? Hs' Hhd]; subst. constructor; [now apply IH|].
    destruct l; cbn [app] in *; inversion Hhd; subst; constructor; auto.
Qed.

Lemma Sorted_weaken (R' : A -> A -> Prop) (l : list A) :
  (forall a b, R a b -> R' a b) -> Sorted R l -> Sorted R' l.
Proof.
  intros Himp. induction 1 as [|a l Hs IH Hhd]; constructor; [exact IH|].
  destruct Hhd; constructor; auto.
Qed.
End SortedSnoc.

(** ** The overlap resolver *)

Module Resolver.

Lemma step_nil (c : entity) : resolve_step [] c = [c].
Proof. reflexivity. Qed.

Lemma step_snoc (acc : list entity) (last c : entity) :
  resolve_step (acc ++ [last]) c
  = if start c <? end_ last then
      if wins c last then acc ++ [c] else acc ++ [last]
    else acc ++ [last; c].
Proof.
  unfold resolve_step. rewrite last_of_snoc, set_last_snoc.
  now rewrite <- app_assoc.
Qed.

(** [b] comes after [a] and does not reach back into it. *)
Definition follows (a b : entity) : Prop :=
  start a <= start b /\ end_ a <= start b.

Definition starts_ordered (a b : entity) : Prop := start a <= start b.
Definition disjoint (a b : entity) : Prop := end_ a <= start b.
Definition nonempty_span (e : entity) : Prop := start e < end_ e.

(** The loop keeps its accumulator chained, as long as the candidates
    still to come start no earlier than the last entity kept. *)
Lemma fold_follows (l : list entity) :
  forall acc,
    StronglySorted (key_le start) l ->
    Sorted follows acc ->
    (forall x, last_of acc = Some x ->
               Forall (fun y => start x <= start y) l) ->
    Sorted follows (fold_left resolve_step l acc).
Proof.
  induction l as [|c l IH]; intros acc Hs Hacc Hlast; cbn [fold_left].
  - exact Hacc.
  - inversion Hs as [|? ? Hs' Hc]; subst.
    destruct (last_of_cases acc) as [[-> _]|[acc' [x [-> Hx]]]].
    + rewrite step_nil. apply IH; [exact Hs'|repeat constructor|].
      intros y [= <-]. exact Hc.
    + specialize (Hlast x Hx). inversion Hlast as [|? ? Hxc Hxl]; subst.
      rewrite step_snoc.
      destruct (start c <? end_ x) eqn:Hov;
        [destruct (wins c x)|apply Z.ltb_ge in Hov].
      * apply IH; [exact Hs'| |].
        -- apply Sorted_replace_last with (a := x); [exact Hacc|].
           unfold follows. intros p [? ?]. lia.
        -- rewrite last_of_snoc. intros y [= <-]. exact Hc.
      * apply IH; [exact Hs'|exact Hacc|].
        rewrite Hx. intros y [= <-]. exact Hxl.
      * apply IH; [exact Hs'| |].
        -- apply Sorted_snoc; [exact Hacc|]. unfold follows. lia.
        -- change (acc' ++ [x; c]) with (acc' ++ [x] ++ [c]).
           rewrite app_assoc, last_of_snoc. intros y [= <-]. exact Hc.
Qed.

Lemma follows_sorted (entities : list entity) :
  Sorted follows (resolve_overlapping_entities entities).
Proof.
  destruct entities as [|e es]; [constructor|].
  unfold resolve_overlapping_entities.
  apply fold_follows; [apply sort_by_sorted|constructor|discriminate].
Qed.

(** Nothing is invented: what is kept was a candidate. *)
Lemma fold_incl (l : list entity) :
  forall acc, incl (fold_left resolve_step l acc) (acc ++ l).
Proof.
  induction l as [|c l IH]; intros acc; cbn [fold_left].
  - rewrite app_nil_r. apply incl_refl.
  - eapply incl_tran; [apply IH|].
    apply incl_app; [|apply incl_appr, incl_tl, incl_refl].
    destruct (last_of_cases acc) as [[-> _]|[acc' [x [-> Hx]]]].
    + rewrite step_nil. intros y [<-|[]]. now left.
    + rewrite step_snoc.
      destruct (start c <? end_ x); [destruct (wins c x)|].
      * intros y Hy. apply in_app_or in Hy as [Hy|[<-|[]]].
        -- apply in_or_app. left. apply in_or_app. now left.
        -- apply in_or_app. right. now left.
      * apply incl_appl, incl_refl.
      * intros y Hy. apply in_app_or in Hy as [Hy|[<-|[<-|[]]]].
        -- apply in_or_app. left. apply in_or_app. now left.
        -- apply in_or_app. left. apply in_or_app. right. now left.
        -- apply in_or_app. right. now left.
Qed.

Lemma resolve_incl (entities : list entity) :
  incl (resolve_overlapping_entities entities) entities.
Proof.
  destruct entities as [|e es]; [apply incl_refl|].
  unfold resolve_overlapping_entities.
  eapply incl_tran; [apply fold_incl|]. cbn [app].
  intros y Hy. eapply Permutation_in; [|exact Hy].
  apply Permutation_sym, sort_by_perm.
Qed.

(** A chain of non-empty spans is ordered and disjoint pair by pair. *)
Lemma follows_all_pairs (l : list entity) :
  Forall nonempty_span l -> Sorted follows l ->
  StronglySorted (fun a b => start a < start b /\ end_ a <= start b) l.
Proof.
  intros Hne Hs. induction Hs as [|a l Hs IH Hhd]; [constructor|].
  inversion Hne as [|? ? Ha Hl]; subst.
  specialize (IH Hl). constructor; [exact IH|].
  destruct Hhd as [|b l' [Hab1 Hab2]]; [constructor|].
  inversion IH as [|? ? _ Hb]; subst. inversion Hl; subst.
  unfold nonempty_span in *.
  constructor; [lia|]. eapply Forall_impl; [|exact Hb].
  cbn beta. intros; lia.
Qed.

End Resolver.

(** *** The policy of section 4.5, case by case

    [resolves acc cs out]: starting with the accumulator [acc] and the
    candidates [cs] still to come, in that order, the resolver ends with
    [out]. *)

Definition higher_confidence (c last : entity) : Prop :=
  PrimFloat.ltb (score last) (score c) = true.

Definition equal_confidence (c last : entity) : Prop :=
  PrimFloat.eqb (score c) (score last) = true.

Definition longer_span (c last : entity) : Prop :=
  end_ last - start last < end_ c - start c.

Inductive resolves : list entity -> list entity -> list entity -> Prop :=
| resolves_done acc :
    resolves acc [] acc
| resolves_first c cs out :
    (* the accumulator is empty: append *)
    resolves [c] cs out ->
    resolves [] (c :: cs) out
| resolves_apart acc last c cs out :
    (* no overlap with the last entity kept: append *)
    end_ last <= start c ->
    resolves (acc ++ [last; c]) cs out ->
    resolves (acc ++ [last]) (c :: cs) out
| resolves_higher acc last c cs out :
    (* overlap, strictly higher confidence: replace the last entity *)
    start c < end_ last ->
    higher_confidence c last ->
    resolves (acc ++ [c]) cs out ->
    resolves (acc ++ [last]) (c :: cs) out
| resolves_longer acc last c cs out :
    (* overlap, a tie on confidence, strictly longer span: replace *)
    start c < end_ last ->
    equal_confidence c last ->
    longer_span c last ->
    resolves (acc ++ [c]) cs out ->
    resolves (acc ++ [last]) (c :: cs) out
| resolves_dropped acc last c cs out :
    (* overlap, every other case: the candidate is dropped *)
    start c < end_ last ->
    ~ higher_confidence c last ->
    ~ (equal_confidence c last /\ longer_span c last) ->
    resolves (acc ++ [last]) cs out ->
    resolves (acc ++ [last]) (c :: cs) out.

Lemma wins_true (c last : entity) :
  wins c last = true
  <-> higher_confidence c last
      \/ (equal_confidence c last /\ longer_span c last).
Proof.
  unfold wins, higher_confidence, equal_confidence, longer_span, span_length.
  rewrite orb_true_iff, andb_true_iff, Z.ltb_lt. tauto.
Qed.

Lemma resolves_fold (acc cs out : list entity) :
  resolves acc cs out -> fold_left resolve_step cs acc = out.
Proof.
  induction 1 as [acc|c cs out _ IH|acc last c cs out Hap _ IH
                 |acc last c cs out Hov Hhi _ IH
                 |acc last c cs out Hov Heq Hlen _ IH
                 |acc last c cs out Hov Hhi Hlen _ IH];
    cbn [fold_left]; try rewrite Resolver.step_snoc; try exact IH.
  - reflexivity.
  - apply Z.ltb_ge in Hap. now rewrite Hap.
  - apply Z.ltb_lt in Hov. rewrite Hov.
    replace (wins c last) with true; [exact IH|].
    symmetry. apply wins_true. now left.
  - apply Z.ltb_lt in Hov. rewrite Hov.
    replace (wins c last) with true; [exact IH|].
    symmetry. apply wins_true. now right.
  - apply Z.ltb_lt in Hov. rewrite Hov.
    destruct (wins c last) eqn:Hw; [|exact IH].
    apply wins_true in Hw. tauto.
Qed.

Lemma fold_resolves (cs : list entity) :
  forall acc, resolves acc cs (fold_left resolve_step cs acc).
Proof.
  induction cs as [|c cs IH]; intros acc; cbn [fold_left]; [constructor|].
  destruct (last_of_cases acc) as [[-> _]|[acc' [last [-> _]]]].
  - apply resolves_first, IH.
  - rewrite Resolver.step_snoc.
    destruct (start c <? end_ last) eqn:Hov.
    + apply Z.ltb_lt in Hov. destruct (wins c last) eqn:Hw.
      * apply wins_true in Hw as [Hhi|[Heq Hlen]].
        -- now apply resolves_higher; [| |apply IH].
        -- now apply resolves_longer; [| | |apply IH].
      * apply resolves_dropped; [exact Hov| | |apply IH];
          intros Hc; assert (wins c last = true) as Hw'
            by (apply wins_true; tauto); congruence.
    + apply Z.ltb_ge in Hov. apply resolves_apart; [exact Hov|apply IH].
Qed.

(** C1. For candidates with [start < end], the resolver's output is sorted
    ascending by [start], every adjacent pair [(a, b)] has
    [a.end <= b.start], and so no two kept spans overlap at all, adjacent
    or not: a replacement of the last kept entity starts no earlier than
    the entity it replaces, hence not before the end of the one kept
    before that. *)
Theorem resolve_sorted_nonoverlapping (entities : list entity) :
  Forall Resolver.nonempty_span entities ->
  let out := resolve_overlapping_entities entities in
  Sorted Resolver.starts_ordered out
  /\ Sorted Resolver.disjoint out
  /\ StronglySorted (fun a b => start a < start b /\ end_ a <= start b) out.
Proof.
  intros Hne out.
  pose proof (Resolver.follows_sorted entities) as Hs. fold out in Hs.
  repeat split.
  - eapply Sorted_weaken; [|exact Hs]. now intros a b [? ?].
  - eapply Sorted_weaken; [|exact Hs]. now intros a b [? ?].
  - apply Resolver.follows_all_pairs; [|exact Hs].
    apply Forall_forall. intros e He.
    eapply Forall_forall; [exact Hne|].
    now apply Resolver.resolve_incl.
Qed.

(** A cluster of three mutually overlapping candidates and a fourth one
    touching it: [0,10) at 0.9, [5,15) at 0.7, [8,20) at 0.95, [20,25). *)
Definition overlap_cluster : list entity :=
  [mkEntity "PHONE_NUMBER" 5 15 [] 0.7%float None;
   mkEntity "PERSON" 0 10 [] 0.9%float None;
   mkEntity "CVV_NO" 20 25 [] 0.5%float None;
   mkEntity "AADHAR_NUM" 8 20 [] 0.95%float None].

Lemma resolve_sorted_nonoverlapping_witness :
  Forall Resolver.nonempty_span overlap_cluster
  /\ Sorted Resolver.starts_ordered
       (resolve_overlapping_entities overlap_cluster)
  /\ Sorted Resolver.disjoint (resolve_overlapping_entities overlap_cluster)
  /\ StronglySorted (fun a b => start a < start b /\ end_ a <= start b)
       (resolve_overlapping_entities overlap_cluster).
Proof.
  assert (Forall Resolver.nonempty_span overlap_cluster) as H
    by (repeat constructor).
  split; [exact H|].
  exact (resolve_sorted_nonoverlapping overlap_cluster H).
Defined.

(** C2. The resolver takes the candidates in ascending order of [start]
    (a stable rearrangement of its argument) and treats each one by the
    local policy [resolves]: append when the accumulator is empty or the
    candidate starts at or after the end of the last entity kept;
    otherwise replace that last entity on strictly higher confidence, or on
    equal confidence and a strictly longer span; otherwise drop the
    candidate.  The policy determines the result.  For A = (0.9, [0,10))
    and B = (0.7, [5,15)), in either order, the result is A alone. *)
Theorem resolver_local_policy (entities : list entity) :
  let candidates := sort_by start entities in
  Permutation entities candidates
  /\ StronglySorted (key_le start) candidates
  /\ (forall z, filter (fun e => start e =? z) candidates
                = filter (fun e => start e =? z) entities)
  /\ (forall out, resolves [] candidates out
                  <-> resolve_overlapping_entities entities = out)
  /\ (forall tyA tyB txtA txtB ctxA ctxB,
        let A := mkEntity tyA 0 10 txtA 0.9%float ctxA in
        let B := mkEntity tyB 5 15 txtB 0.7%float ctxB in
        resolve_overlapping_entities [A; B] = [A]
        /\ resolve_overlapping_entities [B; A] = [A]).
Proof.
  intros candidates. split; [apply sort_by_perm|].
  split; [apply sort_by_sorted|].
  split; [intros z; apply sort_by_stable|].
  split.
  - intros out.
    assert (resolve_overlapping_entities entities
            = fold_left resolve_step candidates []) as ->
      by (now destruct entities).
    split; [apply resolves_fold|intros <-; apply fold_resolves].
  - intros. split; reflexivity.
Qed.

(** ** Substrings and slices *)

(** [kw] occurs in [w]. *)
Definition occurs (kw w : text) : Prop := exists a b, w = a ++ kw ++ b.

Lemma starts_with_prefix (kw s : text) :
  starts_with kw s = true <-> exists b, s = kw ++ b.
Proof.
  revert s. induction kw as [|a kw IH]; intros s; cbn [starts_with app].
  - split; [intros _; now exists s|reflexivity].
  - destruct s as [|c s]; [split; [discriminate|intros [b [=]]]|].
    rewrite andb_true_iff, Ascii.eqb_eq, IH. split.
    + intros [-> [b ->]]. now exists b.
    + intros [b [= -> ->]]. split; [reflexivity|now exists b].
Qed.

Lemma str_in_occurs (kw w : text) : str_in kw w = true <-> occurs kw w.
Proof.
  unfold occurs. induction w as [|c w IH]; cbn [str_in].
  - rewrite orb_false_r, starts_with_prefix. split.
    + intros [b E]. now exists [], b.
    + intros [a [b E]]. destruct a; [now exists b|discriminate].
  - rewrite orb_true_iff, starts_with_prefix, IH. split.
    + intros [[b E]|[a [b E]]]; [now exists [], b|].
      exists (c :: a), b. cbn [app]. now rewrite E.
    + intros [a [b E]]. destruct a as [|x a]; [left; now exists b|].
      right. injection E as _ E. now exists a, b.
Qed.

Lemma any_in_occurs (keywords : list text) (w : text) :
  any_in keywords w = true <-> exists kw, In kw keywords /\ occurs kw w.
Proof.
  unfold any_in. rewrite existsb_exists.
  split; intros [kw [Hin H]]; exists kw; (split; [exact Hin|]);
    now apply str_in_occurs.
Qed.

Lemma any_in_none (keywords : list text) (w : text) :
  any_in keywords w = false <-> forall kw, In kw keywords -> ~ occurs kw w.
Proof.
  rewrite <- not_true_iff_false, any_in_occurs. split.
  - intros H kw Hin Hoc. apply H. now exists kw.
  - intros H [kw [Hin Hoc]]. exact (H kw Hin Hoc).
Qed.

Lemma slice_bound_inside (n i : Z) : 0 <= i <= n -> slice_bound n i = i.
Proof. unfold slice_bound. intros H. destruct (i <? 0) eqn:E; lia. Qed.

(** Within the text a slice is the characters at offsets [i..j-1]. *)
Lemma slice_inside (s : text) (i j : Z) :
  0 <= i <= len s -> 0 <= j <= len s ->
  slice s i j = firstn (Z.to_nat j - Z.to_nat i) (skipn (Z.to_nat i) s).
Proof.
  intros Hi Hj. unfold slice. rewrite !slice_bound_inside by assumption.
  f_equal. lia.
Qed.

Lemma slice_all (s : text) : slice s 0 (len s) = s.
Proof.
  rewrite slice_inside by (unfold len; lia). cbn [Z.to_nat skipn].
  unfold len. rewrite Nat2Z.id, Nat.sub_0_r. apply firstn_all.
Qed.

(** The slice covering the middle part of a text. *)
Lemma slice_app (a w b : text) :
  slice (a ++ w ++ b) (len a) (len a + len w) = w.
Proof.
  unfold len. rewrite slice_inside; rewrite ?length_app; unfold len;
    rewrite ?length_app; try lia.
  rewrite Nat2Z.id.
  replace (Z.to_nat _ - _)%nat with (List.length w) by lia.
  rewrite skipn_app, skipn_all, Nat.sub_diag. cbn [skipn app].
  rewrite firstn_app, firstn_all, Nat.sub_diag. cbn [firstn].
  apply app_nil_r.
Qed.

(** ** The date reclassifier *)

(** [e'] is [e] up to its [entity_type]. *)
Definition same_but_type (e e' : entity) : Prop :=
  start e' = start e /\ end_ e' = end_ e /\ score e' = score e
  /\ entity_text e' = entity_text e /\ context e' = context e.

Definition is_date (e : entity) : Prop :=
  entity_type e = "DOB"%string \/ entity_type e = "EXPIRY_NO"%string.

Lemma reclassify_same (s : text) (e : entity) :
  same_but_type e (reclassify s e).
Proof.
  unfold reclassify, same_but_type.
  destruct (_ || _); [|tauto].
  destruct (any_in dob_keywords _); [cbn; tauto|].
  destruct (any_in expiry_keywords _); cbn; tauto.
Qed.

Lemma reclassify_other (s : text) (e : entity) :
  ~ is_date e -> reclassify s e = e.
Proof.
  unfold is_date, reclassify. intros H.
  destruct (String.eqb_spec (entity_type e) "DOB"); [tauto|].
  destruct (String.eqb_spec (entity_type e) "EXPIRY_NO"); [tauto|].
  reflexivity.
Qed.

Lemma reclassify_date (s : text) (e : entity) :
  is_date e ->
  reclassify s e
  = if any_in dob_keywords (date_snippet s e) then set_entity_type e "DOB"
    else if any_in expiry_keywords (date_snippet s e)
         then set_entity_type e "EXPIRY_NO"
         else e.
Proof.
  unfold is_date, reclassify. intros [-> | ->]; reflexivity.
Qed.

Module Store.

Lemma store_set_length (h : store) (a : nat) (e : entity) :
  List.length (store_set h a e) = List.length h.
Proof.
  revert a. induction h as [|x h IH]; intros [|a]; cbn; auto.
Qed.

Lemma store_set_same (h : store) (a : nat) (e x : entity) :
  nth_error h a = Some x -> nth_error (store_set h a e) a = Some e.
Proof.
  revert a. induction h as [|y h IH]; intros [|a]; cbn; try discriminate; auto.
Qed.

Lemma store_set_other (h : store) (a b : nat) (e : entity) :
  a <> b -> nth_error (store_set h a e) b = nth_error h b.
Proof.
  revert a b. induction h as [|y h IH]; intros [|a] [|b] H; cbn;
    try reflexivity; try congruence.
  apply IH. congruence.
Qed.

(** What one run of the loop may do to a store. *)
Definition framed (h h' : store) : Prop :=
  List.length h' = List.length h
  /\ forall a e, nth_error h a = Some e ->
       exists e', nth_error h' a = Some e'
                  /\ same_but_type e e' /\ (~ is_date e -> e' = e).

Lemma framed_refl (h : store) : framed h h.
Proof.
  split; [reflexivity|]. intros a e H. exists e.
  unfold same_but_type. tauto.
Qed.

Lemma framed_trans (h1 h2 h3 : store) :
  framed h1 h2 -> framed h2 h3 -> framed h1 h3.
Proof.
  intros [L12 F12] [L23 F23]. split; [congruence|].
  intros a e H. destruct (F12 a e H) as [e2 [H2 [S2 N2]]].
  destruct (F23 a e2 H2) as [e3 [H3 [S3 N3]]].
  exists e3. split; [exact H3|]. split.
  - unfold same_but_type in *. intuition congruence.
  - intros Hn. specialize (N2 Hn). subst e2. now apply N3.
Qed.

Lemma framed_step (s : text) (h : store) (a : nat) :
  framed h (reclassify_at s h a).
Proof.
  unfold reclassify_at.
  destruct (nth_error h a) as [x|] eqn:Hx; [|apply framed_refl].
  split; [apply store_set_length|]. intros b e Hb.
  destruct (Nat.eq_dec a b) as [<-|Hab].
  - exists (reclassify s x). rewrite (store_set_same _ _ _ _ Hx).
    assert (x = e) as -> by congruence.
    split; [reflexivity|]. split; [apply reclassify_same|].
    apply reclassify_other.
  - exists e. rewrite store_set_other by exact Hab.
    split; [exact Hb|]. unfold same_but_type. tauto.
Qed.

Lemma framed_fold (s : text) (entities : list nat) :
  forall h, framed h (fold_left (reclassify_at s) entities h).
Proof.
  induction entities as [|a l IH]; intros h; cbn [fold_left].
  - apply framed_refl.
  - eapply framed_trans; [apply framed_step|apply IH].
Qed.

(** A dictionary the list does not refer to is not touched. *)
Lemma untouched (s : text) (entities : list nat) (b : nat) :
  ~ In b entities ->
  forall h, nth_error (fold_left (reclassify_at s) entities h) b
            = nth_error h b.
Proof.
  induction entities as [|a l IH]; intros Hb h; cbn [fold_left];
    [reflexivity|].
  rewrite IH by (intros H; apply Hb; now right).
  unfold reclassify_at. destruct (nth_error h a); [|reflexivity].
  apply store_set_other. intros ->. apply Hb. now left.
Qed.

(** With one reference to each dictionary, in order, the loop on the store
    is the map [post_process_dates]. *)
Lemma fold_prefix (s : text) (done todo : list entity) :
  fold_left (reclassify_at s)
    (seq (List.length done) (List.length todo)) (done ++ todo)
  = done ++ map (reclassify s) todo.
Proof.
  revert done. induction todo as [|e todo IH]; intros done;
    cbn [List.length seq fold_left map]; [reflexivity|].
  assert (reclassify_at s (done ++ e :: todo) (List.length done)
          = (done ++ [reclassify s e]) ++ todo) as ->.
  { unfold reclassify_at. rewrite nth_error_app2, Nat.sub_diag by lia.
    cbn [nth_error]. rewrite <- app_assoc. cbn [app].
    clear. induction done; cbn; [reflexivity|now f_equal]. }
  replace (S (List.length done)) with (List.length (done ++ [reclassify s e]))
    by (rewrite length_app; cbn; lia).
  rewrite IH, <- app_assoc. reflexivity.
Qed.

Lemma as_map (s : text) (entities : list entity) :
  fst (post_process_dates_store s entities (seq 0 (List.length entities)))
  = post_process_dates s entities.
Proof. exact (fold_prefix s [] entities). Qed.

End Store.

(** C6. Reclassification relabels in place and touches nothing but
    [entity_type]: the list returned is the list given; every dictionary
    of the store keeps its [start], [end], [score], [entity] and
    [context]; one whose type is neither DOB nor EXPIRY_NO, and one the
    list does not refer to, is left as it was.  The same holds entry by
    entry for the list of distinct dictionaries that [mask_pii] passes. *)
Theorem reclassification_frame (s : text) :
  (forall (h : store) (entities : list nat),
     let (h', entities') := post_process_dates_store s h entities in
     entities' = entities
     /\ List.length h' = List.length h
     /\ forall a e, nth_error h a = Some e ->
          exists e', nth_error h' a = Some e'
                     /\ same_but_type e e'
                     /\ (~ is_date e -> e' = e)
                     /\ (~ In a entities -> e' = e))
  /\ (forall entities : list entity,
        Forall2 (fun e e' => same_but_type e e' /\ (~ is_date e -> e' = e))
                entities (post_process_dates s entities)).
Proof.
  split.
  - intros h entities. cbn [post_process_dates_store].
    destruct (Store.framed_fold s entities h) as [Hlen Hfr].
    split; [reflexivity|]. split; [exact Hlen|].
    intros a e Ha. destruct (Hfr a e Ha) as [e' [Ha' [Hs Hn]]].
    exists e'. repeat split; try assumption; try apply Hs.
    intros Hnot. rewrite (Store.untouched s entities a Hnot) in Ha'.
    congruence.
  - intros entities. unfold post_process_dates.
    induction entities as [|e l IH]; cbn [map]; constructor; [|exact IH].
    split; [apply reclassify_same|apply reclassify_other].
Qed.

(** For a span inside the text the snippet is the lower-cased text from 30
    characters before [start] (or the beginning) to 30 characters after
    [end] (or the end of the text). *)
Lemma date_snippet_window (s : text) (e : entity) :
  0 <= start e <= end_ e -> end_ e <= len s ->
  let lo := Z.to_nat (Z.max 0 (start e - 30)) in
  let hi := Z.to_nat (Z.min (len s) (end_ e + 30)) in
  date_snippet s e = lower (firstn (hi - lo) (skipn lo s)).
Proof.
  intros H1 H2 lo hi. unfold date_snippet.
  rewrite slice_inside by lia. reflexivity.
Qed.

(** A text shorter than the radius lies in the window of each of its spans. *)
Lemma date_snippet_short (s : text) (e : entity) :
  len s <= 30 -> 0 <= start e <= end_ e -> end_ e <= len s ->
  date_snippet s e = lower s.
Proof.
  intros Hs H1 H2. unfold date_snippet.
  rewrite Z.max_l, Z.min_l by lia. now rewrite slice_all.
Qed.

Definition dob_example : text := str "DOB: 01-02-1990".
Definition expires_example : text := str "Expires: 01/02/25".

(** What the two date recognizers find in a text, as entities. *)
Definition date_candidates (s : text) : list entity :=
  map (of_result s) (dob_recognizer s ++ expiry_recognizer s).

(** C5. For a candidate typed DOB or EXPIRY_NO the reclassifier looks at
    the lower-cased window of 30 characters either side of the span: a DOB
    keyword in it forces DOB, whatever else the window holds; with no DOB
    keyword an expiry keyword forces EXPIRY_NO; with neither the
    candidate is returned as it was.  In ["DOB: 01-02-1990"] every such
    candidate becomes DOB, and so do the two the recognizers find there,
    of which the resolver keeps the date of birth; in
    ["Expires: 01/02/25"] every such candidate becomes EXPIRY_NO. *)
Theorem date_reclassification :
  (forall s e, is_date e ->
     let w := date_snippet s e in
     ((exists kw, In kw dob_keywords /\ occurs kw w) ->
      reclassify s e = set_entity_type e "DOB")
     /\ ((forall kw, In kw dob_keywords -> ~ occurs kw w) ->
         (exists kw, In kw expiry_keywords /\ occurs kw w) ->
         reclassify s e = set_entity_type e "EXPIRY_NO")
     /\ ((forall kw, In kw dob_keywords -> ~ occurs kw w) ->
         (forall kw, In kw expiry_keywords -> ~ occurs kw w) ->
         reclassify s e = e))
  /\ (forall s e, 0 <= start e <= end_ e -> end_ e <= len s ->
        date_snippet s e
        = lower (slice s (Z.max 0 (start e - 30))
                         (Z.min (len s) (end_ e + 30)))
        /\ date_snippet s e
           = lower (firstn (Z.to_nat (Z.min (len s) (end_ e + 30))
                            - Z.to_nat (Z.max 0 (start e - 30)))
                      (skipn (Z.to_nat (Z.max 0 (start e - 30))) s)))
  /\ (forall e, is_date e ->
        0 <= start e <= end_ e -> end_ e <= len dob_example ->
        entity_type (reclassify dob_example e) = "DOB"%string)
  /\ (forall e, is_date e ->
        0 <= start e <= end_ e -> end_ e <= len expires_example ->
        entity_type (reclassify expires_example e) = "EXPIRY_NO"%string)
  /\ map (fun e => (entity_type e, start e, end_ e))
       (post_process_dates dob_example (date_candidates dob_example))
     = [("DOB", 5, 15); ("DOB", 5, 10)]%string
  /\ map (fun e => (entity_type e, start e, end_ e))
       (resolve_overlapping_entities
          (post_process_dates dob_example (date_candidates dob_example)))
     = [("DOB", 5, 15)]%string
  /\ map (fun e => (entity_type e, start e, end_ e))
       (post_process_dates expires_example (date_candidates expires_example))
     = [("EXPIRY_NO", 9, 14)]%string.
Proof.
  split; [|split; [|split; [|split]]].
  - intros s e Hd w. rewrite (reclassify_date s e Hd). fold w.
    split; [|split].
    + intros H. apply any_in_occurs in H. now rewrite H.
    + intros H1 H2. apply any_in_none in H1. apply any_in_occurs in H2.
      now rewrite H1, H2.
    + intros H1 H2. apply any_in_none in H1, H2. now rewrite H1, H2.
  - intros s e H1 H2. split; [reflexivity|].
    now apply date_snippet_window.
  - intros e Hd H1 H2. rewrite (reclassify_date _ e Hd).
    rewrite date_snippet_short by (assumption || (vm_compute; discriminate)).
    reflexivity.
  - intros e Hd H1 H2. rewrite (reclassify_date _ e Hd).
    rewrite date_snippet_short by (assumption || (vm_compute; discriminate)).
    reflexivity.
  - repeat split; vm_compute; reflexivity.
Qed.

(** ** The matcher is sound

    [reach r st st']: the pattern [r] can take the matcher from [st] to
    [st'].  Every success of [rmatch] goes through such a step. *)

Module Regex.

Definition within (hi : option nat) (n : nat) : Prop :=
  match hi with
  | Some h => (n <= h)%nat
  | None => True
  end.

(** The state after the characters [w], with [t] left to read. *)
Definition after (st : mstate) (w t : text) : mstate :=
  mkState (last (map Some w) (m_prev st)) (m_pos st + List.length w) t
    (m_groups st).

Definition close_group (n : nat) (st st' : mstate) : mstate :=
  mkState (m_prev st') (m_pos st') (m_rest st')
    ((n, (m_pos st, m_pos st')) :: m_groups st').

Fixpoint reach (r : regex) (st st' : mstate) : Prop :=
  match r with
  | Eps => st' = st
  | Cls p =>
      exists c t, m_rest st = c :: t /\ p c = true /\ st' = after st [c] t
  | Seq r1 r2 => exists mid, reach r1 st mid /\ reach r2 mid st'
  | Alt r1 r2 => reach r1 st st' \/ reach r2 st st'
  | Rep p lo hi =>
      exists w t, m_rest st = w ++ t /\ forallb p w = true
                  /\ (lo <= List.length w)%nat /\ within hi (List.length w)
                  /\ st' = after st w t
  | WordB => at_boundary st = true /\ st' = st
  | Grp n r1 => exists st1, reach r1 st st1 /\ st' = close_group n st st1
  end.

Lemma last_cons {A : Type} (x d : A) (l : list A) :
  last (x :: l) d = last l x.
Proof.
  revert x d. induction l as [|y l IH]; intros x d; [reflexivity|].
  change (last (x :: y :: l) d) with (last (y :: l) d).
  now rewrite !IH.
Qed.

Lemma rep_match_sound (p : ascii -> bool) (rest : text) :
  forall lo hi prev pos gs k res,
    rep_match p lo hi prev pos rest gs k = Some res ->
    exists w t, rest = w ++ t /\ forallb p w = true
                /\ (lo <= List.length w)%nat /\ within hi (List.length w)
                /\ k (after (mkState prev pos rest gs) w t) = Some res.
Proof.
  assert (forall lo hi prev pos rest' gs
                 (k : mstate -> option mstate) (res : mstate),
             match lo with
             | O => k (mkState prev pos rest' gs)
             | S _ => None
             end = Some res ->
             exists w t, rest' = w ++ t /\ forallb p w = true
                /\ (lo <= List.length w)%nat /\ within hi (List.length w)
                /\ k (after (mkState prev pos rest' gs) w t) = Some res)
    as Hstop.
  { intros lo hi prev pos rest' gs k res H. destruct lo; [|discriminate].
    exists [], rest'. unfold after. cbn. rewrite Nat.add_0_r.
    repeat split; [lia|destruct hi; cbn; lia|exact H]. }
  induction rest as [|c t IH]; intros lo hi prev pos gs k res H;
    cbn [rep_match] in H; [now apply Hstop|].
  destruct (can_more hi && p c) eqn:Hc; [|now apply Hstop].
  apply andb_true_iff in Hc as [Hm Hp].
  destruct (rep_match p (pred lo) (option_map pred hi) (Some c) (S pos) t gs k)
    as [r|] eqn:Hin; [|now apply Hstop].
  apply IH in Hin as [w [t' [-> [Hw [Hlo [Hhi Hk]]]]]].
  exists (c :: w), t'. cbn [app forallb List.length]. rewrite Hp, Hw.
  split; [reflexivity|]. split; [reflexivity|].
  split; [destruct lo; cbn [pred] in Hlo; lia|]. split.
  - destruct hi as [[|h]|]; cbn in Hm, Hhi |- *;
      [discriminate|apply le_n_S; exact Hhi|exact I].
  - injection H as <-. rewrite <- Hk. f_equal. unfold after.
    cbn [m_prev m_pos m_groups map List.length]. rewrite last_cons.
    f_equal. lia.
Qed.

Lemma rmatch_sound (r : regex) :
  forall st k res,
    rmatch r st k = Some res ->
    exists st', reach r st st' /\ k st' = Some res.
Proof.
  induction r as [|p|r1 IH1 r2 IH2|r1 IH1 r2 IH2|p lo hi| |n r1 IH1];
    intros st k res H; cbn [rmatch reach] in *.
  - now exists st.
  - destruct (m_rest st) as [|c t] eqn:E; [discriminate|].
    destruct (p c) eqn:Hp; [|discriminate].
    exists (after st [c] t). split; [now exists c, t|].
    unfold after. cbn. now rewrite Nat.add_1_r.
  - apply IH1 in H as [mid [H1 H]]. apply IH2 in H as [st' [H2 H]].
    exists st'. split; [now exists mid|exact H].
  - destruct (rmatch r1 st k) as [x|] eqn:E.
    + injection H as <-. apply IH1 in E as [st' [H1 H]].
      exists st'. split; [now left|exact H].
    + apply IH2 in H as [st' [H2 H]]. exists st'. split; [now right|exact H].
  - apply rep_match_sound in H as [w [t [E [Hw [Hlo [Hhi Hk]]]]]].
    exists (after st w t). split; [now exists w, t|].
    destruct st; exact Hk.
  - destruct (at_boundary st) eqn:E; [|discriminate]. now exists st.
  - apply IH1 in H as [st1 [H1 H]].
    exists (close_group n st st1). split; [now exists st1|exact H].
Qed.

(** The characters a step reads; groups are only ever added in front. *)
Lemma reach_reads (r : regex) :
  forall st st',
    reach r st st' ->
    exists w, m_rest st = w ++ m_rest st'
              /\ m_pos st' = (m_pos st + List.length w)%nat
              /\ m_prev st' = last (map Some w) (m_prev st).
Proof.
  induction r as [|p|r1 IH1 r2 IH2|r1 IH1 r2 IH2|p lo hi| |n r1 IH1];
    intros st st' H; cbn [reach] in H.
  - subst. exists []. cbn. now rewrite Nat.add_0_r.
  - destruct H as [c [t [E [_ ->]]]]. now exists [c].
  - destruct H as [mid [H1 H2]].
    apply IH1 in H1 as [w1 [E1 [P1 L1]]].
    apply IH2 in H2 as [w2 [E2 [P2 L2]]].
    exists (w1 ++ w2). rewrite E1, E2, P2, P1, L2, L1, length_app, map_app.
    repeat split; [now rewrite app_assoc|lia|].
    clear. generalize (m_prev st). induction (map Some w1) as [|x l IH];
      intros d; [reflexivity|].
    cbn [app]. now rewrite !last_cons.
  - destruct H as [H|H]; [now apply IH1|now apply IH2].
  - destruct H as [w [t [E [_ [_ [_ ->]]]]]]. now exists w.
  - destruct H as [_ ->]. exists []. cbn. now rewrite Nat.add_0_r.
  - destruct H as [st1 [H ->]]. now apply IH1 in H.
Qed.

(** A lower bound on the number of characters a pattern reads. *)
Fixpoint min_len (r : regex) : nat :=
  match r with
  | Eps | WordB => 0
  | Cls _ => 1
  | Seq r1 r2 => min_len r1 + min_len r2
  | Alt r1 r2 => Nat.min (min_len r1) (min_len r2)
  | Rep _ lo _ => lo
  | Grp _ r1 => min_len r1
  end.

Lemma reach_min_len (r : regex) :
  forall st st', reach r st st' -> (m_pos st + min_len r <= m_pos st')%nat.
Proof.
  induction r as [|p|r1 IH1 r2 IH2|r1 IH1 r2 IH2|p lo hi| |n r1 IH1];
    intros st st' H; cbn [reach min_len] in *.
  - subst. lia.
  - destruct H as [c [t [_ [_ ->]]]]. cbn. lia.
  - destruct H as [mid [H1 H2]]. apply IH1 in H1. apply IH2 in H2. lia.
  - destruct H as [H|H]; [apply IH1 in H|apply IH2 in H]; lia.
  - destruct H as [w [t [_ [_ [Hlo [_ ->]]]]]]. cbn. lia.
  - destruct H as [_ ->]. lia.
  - destruct H as [st1 [H ->]]. apply IH1 in H. cbn. lia.
Qed.

(** The words of a pattern, leaving positions and groups aside. *)
Fixpoint denotes (r : regex) (w : text) : Prop :=
  match r with
  | Eps | WordB => w = []
  | Cls p => exists c, w = [c] /\ p c = true
  | Seq r1 r2 =>
      exists w1 w2, w = w1 ++ w2 /\ denotes r1 w1 /\ denotes r2 w2
  | Alt r1 r2 => denotes r1 w \/ denotes r2 w
  | Rep p lo hi =>
      forallb p w = true /\ (lo <= List.length w)%nat
      /\ within hi (List.length w)
  | Grp _ r1 => denotes r1 w
  end.

Lemma last_app {A : Type} (l1 l2 : list A) (d : A) :
  last (l1 ++ l2) d = last l2 (last l1 d).
Proof.
  revert d. induction l1 as [|x l IH]; intros d; [reflexivity|].
  cbn [app]. now rewrite !last_cons.
Qed.

Lemma reach_denotes (r : regex) :
  forall st st',
    reach r st st' ->
    exists w, denotes r w
              /\ m_rest st = w ++ m_rest st'
              /\ m_pos st' = (m_pos st + List.length w)%nat
              /\ m_prev st' = last (map Some w) (m_prev st).
Proof.
  induction r as [|p|r1 IH1 r2 IH2|r1 IH1 r2 IH2|p lo hi| |n r1 IH1];
    intros st st' H; cbn [reach denotes] in *.
  - subst. exists []. cbn. now rewrite Nat.add_0_r.
  - destruct H as [c [t [E [Hp ->]]]]. exists [c].
    split; [now exists c|now split].
  - destruct H as [mid [H1 H2]].
    apply IH1 in H1 as [w1 [D1 [E1 [P1 L1]]]].
    apply IH2 in H2 as [w2 [D2 [E2 [P2 L2]]]].
    exists (w1 ++ w2). split; [now exists w1, w2|].
    rewrite E1, E2, P2, P1, L2, L1, length_app, map_app, last_app.
    repeat split; [now rewrite app_assoc|lia].
  - destruct H as [H|H]; [apply IH1 in H|apply IH2 in H];
      destruct H as [w [D H]]; exists w; tauto.
  - destruct H as [w [t [E [Hw [Hlo [Hhi ->]]]]]]. now exists w.
  - destruct H as [_ ->]. exists []. cbn. now rewrite Nat.add_0_r.
  - destruct H as [st1 [H ->]]. now apply IH1 in H.
Qed.


End Regex.

(** ** Matches found by a scan *)

(** The character before the offset [length pre]. *)
Definition char_before (pre : text) : option ascii := last (map Some pre) None.

Lemma char_before_snoc (pre : text) (c : ascii) :
  char_before (pre ++ [c]) = Some c.
Proof.
  unfold char_before. rewrite map_app. cbn [map].
  generalize (@None ascii). induction (map Some pre) as [|x l IH]; intros d.
  - reflexivity.
  - cbn [app]. rewrite Regex.last_cons. apply IH.
Qed.

Lemma scan_In (r : regex) (rest : text) :
  forall pre skip m,
    In m (scan r (char_before pre) (List.length pre) rest skip) ->
    exists pre' rest',
      pre ++ rest = pre' ++ rest'
      /\ match_at r (char_before pre') (List.length pre') rest' = Some m.
Proof.
  induction rest as [|c t IH]; intros pre skip m H.
  - destruct skip; cbn [scan] in H; [|destruct H].
    destruct (match_at r _ _ []) as [m'|] eqn:E; [|destruct H].
    destruct H as [<-|[]]. now exists pre, [].
  - assert (forall k, In m (scan r (Some c) (S (List.length pre)) t k) ->
              exists pre' rest',
                pre ++ c :: t = pre' ++ rest'
                /\ match_at r (char_before pre') (List.length pre') rest'
                   = Some m) as Hnext.
    { intros k Hk.
      rewrite <- (char_before_snoc pre c) in Hk.
      replace (S (List.length pre)) with (List.length (pre ++ [c])) in Hk
        by (rewrite length_app; cbn; lia).
      apply IH in Hk as [pre' [rest' [E Hm]]].
      exists pre', rest'. split; [|exact Hm].
      now rewrite <- E, <- app_assoc. }
    destruct skip; cbn [scan] in H; [|now apply Hnext in H].
    destruct (match_at r _ _ (c :: t)) as [m'|] eqn:E.
    + destruct H as [<-|H]; [now exists pre, (c :: t)|now apply Hnext in H].
    + now apply Hnext in H.
Qed.

Lemma match_at_reach (r : regex) (prev : option ascii) (pos : nat)
    (rest : text) (m : rx_match) :
  match_at r prev pos rest = Some m ->
  exists st', Regex.reach r (mkState prev pos rest []) st'
              /\ m = mkMatch pos (m_pos st') (m_groups st').
Proof.
  unfold match_at. intros H.
  destruct (rmatch r _ Some) as [res|] eqn:E; [|discriminate].
  apply Regex.rmatch_sound in E as [st' [Hr [= ->]]].
  exists res. split; [exact Hr|congruence].
Qed.

(** Every match of [re.finditer(r, s)] is a success of the pattern at some
    offset of [s]. *)
Lemma finditer_reach (r : regex) (s : text) (m : rx_match) :
  In m (finditer r s) ->
  exists pre rest st',
    s = pre ++ rest
    /\ Regex.reach r (mkState (char_before pre) (List.length pre) rest []) st'
    /\ m = mkMatch (List.length pre) (m_pos st') (m_groups st').
Proof.
  intros H. unfold finditer in H.
  apply (scan_In r s [] O m) in H as [pre [rest [E Hm]]].
  apply match_at_reach in Hm as [st' [Hr ->]].
  now exists pre, rest, st'.
Qed.

(** ** The keyword-anchored pass *)

Definition all_digits (w : text) : Prop := forallb is_digit w = true.

(** The shape of a match of [(?i){keyword}[\s:,\-]*(\d{3,4})]: group 1 is
    a run [w] of three or four digits at the very end of the match, after
    whatever the keyword and the separators took. *)
Lemma cvv_match_shape (keyword : regex) (s : text) (m : rx_match) :
  In m (finditer (cvv_pattern keyword) s) ->
  exists a w b,
    s = a ++ w ++ b
    /\ all_digits w /\ (3 <= List.length w <= 4)%nat
    /\ find_group 1 (mt_groups m)
       = Some (List.length a, (List.length a + List.length w)%nat)
    /\ mt_end m = (List.length a + List.length w)%nat
    /\ (mt_start m + Regex.min_len keyword <= List.length a)%nat.
Proof.
  intros H. apply finditer_reach in H as [pre [rest [st' [-> [Hr ->]]]]].
  cbn [cvv_pattern seq_of Regex.reach] in Hr.
  destruct Hr as [m1 [Hk [m2 [Hsep [st1 [Hdig ->]]]]]].
  pose proof (Regex.reach_min_len _ _ _ Hk) as Hmin.
  apply Regex.reach_reads in Hk as [wk [Ek [Pk _]]].
  apply (Regex.reach_reads (star is_separator)) in Hsep as [ws [Es [Ps _]]].
  destruct Hdig as [w [t [Ew [Hw [Hlo [Hhi ->]]]]]].
  cbn [m_rest m_pos m_groups] in *.
  exists (pre ++ wk ++ ws), w, t.
  rewrite Ek, Es, Ew, !length_app, <- !app_assoc.
  unfold Regex.close_group, Regex.after, all_digits.
  cbn [mt_groups mt_end mt_start m_pos m_groups find_group Nat.eqb].
  cbn in Hhi.
  repeat split; try assumption; try lia.
  do 2 f_equal; lia.
Qed.

(** The window of lines 171-173 around a match. *)
Definition keyword_window (s : text) (m : rx_match) : text :=
  lower (slice s (Z.max 0 (Z.of_nat (mt_start m) - 20))
                 (Z.min (len s) (Z.of_nat (mt_end m) + 20))).

Lemma keyword_hit_In (s : text) (m : rx_match) (e : entity) :
  In e (keyword_hit s m) ->
  any_in false_positive_keywords (keyword_window s m) = false
  /\ e = mkEntity "CVV_NO" (group_start m 1) (group_end m 1) (group s m 1)
           keyword_score (Some (strip (keyword_window s m))).
Proof.
  unfold keyword_hit. fold (keyword_window s m).
  destruct (len_3_or_4 _); [|intros []].
  destruct (any_in _ _); cbn [negb]; [intros []|].
  intros [<-|[]]. now split.
Qed.

Lemma keywords_min_len :
  Forall (fun keyword => (3 <= Regex.min_len keyword)%nat) cvv_keywords.
Proof. repeat constructor; vm_compute; lia. Qed.

(** The second pass only appends, and what it appends scores 0.7. *)
Lemma proximity_fold_app (s : text) (ms : list rx_match) :
  forall acc, exists later,
    fold_left (proximity_step s) ms acc = acc ++ later
    /\ Forall (fun x => entity_type x = "CVV_NO"%string
                        /\ score x = proximity_score) later.
Proof.
  induction ms as [|m ms IH]; intros acc; cbn [fold_left].
  - exists []. now rewrite app_nil_r.
  - destruct (IH (proximity_step s acc m)) as [later [E HF]]. rewrite E.
    unfold proximity_step.
    destruct (_ && len_3_or_4 _); [|now exists later].
    destruct (negb _); [|now exists later].
    eexists (_ :: later). rewrite <- app_assoc. split; [reflexivity|].
    constructor; [now split|exact HF].
Qed.

(** C7. A candidate of the keyword-anchored pass has type CVV_NO and
    confidence 0.9; its span is a run of three or four digits of the text,
    which is also its [entity]; the span starts after the keyword and ends
    where the match ends; and no false-positive word occurs in the
    lower-cased window of 20 characters either side of the match.  The
    detector returns these candidates first.  On ["CVV: 123"] it returns
    the single candidate ["123"] at [5, 8). *)
Theorem keyword_pass_candidates (s : text) (e : entity) :
  In e (keyword_pass s) ->
  (entity_type e = "CVV_NO"%string
   /\ score e = 0.9%float
   /\ exists keyword m a w b,
        In keyword cvv_keywords
        /\ In m (finditer (cvv_pattern keyword) s)
        /\ s = a ++ w ++ b
        /\ all_digits w /\ 3 <= len w <= 4
        /\ start e = len a /\ end_ e = len a + len w /\ entity_text e = w
        /\ Z.of_nat (mt_start m) + 3 <= start e
        /\ Z.of_nat (mt_end m) = end_ e
        /\ forall fp, In fp false_positive_keywords ->
                      ~ occurs fp (keyword_window s m))
  /\ (exists later, detect_cvv_from_context s = keyword_pass s ++ later)
  /\ detect_cvv_from_context (str "CVV: 123")
     = [mkEntity "CVV_NO" 5 8 (str "123") 0.9%float (Some (str "cvv: 123"))].
Proof.
  intros H. split; [|split].
  - unfold keyword_pass in H.
    apply in_flat_map in H as [keyword [Hkw H]].
    apply in_flat_map in H as [m [Hm H]].
    apply keyword_hit_In in H as [Hfp ->].
    destruct (cvv_match_shape keyword s m Hm)
      as [a [w [b [Es [Hw [Hlen [Hg [Hend Hst]]]]]]]].
    pose proof (proj1 (Forall_forall _ _) keywords_min_len keyword Hkw) as H3.
    cbn beta in H3.
    split; [reflexivity|]. split; [reflexivity|].
    exists keyword, m, a, w, b.
    unfold group, group_start, group_end. rewrite Hg.
    cbn [entity_type start end_ entity_text score]. unfold len.
    repeat split; try assumption; try lia.
    + rewrite Es at 1. rewrite Nat2Z.inj_add. apply slice_app.
    + now apply any_in_none.
  - destruct (proximity_fold_app s (finditer digit_pattern s) (keyword_pass s))
      as [later [E _]].
    now exists later.
  - vm_compute. reflexivity.
Qed.

Lemma keyword_pass_candidates_witness :
  let s := str "CVV: 123" in
  let e := mkEntity "CVV_NO" 5 8 (str "123") 0.9%float (Some (str "cvv: 123")) in
  In e (keyword_pass s)
  /\ entity_type e = "CVV_NO"%string /\ score e = 0.9%float.
Proof.
  cbv zeta.
  assert (In (mkEntity "CVV_NO" 5 8 (str "123") 0.9%float
                (Some (str "cvv: 123")))
             (keyword_pass (str "CVV: 123"))) as H
    by (vm_compute; left; reflexivity).
  split; [exact H|].
  destruct (keyword_pass_candidates _ _ H) as [[Hty [Hsc _]] _].
  split; [exact Hty|exact Hsc].
Defined.

(** ** The records of [mask_pii] *)

(** The [entity] of a candidate is the text at its span. *)
Definition faithful (s : text) (e : entity) : Prop :=
  entity_text e = slice s (start e) (end_ e).

Lemma keyword_pass_faithful (s : text) : Forall (faithful s) (keyword_pass s).
Proof.
  apply Forall_forall. intros e H. unfold keyword_pass in H.
  apply in_flat_map in H as [keyword [_ H]].
  apply in_flat_map in H as [m [_ H]].
  apply keyword_hit_In in H as [_ ->]. reflexivity.
Qed.

Lemma proximity_step_faithful (s : text) (acc : list entity) (m : rx_match) :
  Forall (faithful s) acc -> Forall (faithful s) (proximity_step s acc m).
Proof.
  intros H. unfold proximity_step.
  destruct (_ && len_3_or_4 _); [|exact H].
  destruct (negb _); [|exact H].
  apply Forall_app. split; [exact H|]. now repeat constructor.
Qed.

Lemma detect_cvv_faithful (s : text) :
  Forall (faithful s) (detect_cvv_from_context s).
Proof.
  unfold detect_cvv_from_context.
  generalize (keyword_pass_faithful s).
  generalize (keyword_pass s) as acc.
  induction (finditer digit_pattern s) as [|m ms IH]; intros acc H;
    cbn [fold_left]; [exact H|].
  now apply IH, proximity_step_faithful.
Qed.

Lemma resolved_faithful (s : text) (analyzer_results : list recognizer_result) :
  Forall (faithful s) (resolved_entities_of s analyzer_results).
Proof.
  unfold resolved_entities_of. apply Forall_forall. intros e He.
  apply Resolver.resolve_incl in He. unfold post_process_dates in He.
  apply in_map_iff in He as [e0 [<- H0]].
  assert (faithful s e0) as Hf.
  { apply in_app_or in H0 as [H0|H0].
    - apply in_map_iff in H0 as [r [<- _]]. reflexivity.
    - exact (proj1 (Forall_forall _ _) (detect_cvv_faithful s) e0 H0). }
  destruct (reclassify_same s e0) as [E1 [E2 [_ [E4 _]]]].
  unfold faithful in *. now rewrite E1, E2, E4.
Qed.

(** C3. Every record that [mask_pii] builds holds, as its [entity], the
    slice of the cleaned text at the record's [position], and the records
    are in ascending order of the start of their position.  This holds for
    whatever the analyzer reports, and for the records of every document
    [mask_pii] returns. *)
Theorem masked_records_faithful (s : text) :
  let cleaned_text := clean_text s in
  let good (records : list masked_entity) : Prop :=
    Forall (fun r => entity_value r
                     = slice cleaned_text (fst (position r)) (snd (position r)))
           records
    /\ StronglySorted (fun a b => fst (position a) <= fst (position b))
         records in
  (forall analyzer_results,
     good (masked_entities_of
             (resolved_entities_of cleaned_text analyzer_results)))
  /\ (forall analyze anonymize masked_email records,
        mask_pii analyze anonymize s = Some (masked_email, records) ->
        good records).
Proof.
  intros cleaned_text good.
  assert (forall analyzer_results,
             good (masked_entities_of
                     (resolved_entities_of cleaned_text analyzer_results)))
    as Hgood.
  { intros results. unfold good, masked_entities_of. split.
    - eapply Permutation_Forall; [apply sort_by_perm|].
      apply Forall_map.
      eapply Forall_impl; [|apply resolved_faithful].
      intros e He. exact He.
    - apply (sort_by_sorted (fun x : masked_entity => fst (position x))). }
  split; [exact Hgood|].
  intros analyze anonymize masked_email records H. unfold mask_pii in H.
  fold cleaned_text in H.
  destruct (analyze cleaned_text) as [results|]; [|discriminate].
  destruct (anonymize _ _); [|discriminate].
  injection H as _ <-. apply Hgood.
Qed.

(** C4, at the input where it fails.  The two keyword patterns
    [security\s+code] and [card\s+security\s+code]
    end on the same digits of ["card security code 123"], and the first
    pass emits the span [19, 22) once for each; the second pass then finds
    the span taken and adds nothing. *)
Theorem keyword_pass_repeats_a_span :
  let s := str "card security code 123" in
  let e := mkEntity "CVV_NO" 19 22 (str "123") 0.9%float (Some s) in
  keyword_pass s = [e; e]
  /\ detect_cvv_from_context s = [e; e].
Proof. split; vm_compute; reflexivity. Qed.

(** ** The expiry-date recognizer *)

(** A month 01..12. *)
Definition month_ok (m1 m2 : ascii) : bool :=
  (is_char "0" m1 && between "1" "9" m2)
  || (is_char "1" m1 && between "0" "2" m2).

(** What the pattern takes: a month, [/] or [-], and a year field of one,
    two or four digits. *)
Definition expiry_shape (w : text) : bool :=
  match w with
  | m1 :: m2 :: sep :: year =>
      month_ok m1 m2 && one_of (str "/-") sep
      && forallb (between "0" "9") year
      && ((List.length year =? 1) || (List.length year =? 2)
          || (List.length year =? 4))%nat
  | _ => false
  end.

(** The three forms MM/YY, MM/YYYY and MM-YY. *)
Definition claimed_shape (w : text) : bool :=
  match w with
  | m1 :: m2 :: sep :: year =>
      month_ok m1 m2 && forallb (between "0" "9") year
      && ((is_char "/" sep
           && ((List.length year =? 2) || (List.length year =? 4))%nat)
          || (is_char "-" sep && (List.length year =? 2)%nat))
  | _ => false
  end.

(** The recognizer reports the span [i, j) of [s]. *)
Definition yields (s : text) (i j : Z) : Prop :=
  exists r, In r (expiry_recognizer s) /\ rr_start r = i /\ rr_end r = j.

Lemma digit_is_word (c : ascii) : between "0" "9" c = true -> is_word c = true.
Proof.
  unfold is_word. intros H.
  change (between "0" "9" c) with (in_range 48 57 c) in H. now rewrite H.
Qed.

Lemma is_char_eq (a c : ascii) : is_char a c = true -> c = a.
Proof. unfold is_char. intros H. symmetry. now apply Ascii.eqb_eq. Qed.

Lemma exactly (p : ascii -> bool) (n : nat) (w : text) :
  forallb p w = true /\ (n <= List.length w)%nat
  /\ Regex.within (Some n) (List.length w) ->
  forallb p w = true /\ List.length w = n.
Proof. cbn. intros [H1 [H2 H3]]. split; [exact H1|lia]. Qed.

(** The words of the part of the pattern between the two [\b]. *)
Lemma expiry_words (w : text) :
  Regex.denotes
    (seq_of
       [Grp 1 (Alt (Seq (Cls (is_char "0")) (Cls (between "1" "9")))
                   (Seq (Cls (is_char "1")) (Cls (between "0" "2"))));
        Cls (one_of (str "/-"));
        Grp 2 (Alt (Seq (opt (is_char "0")) (Cls (between "0" "9")))
              (Alt (times (between "0" "9") 2 2)
                   (times (between "0" "9") 4 4)))]) w ->
  expiry_shape w = true
  /\ exists m1 rest, w = m1 :: rest /\ is_word m1 = true
                     /\ is_word_opt (last (map Some w) None) = true.
Proof.
  cbn [seq_of Regex.denotes]. unfold opt, times.
  intros [wm [w' [-> [Hm [ws [wy [-> [[sep [-> Hsep]] Hy]]]]]]]].
  assert (exists m1 m2, wm = [m1; m2] /\ month_ok m1 m2 = true
                        /\ is_word m1 = true) as [m1 [m2 [-> [Hmo Hw1]]]].
  { unfold month_ok.
    destruct Hm as [Hm|Hm];
      destruct Hm as [x [y [-> [[m1 [-> H1]] [m2 [-> H2]]]]]];
      exists m1, m2; rewrite H1, H2; cbn [andb orb app];
      (split; [reflexivity|]);
      (split; [now rewrite ?orb_true_r|]);
      apply is_char_eq in H1; now subst. }
  assert (forallb (between "0" "9") wy = true
          /\ (List.length wy = 1 \/ List.length wy = 2 \/ List.length wy = 4)%nat)
    as [Hd Hlen].
  { destruct Hy as [[x [y [-> [[Hx [_ Hx1]] [c [-> Hc]]]]]]|[Hy|Hy]].
    - cbn in Hx1. rewrite forallb_app, length_app. cbn [forallb List.length].
      rewrite Hc.
      split; [|destruct x as [|? [|]]; cbn in *; lia].
      apply andb_true_iff. split; [|reflexivity].
      apply forallb_forall. intros d Hin.
      eapply forallb_forall in Hx; [|exact Hin].
      apply is_char_eq in Hx. now subst.
    - apply exactly in Hy as [? ?]. split; [assumption|lia].
    - apply exactly in Hy as [? ?]. split; [assumption|lia]. }
  split.
  - cbn [app expiry_shape]. rewrite Hmo, Hsep, Hd. cbn [andb].
    destruct Hlen as [->|[->| ->]]; reflexivity.
  - exists m1, (m2 :: sep :: wy). split; [reflexivity|]. split; [exact Hw1|].
    destruct (@exists_last _ wy) as [l [y ->]];
      [intros ->; cbn in Hlen; lia|].
    change ([m1; m2] ++ [sep] ++ l ++ [y]) with ((m1 :: m2 :: sep :: l) ++ [y]).
    rewrite map_app, Regex.last_app. cbn [map last is_word_opt].
    apply digit_is_word. rewrite forallb_app in Hd.
    apply andb_true_iff in Hd as [_ Hd]. cbn in Hd.
    now rewrite andb_true_r in Hd.
Qed.

(** A match of the expiry pattern covers a word of that shape, with no
    word character just before it or just after it. *)
Lemma expiry_match_shape (s : text) (m : rx_match) :
  In m (finditer expiry_pattern s) ->
  exists a w b,
    s = a ++ w ++ b
    /\ mt_start m = List.length a
    /\ mt_end m = (List.length a + List.length w)%nat
    /\ expiry_shape w = true
    /\ is_word_opt (char_before a) = false
    /\ is_word_opt (hd_error b) = false.
Proof.
  intros H. apply finditer_reach in H as [pre [rest [st' [-> [Hr ->]]]]].
  pose proof (Regex.reach_denotes _ _ _ Hr) as [w [Hd [Er [Hp Hl]]]].
  cbn [m_rest m_pos m_prev] in Er, Hp, Hl.
  assert (at_boundary (mkState (char_before pre) (List.length pre) rest [])
          = true /\ at_boundary st' = true) as [Hb1 Hb2].
  { cbn [expiry_pattern seq_of Regex.reach] in Hr.
    destruct Hr as [m0 [[Hb ->] [m1 [_ [m2 [_ [m3 [_ [Hb' ->]]]]]]]]].
    now split. }
  assert (expiry_shape w = true
          /\ exists m1 rest', w = m1 :: rest' /\ is_word m1 = true
               /\ is_word_opt (last (map Some w) None) = true)
    as [Hshape [m1 [rest' [Ew [Hw1 Hlast]]]]].
  { apply expiry_words.
    cbn [expiry_pattern seq_of Regex.denotes] in Hd |- *.
    destruct Hd as [w0 [w1 [-> [-> Hd]]]].
    destruct Hd as [wm [w2 [-> [Hm Hd]]]].
    destruct Hd as [wsep [w3 [-> [Hs Hd]]]].
    destruct Hd as [wy [w4 [-> [Hy ->]]]].
    cbn [app]. rewrite app_nil_r.
    exists wm, (wsep ++ wy). split; [reflexivity|]. split; [exact Hm|].
    now exists wsep, wy. }
  exists pre, w, (m_rest st'). cbn [mt_start mt_end].
  split; [now rewrite Er|]. split; [reflexivity|]. split; [exact Hp|].
  split; [exact Hshape|].
  unfold at_boundary in Hb1, Hb2. cbn [m_prev m_rest] in Hb1.
  rewrite Er, Ew in Hb1. cbn [app hd_error is_word_opt] in Hb1.
  rewrite Hw1 in Hb1.
  rewrite Hl, Ew in Hb2. rewrite Ew in Hlast. cbn [map] in Hb2, Hlast.
  rewrite Regex.last_cons in Hb2, Hlast. rewrite Hlast in Hb2.
  split.
  - now destruct (is_word_opt (char_before pre)).
  - now destruct (is_word_opt (hd_error (m_rest st'))).
Qed.

(** *** A text that is exactly such a word is matched whole *)

Ltac use_facts :=
  repeat match goal with
         | H : ?p ?c = _ |- context [?p ?c] => rewrite H
         end.

(** Runs the matcher on a word whose characters are known by their classes. *)
Ltac run_matcher :=
  repeat (progress (lazy -[between is_word is_char one_of]; use_facts)).

Lemma in_range_mono (lo hi lo' hi' : N) (c : ascii) :
  (lo' <= lo)%N -> (hi <= hi')%N ->
  in_range lo hi c = true -> in_range lo' hi' c = true.
Proof.
  unfold in_range. rewrite !andb_true_iff, !N.leb_le. lia.
Qed.

Lemma month_facts (m1 m2 : ascii) :
  month_ok m1 m2 = true ->
  is_word m1 = true /\ is_word m2 = true
  /\ ((is_char "0" m1 = true /\ between "1" "9" m2 = true)
      \/ (is_char "0" m1 = false /\ is_char "1" m1 = true
          /\ between "0" "2" m2 = true)).
Proof.
  unfold month_ok. intros H.
  assert (is_word m2 = true) as Hw2.
  { apply digit_is_word. apply orb_true_iff in H as [H|H];
      apply andb_true_iff in H as [_ H];
      (eapply in_range_mono; [| |exact H]); vm_compute; discriminate. }
  destruct (is_char "0" m1) eqn:H0.
  - apply is_char_eq in H0 as E. subst m1. cbn in H.
    rewrite orb_false_r in H. repeat split; auto.
  - cbn [andb orb] in H. apply andb_true_iff in H as [H1 H2].
    apply is_char_eq in H1 as E. subst m1. repeat split; auto.
Qed.

Lemma not_word_not_digit (c : ascii) :
  is_word c = false -> between "0" "9" c = false.
Proof.
  unfold is_word. intros H.
  change (between "0" "9" c) with (in_range 48 57 c).
  destruct (in_range 48 57 c); [discriminate H|reflexivity].
Qed.

Lemma not_word_not_zero (c : ascii) :
  is_word c = false -> is_char "0" c = false.
Proof.
  intros H. destruct (is_char "0" c) eqn:E; [|reflexivity].
  apply is_char_eq in E. subst c. discriminate H.
Qed.

(** Anywhere in a text, a word of the shape with no word character on
    either side of it is matched by the pattern, and matched whole. *)
Lemma expiry_match_at (prev : option ascii) (pos : nat) (w b : text) :
  expiry_shape w = true ->
  is_word_opt prev = false ->
  is_word_opt (hd_error b) = false ->
  exists gs,
    match_at expiry_pattern prev pos (w ++ b)
    = Some (mkMatch pos (List.length w + pos) gs).
Proof.
  destruct w as [|m1 [|m2 [|sep year]]]; try discriminate.
  cbn [expiry_shape]. intros H Hp Hb.
  apply andb_true_iff in H as [H Hlen].
  apply andb_true_iff in H as [H Hy].
  apply andb_true_iff in H as [Hm Hsep].
  apply month_facts in Hm as [Hw1 [Hw2 Hm]].
  lazy -[one_of] in Hsep.
  assert (Forall (fun c => between "0" "9" c = true /\ is_word c = true) year)
    as Hd.
  { apply Forall_forall. intros c Hc.
    eapply forallb_forall in Hy; [|exact Hc].
    split; [exact Hy|now apply digit_is_word]. }
  clear Hy.
  destruct prev as [p|]; cbn [is_word_opt] in Hp;
  (destruct b as [|c b];
   [|cbn [hd_error is_word_opt] in Hb;
     pose proof (not_word_not_digit c Hb) as Hc1;
     pose proof (not_word_not_zero c Hb) as Hc2]);
  (destruct year as [|y1 [|y2 [|y3 [|y4 [|y5 year]]]]];
    cbn in Hlen; try discriminate Hlen; clear Hlen;
    repeat match goal with
           | H : Forall _ (_ :: _) |- _ =>
               let H1 := fresh in let H2 := fresh in
               inversion H as [|? ? [H1 H2] ?]; subst; clear H
           end;
    destruct (is_char "0" y1) eqn:Hz;
    destruct Hm as [[Hm1 Hm2]|[Hm0 [Hm1 Hm2]]];
    run_matcher; eexists; reflexivity).
Qed.

Lemma expiry_match_whole (w : text) :
  expiry_shape w = true ->
  exists gs,
    match_at expiry_pattern None 0 w = Some (mkMatch 0 (List.length w) gs).
Proof.
  intros H.
  destruct (expiry_match_at None 0 w [] H eq_refl eq_refl) as [gs E].
  exists gs. now rewrite app_nil_r, Nat.add_0_r in E.
Qed.

Lemma scan_skip (r : regex) (rest : text) :
  forall prev pos,
    scan r prev pos rest (List.length rest)
    = scan r (last (map Some rest) prev) (pos + List.length rest) [] 0.
Proof.
  induction rest as [|c t IH]; intros prev pos; cbn [List.length map].
  - cbn [last]. now rewrite Nat.add_0_r.
  - change (scan r prev pos (c :: t) (S (List.length t)))
      with (scan r (Some c) (S pos) t (List.length t)).
    rewrite IH, Regex.last_cons. f_equal. lia.
Qed.

Lemma expiry_no_match_at_end (prev : option ascii) (pos : nat) :
  match_at expiry_pattern prev pos [] = None.
Proof.
  unfold match_at, expiry_pattern. cbn [seq_of rmatch].
  now destruct (at_boundary _).
Qed.

Lemma expiry_finditer_whole (w : text) :
  expiry_shape w = true ->
  exists gs, finditer expiry_pattern w = [mkMatch 0 (List.length w) gs].
Proof.
  intros H. destruct (expiry_match_whole w H) as [gs Hm]. exists gs.
  destruct w as [|c t]; [discriminate|].
  unfold finditer. cbn [scan]. rewrite Hm. cbn [mt_end List.length].
  rewrite Nat.sub_0_r. cbn [pred]. rewrite scan_skip. cbn [scan].
  now rewrite expiry_no_match_at_end.
Qed.

(** *** Which offsets the scan reaches *)

Lemma match_at_start (r : regex) (prev : option ascii) (pos : nat)
    (rest : text) (m : rx_match) :
  match_at r prev pos rest = Some m -> mt_start m = pos.
Proof.
  unfold match_at. destruct (rmatch r _ Some); [|discriminate].
  now intros [= <-].
Qed.

(** The scan reaches every offset that no earlier match runs over: a match
    of the pattern at such an offset is one of the matches found. *)
Lemma scan_finds (r : regex) (x : text) :
  forall pre skip rest m,
    (skip <= List.length x)%nat ->
    match_at r (char_before (pre ++ x)) (List.length pre + List.length x) rest
    = Some m ->
    In m (scan r (char_before pre) (List.length pre) (x ++ rest) skip)
    \/ exists m',
         In m' (scan r (char_before pre) (List.length pre) (x ++ rest) skip)
         /\ (mt_start m' < List.length pre + List.length x < mt_end m')%nat.
Proof.
  induction x as [|c x IH]; intros pre skip rest m Hs Hm.
  - cbn [List.length] in Hs. assert (skip = 0%nat) as -> by lia.
    rewrite app_nil_r, Nat.add_0_r in Hm. cbn [app].
    left. destruct rest as [|d t]; cbn [scan]; rewrite Hm; now left.
  - assert (forall k, (k <= List.length x)%nat ->
              In m (scan r (Some c) (S (List.length pre)) (x ++ rest) k)
              \/ exists m',
                   In m' (scan r (Some c) (S (List.length pre)) (x ++ rest) k)
                   /\ (mt_start m' < List.length pre + List.length (c :: x)
                       < mt_end m')%nat) as Hnext.
    { intros k Hk.
      specialize (IH (pre ++ [c]) k rest m Hk).
      rewrite <- app_assoc, length_app, char_before_snoc in IH.
      cbn [app List.length] in IH |- *.
      replace (List.length pre + 1 + List.length x)%nat
        with (List.length pre + S (List.length x))%nat in IH by lia.
      replace (List.length pre + 1)%nat with (S (List.length pre)) in IH
        by lia.
      exact (IH Hm). }
    cbn [app]. destruct skip as [|k]; cbn [scan].
    + destruct (match_at r (char_before pre) (List.length pre)
                  (c :: x ++ rest)) as [m0|] eqn:E0.
      * destruct (Nat.le_gt_cases (pred (mt_end m0 - List.length pre))
                    (List.length x)) as [Hle|Hgt].
        -- destruct (Hnext _ Hle) as [H|[m' [H1 H2]]].
           ++ left. now right.
           ++ right. exists m'. split; [now right|exact H2].
        -- right. exists m0. split; [now left|].
           apply match_at_start in E0. cbn [List.length]. lia.
      * apply Hnext. lia.
    + cbn [List.length] in Hs. apply Hnext. lia.
Qed.

(** The matches of one scan come in ascending order and do not overlap. *)
Lemma scan_ordered (r : regex) (rest : text) :
  forall prev pos skip,
    Forall (fun m => (pos + skip <= mt_start m)%nat)
      (scan r prev pos rest skip)
    /\ StronglySorted (fun m1 m2 => (mt_end m1 <= mt_start m2)%nat)
         (scan r prev pos rest skip).
Proof.
  induction rest as [|c t IH]; intros prev pos skip.
  - destruct skip; cbn [scan]; [|split; constructor].
    destruct (match_at r prev pos []) as [m|] eqn:E; [|split; constructor].
    apply match_at_start in E.
    split; repeat constructor. lia.
  - destruct skip as [|k]; cbn [scan].
    + destruct (match_at r prev pos (c :: t)) as [m|] eqn:E.
      * apply match_at_start in E.
        destruct (IH (Some c) (S pos) (pred (mt_end m - pos))) as [H1 H2].
        split.
        -- constructor; [lia|]. eapply Forall_impl; [|exact H1].
           cbn. intros; lia.
        -- constructor; [exact H2|]. eapply Forall_impl; [|exact H1].
           cbn. intros; lia.
      * destruct (IH (Some c) (S pos) 0%nat) as [H1 H2].
        split; [|exact H2]. eapply Forall_impl; [|exact H1]. cbn. intros; lia.
    + destruct (IH (Some c) (S pos) k) as [H1 H2].
      split; [|exact H2]. eapply Forall_impl; [|exact H1]. cbn. intros; lia.
Qed.

Lemma sorted_pair {A : Type} (R : A -> A -> Prop) (l : list A) (a b : A) :
  StronglySorted R l -> In a l -> In b l -> a = b \/ R a b \/ R b a.
Proof.
  induction 1 as [|x l Hs IH Hx]; [intros []|].
  rewrite Forall_forall in Hx.
  intros [<-|Ha] [<-|Hb]; auto.
Qed.

(** A candidate of the recognizer starts before the offset [i] and ends
    after it. *)
Definition overlapped (s : text) (i : Z) : Prop :=
  exists i' j', yields s i' j' /\ i' < i < j'.

Lemma yields_match (s : text) (i j : Z) :
  yields s i j <->
  exists m, In m (finditer expiry_pattern s)
            /\ i = Z.of_nat (mt_start m) /\ j = Z.of_nat (mt_end m).
Proof.
  unfold yields, expiry_recognizer, pattern_recognizer. split.
  - intros [r [H [<- <-]]]. apply in_map_iff in H as [m [<- Hm]].
    now exists m.
  - intros [m [Hm [-> ->]]].
    exists (mkResult "EXPIRY_NO" (Z.of_nat (mt_start m))
              (Z.of_nat (mt_end m)) expiry_score).
    split; [|now split]. apply in_map_iff. now exists m.
Qed.

(** C10, as the code has it.  Every candidate of the expiry recognizer is
    typed EXPIRY_NO with confidence 0.8.  In every text, the part [w]
    between [a] and [b] yields a candidate if and only if it is made of a
    month 01..12, one of [/] and [-], and a year field of one, two or four
    digits, has no word character directly before or after it, and no
    candidate that starts further left runs over its start (the matches
    of the one pass do not overlap).  In particular a text that is exactly
    such a word yields exactly the candidate covering it. *)
Theorem expiry_candidates :
  (forall s r, In r (expiry_recognizer s) ->
     rr_entity_type r = "EXPIRY_NO"%string
     /\ rr_score r = 0.8%float
     /\ exists a w b,
          s = a ++ w ++ b
          /\ rr_start r = len a /\ rr_end r = len a + len w
          /\ expiry_shape w = true
          /\ is_word_opt (char_before a) = false
          /\ is_word_opt (hd_error b) = false)
  /\ (forall s i j,
        yields s i j <->
        exists a w b,
          s = a ++ w ++ b /\ i = len a /\ j = len a + len w
          /\ expiry_shape w = true
          /\ is_word_opt (char_before a) = false
          /\ is_word_opt (hd_error b) = false
          /\ ~ overlapped s i)
  /\ (forall w, expiry_shape w = true ->
        expiry_recognizer w = [mkResult "EXPIRY_NO" 0 (len w) 0.8%float]).
Proof.
  split; [|split].
  - intros s r H. unfold expiry_recognizer, pattern_recognizer in H.
    apply in_map_iff in H as [m [<- Hm]].
    split; [reflexivity|]. split; [reflexivity|].
    destruct (expiry_match_shape s m Hm)
      as [a [w [b [Es [Hst [Hen [Hsh [Hb1 Hb2]]]]]]]].
    exists a, w, b. cbn [rr_start rr_end]. unfold len.
    repeat split; try assumption; lia.
  - intros s i j. split.
    + intros H. apply yields_match in H as [m [Hm [-> ->]]].
      destruct (expiry_match_shape s m Hm)
        as [a [w [b [Es [Hst [Hen [Hsh [Hb1 Hb2]]]]]]]].
      exists a, w, b. unfold len. rewrite Hst, Hen.
      repeat (split; [first [assumption|lia]|]).
      intros [i' [j' [H' Hov]]].
      apply yields_match in H' as [m' [Hm' [-> ->]]].
      destruct (scan_ordered expiry_pattern s None 0 0) as [_ Hs].
      destruct (sorted_pair _ _ m m' Hs Hm Hm') as [E|[E|E]];
        [subst m'|..]; lia.
    + intros [a [w [b [Es [-> [-> [Hsh [Hb1 [Hb2 Hno]]]]]]]]].
      destruct (expiry_match_at (char_before a) (List.length a) w b
                  Hsh Hb1 Hb2) as [gs Hm].
      apply yields_match.
      exists (mkMatch (List.length a) (List.length w + List.length a) gs).
      cbn [mt_start mt_end]. unfold len.
      split; [|split; [reflexivity|lia]].
      destruct (scan_finds expiry_pattern a [] 0 (w ++ b) _ (Nat.le_0_l _) Hm)
        as [H|[m' [H1 H2]]].
      * unfold finditer. now rewrite Es.
      * exfalso. apply Hno.
        exists (Z.of_nat (mt_start m')), (Z.of_nat (mt_end m')).
        split; [|unfold len; cbn [List.length] in H2; lia].
        apply yields_match. exists m'. unfold finditer. rewrite Es.
        now split.
  - intros w H. destruct (expiry_finditer_whole w H) as [gs E].
    unfold expiry_recognizer, pattern_recognizer. rewrite E. reflexivity.
Qed.

(** C10, as the claim states it, fails in both directions: ["01/5"] and
    ["01-2025"] yield candidates that have none of the three forms; in
    ["112/25"] the part ["12/25"] has the form MM/YY and yields nothing,
    a digit standing before it; and in ["01/12/25"] the part ["12/25"],
    with no word character on either side, yields nothing either, the
    candidate ["01/12"] running over its start. *)
Lemma expiry_forms_differ :
  (yields (str "01/5") 0 4
   /\ claimed_shape (slice (str "01/5") 0 4) = false)
  /\ (yields (str "01-2025") 0 7
      /\ claimed_shape (slice (str "01-2025") 0 7) = false)
  /\ (claimed_shape (slice (str "112/25") 1 6) = true
      /\ expiry_recognizer (str "112/25") = [])
  /\ (claimed_shape (slice (str "01/12/25") 3 8) = true
      /\ expiry_recognizer (str "01/12/25")
         = [mkResult "EXPIRY_NO" 0 5 0.8%float]).
Proof.
  repeat split; try (vm_compute; reflexivity);
    eexists; (split; [vm_compute; left; reflexivity|split; reflexivity]).
Qed.

(** Inside a longer text: the date of ["exp 12/25"] is found where it
    stands. *)
Example expiry_inside_a_text :
  expiry_recognizer (str "exp 12/25")
  = [mkResult "EXPIRY_NO" 4 9 0.8%float].
Proof. vm_compute. reflexivity. Qed.

(** ** The text normalizer *)

Module Clean.

(** The length of the longest prefix of [t] inside the class [p]. *)
Fixpoint run (p : ascii -> bool) (t : text) : nat :=
  match t with
  | [] => 0
  | c :: t' => if p c then S (run p t') else 0
  end.

(** The offset of the first [>] of [t]. *)
Fixpoint first_gt (t : text) : option nat :=
  match t with
  | [] => None
  | c :: t' => if is_char ">" c then Some 0%nat else option_map S (first_gt t')
  end.

(** The length of the match of [<[^>]+>] at the head of a text: the tag
    runs to the first [>] after the [<], which must not follow at once. *)
Definition tag_len (rest : text) : option nat :=
  match rest with
  | [] => None
  | c :: t =>
      if is_char "<" c then
        match first_gt t with
        | Some (S n) => Some (S n + 2)%nat
        | _ => None
        end
      else None
  end.

(** The length of the match of [\s+] at the head of a text. *)
Definition spaces_len (rest : text) : option nat :=
  match run is_space rest with
  | O => None
  | S n => Some (S n)
  end.

(** The length of the match of a pattern at an offset. *)
Definition mlen (r : regex) (prev : option ascii) (pos : nat) (rest : text)
  : option nat :=
  option_map (fun m => (mt_end m - pos)%nat) (match_at r prev pos rest).

Lemma mlen_pos (r : regex) (prev : option ascii) (pos : nat) (rest : text) :
  mlen r prev pos rest
  = option_map (fun st => (m_pos st - pos)%nat)
      (rmatch r (mkState prev pos rest []) Some).
Proof. unfold mlen, match_at. now destruct (rmatch _ _ _). Qed.

(** A greedy repetition with nothing after it takes the whole run. *)
Lemma rep_alone (p : ascii -> bool) (t : text) :
  forall lo prev pos gs,
    option_map m_pos (rep_match p lo None prev pos t gs Some)
    = if (lo <=? run p t)%nat then Some (pos + run p t)%nat else None.
Proof.
  induction t as [|c t IH]; intros lo prev pos gs; cbn [rep_match run].
  - destruct lo; cbn; [now rewrite Nat.add_0_r|reflexivity].
  - cbn [can_more andb option_map]. destruct (p c).
    + specialize (IH (pred lo) (Some c) (S pos) gs).
      destruct (rep_match p (pred lo) None (Some c) (S pos) t gs Some)
        as [r|]; cbn [option_map] in *.
      * destruct (pred lo <=? run p t)%nat eqn:E; [|discriminate].
        apply Nat.leb_le in E.
        replace (lo <=? S (run p t))%nat with true
          by (symmetry; apply Nat.leb_le; lia).
        injection IH as ->. f_equal. lia.
      * destruct (pred lo <=? run p t)%nat eqn:E; [discriminate|].
        apply Nat.leb_gt in E. destruct lo; [cbn in E; lia|].
        cbn [pred] in E.
        replace (S lo <=? S (run p t))%nat with false
          by (symmetry; apply Nat.leb_gt; lia).
        reflexivity.
    + destruct lo; cbn; [now rewrite Nat.add_0_r|reflexivity].
Qed.

(** A greedy run of characters other than [>], and then a [>]. *)
Lemma rep_then_gt (t : text) :
  forall lo prev pos gs,
    option_map m_pos
      (rep_match (fun c => negb (is_char ">" c)) lo None prev pos t gs
         (fun st => rmatch (Cls (is_char ">")) st Some))
    = match first_gt t with
      | Some n => if (lo <=? n)%nat then Some (pos + n + 1)%nat else None
      | None => None
      end.
Proof.
  induction t as [|c t IH]; intros lo prev pos gs;
    cbn [rep_match first_gt can_more andb].
  - now destruct lo.
  - destruct (is_char ">" c) eqn:Hc; cbn [negb].
    + destruct lo; cbn [rmatch m_rest]; [|reflexivity].
      rewrite Hc. cbn. f_equal. lia.
    + specialize (IH (pred lo) (Some c) (S pos) gs).
      match goal with
      | |- context [match ?X with Some _ => _ | None => _ end] =>
          match type of IH with
          | option_map _ ?Y = _ => change Y with X in IH
          end;
          destruct X as [r|]
      end;
        cbn [option_map] in *;
        destruct (first_gt t) as [n|]; cbn [option_map]; try discriminate.
      * destruct (pred lo <=? n)%nat eqn:E; [|discriminate].
        apply Nat.leb_le in E.
        replace (lo <=? S n)%nat with true
          by (symmetry; apply Nat.leb_le; lia).
        injection IH as ->. f_equal. lia.
      * destruct (pred lo <=? n)%nat eqn:E; [discriminate|].
        apply Nat.leb_gt in E. destruct lo; [cbn in E; lia|].
        cbn [pred] in E.
        replace (S lo <=? S n)%nat with false
          by (symmetry; apply Nat.leb_gt; lia).
        reflexivity.
      * destruct lo; [|reflexivity]. cbn [rmatch m_rest]. now rewrite Hc.
Qed.

Lemma spaces_mlen (prev : option ascii) (pos : nat) (rest : text) :
  mlen spaces_pattern prev pos rest = spaces_len rest.
Proof.
  rewrite mlen_pos. unfold spaces_pattern, plus, spaces_len. cbn [rmatch].
  pose proof (rep_alone is_space rest 1 prev pos []) as H.
  cbn [m_prev m_pos m_rest m_groups].
  destruct (rep_match is_space 1 None prev pos rest [] Some) as [st|];
    cbn [option_map] in *.
  - destruct (run is_space rest) as [|n]; [discriminate|].
    cbn in H. injection H as ->. f_equal. lia.
  - now destruct (run is_space rest).
Qed.

Lemma tag_mlen (prev : option ascii) (pos : nat) (rest : text) :
  mlen tag_pattern prev pos rest = tag_len rest.
Proof.
  rewrite mlen_pos. unfold tag_pattern, plus, tag_len.
  cbn [seq_of rmatch m_rest m_prev m_pos m_groups].
  destruct rest as [|c t]; [reflexivity|].
  destruct (is_char "<" c); [|reflexivity].
  pose proof (rep_then_gt t 1 (Some c) (S pos) []) as H.
  destruct (rep_match _ 1 None (Some c) (S pos) t [] _) as [st|];
    cbn [option_map] in *.
  - destruct (first_gt t) as [[|n]|]; try discriminate.
    cbn in H. injection H as ->. f_equal. lia.
  - now destruct (first_gt t) as [[|n]|].
Qed.

(** A substitution whose matches depend on the text ahead only. *)
Fixpoint sub_by (f : text -> option nat) (repl : text) (rest : text)
    (skip : nat) {struct rest} : text :=
  match skip with
  | S skip' =>
      match rest with
      | [] => []
      | c :: t => sub_by f repl t skip'
      end
  | O =>
      match f rest with
      | Some n =>
          repl ++ match rest with
                  | [] => []
                  | c :: t =>
                      match n with
                      | O => c :: sub_by f repl t O
                      | S n' => sub_by f repl t n'
                      end
                  end
      | None =>
          match rest with
          | [] => []
          | c :: t => c :: sub_by f repl t O
          end
      end
  end.

Lemma sub_scan_by (r : regex) (f : text -> option nat) (repl : text) :
  (forall prev pos rest, mlen r prev pos rest = f rest) ->
  forall rest prev pos skip,
    sub_scan r repl prev pos rest skip = sub_by f repl rest skip.
Proof.
  intros Hf. induction rest as [|c t IH]; intros prev pos skip;
    destruct skip; cbn [sub_scan sub_by]; try reflexivity;
    try apply IH;
    rewrite <- (Hf prev pos); unfold mlen;
    destruct (match_at r prev pos _) as [m|]; cbn [option_map];
    try reflexivity.
  - destruct (mt_end m - pos)%nat; now rewrite IH.
  - now rewrite IH.
Qed.

Definition untag (s : text) (skip : nat) : text := sub_by tag_len [] s skip.
Definition squeeze (s : text) (skip : nat) : text :=
  sub_by spaces_len (str " ") s skip.

Lemma clean_text_steps (s : text) :
  clean_text s = strip (squeeze (untag s 0) 0).
Proof.
  unfold clean_text, re_sub, untag, squeeze.
  now rewrite (sub_scan_by tag_pattern tag_len [] tag_mlen),
    (sub_scan_by spaces_pattern spaces_len (str " ") spaces_mlen).
Qed.

Lemma untag_cons (c : ascii) (t : text) :
  untag (c :: t) 0
  = match tag_len (c :: t) with
    | Some (S n) => untag t n
    | _ => c :: untag t 0
    end.
Proof.
  unfold untag. cbn [sub_by app].
  destruct (tag_len (c :: t)) as [[|n]|]; reflexivity.
Qed.

Lemma squeeze_cons (c : ascii) (t : text) :
  squeeze (c :: t) 0
  = if is_space c then " "%char :: squeeze t (run is_space t)
    else c :: squeeze t 0.
Proof.
  unfold squeeze, spaces_len. cbn [sub_by run].
  destruct (is_space c); reflexivity.
Qed.

Lemma untag_nil (k : nat) : untag [] k = [].
Proof. now destruct k. Qed.

Lemma squeeze_nil (k : nat) : squeeze [] k = [].
Proof. now destruct k. Qed.

(** *** No tag is left, and none appears *)

(** [<[^>]+>] matches at no offset of [s]. *)
Fixpoint tagfree (s : text) : Prop :=
  match s with
  | [] => True
  | c :: t => tag_len (c :: t) = None /\ tagfree t
  end.

Lemma first_gt_None (t : text) : first_gt t = None <-> ~ In ">"%char t.
Proof.
  induction t as [|c t IH]; cbn [first_gt In]; [tauto|].
  destruct (is_char ">" c) eqn:E.
  - apply is_char_eq in E. subst c. split; [discriminate|tauto].
  - destruct (first_gt t); cbn [option_map].
    + split; [discriminate|]. intros H. exfalso. apply H. right.
      destruct (in_dec ascii_dec ">"%char t) as [Hin|Hn]; [exact Hin|].
      now apply IH in Hn.
    + split; [|reflexivity]. intros _ [->|Hin].
      * discriminate E.
      * now apply IH in Hin.
Qed.

Lemma first_gt_zero (t : text) :
  first_gt t = Some 0%nat <-> exists t', t = ">"%char :: t'.
Proof.
  destruct t as [|c t]; cbn [first_gt].
  - split; [discriminate|intros [t' [=]]].
  - destruct (is_char ">" c) eqn:E.
    + apply is_char_eq in E. subst c. split; [now exists t|reflexivity].
    + split.
      * destruct (first_gt t); discriminate.
      * intros [t' [= -> _]]. discriminate.
Qed.

(** Rewriting what follows a character keeps it from opening a tag, when
    no [>] is added and a [>] in front stays in front. *)
Lemma tag_len_preserved (c : ascii) (t t' : text) :
  tag_len (c :: t) = None ->
  (~ In ">"%char t -> ~ In ">"%char t') ->
  (forall t0, t = ">"%char :: t0 -> exists t0', t' = ">"%char :: t0') ->
  tag_len (c :: t') = None.
Proof.
  unfold tag_len. intros H Hno Hfront.
  destruct (is_char "<" c); [|reflexivity].
  destruct (first_gt t) as [[|n]|] eqn:E; [|discriminate|].
  - apply first_gt_zero in E as [t0 E]. apply Hfront in E.
    apply first_gt_zero in E. now rewrite E.
  - apply first_gt_None in E. apply Hno in E. apply first_gt_None in E.
    now rewrite E.
Qed.

Lemma untag_In (s : text) :
  forall k x, In x (untag s k) -> In x s.
Proof.
  induction s as [|c t IH]; intros k x H.
  - now rewrite untag_nil in H.
  - destruct k as [|k]; [|right; exact (IH k x H)].
    rewrite untag_cons in H.
    destruct (tag_len (c :: t)) as [[|n]|];
      try (destruct H as [<-|H]; [now left|right; exact (IH _ x H)]).
    right. exact (IH _ x H).
Qed.

Lemma squeeze_In (s : text) :
  forall k x, In x (squeeze s k) -> In x s \/ x = " "%char.
Proof.
  induction s as [|c t IH]; intros k x H.
  - now rewrite squeeze_nil in H.
  - destruct k as [|k].
    + rewrite squeeze_cons in H. destruct (is_space c);
        (destruct H as [<-|H]; [|apply IH in H; cbn [In]; tauto]).
      * now right.
      * left. now left.
    + change (squeeze (c :: t) (S k)) with (squeeze t k) in H.
      apply IH in H. cbn [In]. tauto.
Qed.

Lemma untag_tagfree (s : text) : forall k, tagfree (untag s k).
Proof.
  induction s as [|c t IH]; intros k.
  - now rewrite untag_nil.
  - destruct k as [|k]; [|exact (IH k)].
    rewrite untag_cons.
    destruct (tag_len (c :: t)) as [[|n]|] eqn:E; [exfalso| |].
    + unfold tag_len in E. destruct (is_char "<" c); [|discriminate].
      destruct (first_gt t) as [[|j]|]; discriminate.
    + apply IH.
    + cbn [tagfree]. split; [|apply IH].
      apply (tag_len_preserved c t); [exact E| |].
      * intros Hn Hin. apply Hn. exact (untag_In t 0 _ Hin).
      * intros t0 ->. rewrite untag_cons. cbn [tag_len is_char Ascii.eqb].
        cbn. eauto.
Qed.

Lemma tagfree_untag (s : text) : tagfree s -> untag s 0 = s.
Proof.
  induction s as [|c t IH]; [reflexivity|].
  cbn [tagfree]. intros [E Ht]. rewrite untag_cons, E. now rewrite IH.
Qed.

Lemma tagfree_squeeze (s : text) :
  forall k, tagfree s -> tagfree (squeeze s k).
Proof.
  induction s as [|c t IH]; intros k H.
  - now rewrite squeeze_nil.
  - cbn [tagfree] in H. destruct H as [E Ht].
    destruct k as [|k]; [|exact (IH k Ht)].
    rewrite squeeze_cons. destruct (is_space c) eqn:Hc; cbn [tagfree].
    + split; [reflexivity|now apply IH].
    + split; [|now apply IH].
      apply (tag_len_preserved c t); [exact E| |].
      * intros Hn Hin. apply squeeze_In in Hin as [Hin|Hin];
          [now apply Hn|discriminate].
      * intros t0 ->. rewrite squeeze_cons. cbn. eauto.
Qed.

Lemma rstrip_cons (c : ascii) (t : text) :
  rstrip (c :: t)
  = match rstrip t with
    | [] => if is_space c then [] else [c]
    | r => c :: r
    end.
Proof. reflexivity. Qed.

Lemma rstrip_In (s : text) : forall x, In x (rstrip s) -> In x s.
Proof.
  induction s as [|c t IH]; intros x H; [exact H|].
  rewrite rstrip_cons in H. destruct (rstrip t) as [|d r].
  - destruct (is_space c); [destruct H|].
    destruct H as [<-|[]]. now left.
  - destruct H as [<-|H]; [now left|right; now apply IH].
Qed.

(** What is left of a text after [rstrip] starts as the text does. *)
Lemma rstrip_head (s : text) (d : ascii) (r : text) :
  rstrip s = d :: r -> exists t, s = d :: t.
Proof.
  destruct s as [|c t]; [discriminate|]. rewrite rstrip_cons.
  destruct (rstrip t); [destruct (is_space c)|]; intros [= -> _]; eauto.
Qed.

Lemma rstrip_keeps (c : ascii) (t : text) :
  is_space c = false -> exists r, rstrip (c :: t) = c :: r.
Proof.
  intros H. rewrite rstrip_cons, H. destruct (rstrip t); eauto.
Qed.

Lemma tagfree_lstrip (s : text) : tagfree s -> tagfree (lstrip s).
Proof.
  induction s as [|c t IH]; [trivial|]. intros H. cbn [lstrip].
  destruct (is_space c); [apply IH, H|exact H].
Qed.

Lemma tagfree_rstrip (s : text) : tagfree s -> tagfree (rstrip s).
Proof.
  induction s as [|c t IH]; [trivial|]. cbn [tagfree]. intros [E Ht].
  specialize (IH Ht).
  assert (tag_len (c :: rstrip t) = None) as E'.
  { apply (tag_len_preserved c t); [exact E| |].
    - intros Hn Hin. now apply Hn, rstrip_In.
    - intros t0 ->. now apply rstrip_keeps. }
  rewrite rstrip_cons. destruct (rstrip t) as [|d r].
  - destruct (is_space c); [exact I|]. now split.
  - now split.
Qed.

(** *** Whitespace is single spaces *)

Definition head_not_space (t : text) : Prop :=
  match t with
  | [] => True
  | d :: _ => is_space d = false
  end.

(** Every whitespace character is a space, and is not followed by
    another. *)
Fixpoint collapsed (s : text) : Prop :=
  match s with
  | [] => True
  | c :: t =>
      (is_space c = true -> c = " "%char /\ head_not_space t) /\ collapsed t
  end.

Lemma squeeze_head (t : text) : head_not_space (squeeze t (run is_space t)).
Proof.
  induction t as [|c t IH]; [exact I|]. cbn [run].
  destruct (is_space c) eqn:Hc; [exact IH|].
  now rewrite squeeze_cons, Hc.
Qed.

Lemma squeeze_collapsed (s : text) : forall k, collapsed (squeeze s k).
Proof.
  induction s as [|c t IH]; intros k.
  - now rewrite squeeze_nil.
  - destruct k as [|k]; [|exact (IH k)].
    rewrite squeeze_cons. destruct (is_space c) eqn:Hc; cbn [collapsed].
    + split; [|apply IH]. intros _. split; [reflexivity|apply squeeze_head].
    + split; [|apply IH]. congruence.
Qed.

Lemma collapsed_squeeze (s : text) : collapsed s -> squeeze s 0 = s.
Proof.
  induction s as [|c t IH]; [reflexivity|]. cbn [collapsed]. intros [Hc Ht].
  rewrite squeeze_cons. destruct (is_space c).
  - destruct (Hc eq_refl) as [-> Hh].
    replace (run is_space t) with 0%nat; [now rewrite IH|].
    destruct t as [|d t]; [reflexivity|]. cbn in Hh |- *. now rewrite Hh.
  - now rewrite IH.
Qed.

Lemma collapsed_lstrip (s : text) : collapsed s -> collapsed (lstrip s).
Proof.
  induction s as [|c t IH]; [trivial|]. intros H. cbn [lstrip].
  destruct (is_space c); [apply IH, H|exact H].
Qed.

Lemma collapsed_rstrip (s : text) : collapsed s -> collapsed (rstrip s).
Proof.
  induction s as [|c t IH]; [trivial|]. cbn [collapsed]. intros [Hc Ht].
  specialize (IH Ht). rewrite rstrip_cons.
  destruct (rstrip t) as [|d r] eqn:E.
  - destruct (is_space c) eqn:Hs; [exact I|].
    cbn [collapsed]. split; [congruence|exact I].
  - cbn [collapsed] in *. split; [|exact IH].
    intros Hs. destruct (Hc Hs) as [-> Hh]. split; [reflexivity|].
    apply rstrip_head in E as [t' ->]. exact Hh.
Qed.

(** *** Trimming *)

Lemma lstrip_head (s : text) : head_not_space (lstrip s).
Proof.
  induction s as [|c t IH]; [exact I|]. cbn [lstrip].
  destruct (is_space c) eqn:Hc; [exact IH|exact Hc].
Qed.

Lemma lstrip_id (s : text) : head_not_space s -> lstrip s = s.
Proof. destruct s as [|c t]; [reflexivity|]. cbn. now intros ->. Qed.

Lemma rstrip_head_not_space (s : text) :
  head_not_space s -> head_not_space (rstrip s).
Proof.
  intros H. destruct (rstrip s) as [|d r] eqn:E; [exact I|].
  apply rstrip_head in E as [t ->]. exact H.
Qed.

Lemma rstrip_idem (s : text) : rstrip (rstrip s) = rstrip s.
Proof.
  induction s as [|c t IH]; [reflexivity|]. rewrite rstrip_cons.
  destruct (rstrip t) as [|d r] eqn:E.
  - destruct (is_space c) eqn:Hc; [reflexivity|].
    rewrite rstrip_cons. cbn [rstrip]. now rewrite Hc.
  - rewrite rstrip_cons, IH. reflexivity.
Qed.

Lemma strip_idem (s : text) : strip (strip s) = strip s.
Proof.
  unfold strip. rewrite (lstrip_id (rstrip (lstrip s))).
  - apply rstrip_idem.
  - apply rstrip_head_not_space, lstrip_head.
Qed.

Lemma clean_tagfree (x : text) : tagfree (clean_text x).
Proof.
  rewrite clean_text_steps. unfold strip.
  apply tagfree_rstrip, tagfree_lstrip, tagfree_squeeze, untag_tagfree.
Qed.

Lemma clean_collapsed (x : text) : collapsed (clean_text x).
Proof.
  rewrite clean_text_steps. unfold strip.
  apply collapsed_rstrip, collapsed_lstrip, squeeze_collapsed.
Qed.

Lemma tagfree_suffix (a b : text) : tagfree (a ++ b) -> tagfree b.
Proof.
  induction a as [|c a IH]; [trivial|]. cbn [app tagfree]. intros [_ H].
  now apply IH.
Qed.

Lemma tagfree_no_match (b : text) (prev : option ascii) (pos : nat) :
  tagfree b -> match_at tag_pattern prev pos b = None.
Proof.
  intros H. pose proof (tag_mlen prev pos b) as E. unfold mlen in E.
  destruct (match_at tag_pattern prev pos b) as [m|]; [|reflexivity].
  cbn [option_map] in E. destruct b as [|c t]; [discriminate|].
  destruct H as [H _]. congruence.
Qed.

End Clean.

(** C9. [clean_text] is idempotent.  A cleaned text is a fixed point of
    each of the three steps: the tag pattern [<[^>]+>] matches at none of
    its offsets, each of its whitespace characters is a single space
    followed by a character that is not whitespace, and it has no
    whitespace at either end.  ([clean_text] is a function of its argument
    alone, defined on every text.) *)
Theorem clean_text_idempotent (x : text) :
  clean_text (clean_text x) = clean_text x
  /\ re_sub tag_pattern [] (clean_text x) = clean_text x
  /\ (forall a b, clean_text x = a ++ b ->
        match_at tag_pattern (char_before a) (List.length a) b = None)
  /\ re_sub spaces_pattern (str " ") (clean_text x) = clean_text x
  /\ Clean.collapsed (clean_text x)
  /\ strip (clean_text x) = clean_text x.
Proof.
  pose proof (Clean.clean_tagfree x) as Ht.
  pose proof (Clean.clean_collapsed x) as Hc.
  assert (re_sub tag_pattern [] (clean_text x) = clean_text x) as E1.
  { unfold re_sub.
    rewrite (Clean.sub_scan_by tag_pattern Clean.tag_len [] Clean.tag_mlen).
    now apply Clean.tagfree_untag. }
  assert (re_sub spaces_pattern (str " ") (clean_text x) = clean_text x) as E2.
  { unfold re_sub.
    rewrite (Clean.sub_scan_by spaces_pattern Clean.spaces_len (str " ")
               Clean.spaces_mlen).
    now apply Clean.collapsed_squeeze. }
  assert (strip (clean_text x) = clean_text x) as E3.
  { rewrite Clean.clean_text_steps. apply Clean.strip_idem. }
  split; [|split; [exact E1|split; [|split; [exact E2|split; [exact Hc|exact E3]]]]].
  - unfold clean_text at 1. cbv zeta. now rewrite E1, E2, E3.
  - intros a b E. apply Clean.tagfree_no_match.
    apply (Clean.tagfree_suffix a). now rewrite <- E.
Qed.

(** ** The duplicate check of the proximity pass *)

(** Each entity of [later] has a span that none of the entities listed
    before it has. *)
Fixpoint fresh_spans (before later : list entity) : Prop :=
  match later with
  | [] => True
  | x :: l =>
      (forall y, In y before -> ~ (start y = start x /\ end_ y = end_ x))
      /\ fresh_spans (before ++ [x]) l
  end.

Lemma proximity_fold_fresh (s : text) (ms : list rx_match) :
  forall acc, exists later,
    fold_left (proximity_step s) ms acc = acc ++ later
    /\ fresh_spans acc later.
Proof.
  induction ms as [|m ms IH]; intros acc; cbn [fold_left].
  - exists []. now rewrite app_nil_r.
  - destruct (IH (proximity_step s acc m)) as [later [E HF]]. rewrite E.
    clear E IH. revert HF. unfold proximity_step.
    set (digit_text := group s m 1).
    set (ctx := lower (slice s _ _)).
    generalize (strip ctx) as stripped.
    generalize (existsb (fun keyword => search (whole_word keyword) ctx)
                  card_keywords
                && negb (search date_like ctx)
                && negb (search dollar_amount ctx)
                && negb (search card_number_like ctx)
                && len_3_or_4 digit_text) as likely.
    intros [|] stripped HF; [|exists later; split; [reflexivity|exact HF]].
    destruct (existsb (same_span (group_start m 1) (group_end m 1)) acc)
      eqn:Hdup; cbn [negb] in HF |- *;
      [exists later; split; [reflexivity|exact HF]|].
    eexists (_ :: later). rewrite <- app_assoc. split; [reflexivity|].
    cbn [fresh_spans start end_]. split; [|exact HF].
    intros y Hy [H1 H2].
    assert (existsb (same_span (group_start m 1) (group_end m 1)) acc = true)
      as Hex; [|congruence].
    apply existsb_exists. exists y. split; [exact Hy|].
    unfold same_span. rewrite H1, H2, !Z.eqb_refl. reflexivity.
Qed.

(** The second pass never repeats a span the detector already holds,
    whichever pass produced it. *)
Lemma proximity_pass_dedups (s : text) :
  exists later,
    detect_cvv_from_context s = keyword_pass s ++ later
    /\ fresh_spans (keyword_pass s) later.
Proof.
  exact (proximity_fold_fresh s (finditer digit_pattern s) (keyword_pass s)).
Qed.

(** * Further properties *)

(** ** The resolver keeps, in order, some of its candidates *)

(** [l1] is [l2] with some entries left out. *)
Inductive subseq {A : Type} : list A -> list A -> Prop :=
| subseq_nil : subseq [] []
| subseq_skip x l1 l2 : subseq l1 l2 -> subseq l1 (x :: l2)
| subseq_keep x l1 l2 : subseq l1 l2 -> subseq (x :: l1) (x :: l2).

Section Subseq.
Context {A : Type}.

Lemma subseq_refl (l : list A) : subseq l l.
Proof. induction l; constructor; assumption. Qed.

Lemma subseq_nil_l (l : list A) : subseq [] l.
Proof. induction l; constructor; assumption. Qed.

Lemma subseq_trans (l1 l2 l3 : list A) :
  subseq l1 l2 -> subseq l2 l3 -> subseq l1 l3.
Proof.
  intros H12 H23. revert l1 H12.
  induction H23 as [|x l2 l3 H IH|x l2 l3 H IH]; intros l1 H12.
  - exact H12.
  - apply subseq_skip, IH, H12.
  - inversion H12; subst.
    + apply subseq_skip, IH. assumption.
    + apply subseq_keep, IH. assumption.
Qed.

Lemma subseq_app (a b c d : list A) :
  subseq a b -> subseq c d -> subseq (a ++ c) (b ++ d).
Proof.
  intros Hab Hcd. induction Hab; cbn [app]; try (constructor; assumption).
  exact Hcd.
Qed.

Lemma subseq_length (l1 l2 : list A) :
  subseq l1 l2 -> (List.length l1 <= List.length l2)%nat.
Proof. induction 1; cbn [List.length]; lia. Qed.

Lemma subseq_incl (l1 l2 : list A) : subseq l1 l2 -> incl l1 l2.
Proof.
  induction 1 as [|x l1 l2 H IH|x l1 l2 H IH]; intros y Hy.
  - exact Hy.
  - right. now apply IH.
  - destruct Hy as [<-|Hy]; [now left|right; now apply IH].
Qed.
End Subseq.

Lemma resolve_step_subseq (acc : list entity) (c : entity) :
  subseq (resolve_step acc c) (acc ++ [c]) /\ resolve_step acc c <> [].
Proof.
  destruct (last_of_cases acc) as [[-> _]|[acc' [x [-> _]]]].
  - rewrite Resolver.step_nil. split; [apply subseq_refl|discriminate].
  - rewrite Resolver.step_snoc.
    assert (forall (l : list entity) y, l ++ [y] <> []) as Hne
      by (intros [|? ?] y; discriminate).
    destruct (start c <? end_ x); [destruct (wins c x)|].
    + split; [|apply Hne]. rewrite <- app_assoc.
      apply subseq_app; [apply subseq_refl|].
      apply subseq_skip, subseq_refl.
    + split; [|apply Hne]. rewrite <- (app_nil_r (acc' ++ [x])) at 1.
      apply subseq_app; [apply subseq_refl|apply subseq_nil_l].
    + split; [|intros H; now apply app_eq_nil in H as [_ H]].
      rewrite <- app_assoc. apply subseq_refl.
Qed.

Lemma resolve_fold_subseq (l : list entity) :
  forall acc, subseq (fold_left resolve_step l acc) (acc ++ l)
              /\ (acc <> [] -> fold_left resolve_step l acc <> []).
Proof.
  induction l as [|c l IH]; intros acc; cbn [fold_left].
  - rewrite app_nil_r. split; [apply subseq_refl|auto].
  - destruct (IH (resolve_step acc c)) as [Hs Hn].
    destruct (resolve_step_subseq acc c) as [Hs' Hn'].
    split; [|intros _; now apply Hn].
    eapply subseq_trans; [exact Hs|].
    change (acc ++ c :: l) with (acc ++ [c] ++ l). rewrite app_assoc.
    apply subseq_app; [exact Hs'|apply subseq_refl].
Qed.

(** X1. What the resolver returns is the list of candidates in ascending
    order of [start] (ties in input order) with some of them left out:
    nothing is made up, altered, repeated or moved; and from at least
    one candidate at least one is kept. *)
Theorem resolve_is_a_selection (entities : list entity) :
  subseq (resolve_overlapping_entities entities) (sort_by start entities)
  /\ incl (resolve_overlapping_entities entities) entities
  /\ (List.length (resolve_overlapping_entities entities)
      <= List.length entities)%nat
  /\ (resolve_overlapping_entities entities = [] <-> entities = []).
Proof.
  assert (subseq (resolve_overlapping_entities entities)
                 (sort_by start entities)) as Hs.
  { destruct entities as [|e es]; [constructor|].
    unfold resolve_overlapping_entities.
    exact (proj1 (resolve_fold_subseq (sort_by start (e :: es)) [])). }
  split; [exact Hs|]. split; [|split].
  - intros y Hy. apply subseq_incl in Hs. apply Hs in Hy.
    eapply Permutation_in; [apply Permutation_sym, sort_by_perm|exact Hy].
  - apply subseq_length in Hs.
    now rewrite <- (Permutation_length (sort_by_perm start entities)) in Hs.
  - split; [|now intros ->].
    destruct entities as [|e es]; [reflexivity|]. intros H. exfalso.
    unfold resolve_overlapping_entities in H.
    pose proof (sort_by_perm start (e :: es)) as Hp.
    destruct (sort_by start (e :: es)) as [|c l] eqn:E.
    + apply Permutation_length in Hp. discriminate.
    + cbn [fold_left] in H. rewrite Resolver.step_nil in H.
      now apply (proj2 (resolve_fold_subseq l [c])) in H.
Qed.

(** ** Candidates that do not overlap are all kept *)

Lemma sort_by_sorted_id {A : Type} (key : A -> Z) (l : list A) :
  Sorted (key_le key) l -> sort_by key l = l.
Proof.
  induction 1 as [|x l Hs IH Hhd]; [reflexivity|].
  cbn [sort_by]. rewrite IH. destruct Hhd as [|y l' Hxy]; [reflexivity|].
  cbn [insert_by]. unfold key_le in Hxy.
  now replace (key x <=? key y) with true by (symmetry; apply Z.leb_le; lia).
Qed.

Lemma Sorted_middle {A : Type} (R : A -> A -> Prop) (a b : list A) (x y : A) :
  Sorted R (a ++ x :: y :: b) -> R x y.
Proof.
  induction a as [|z a IH]; cbn [app]; intros H; inversion H; subst.
  - match goal with Hh : HdRel _ _ _ |- _ => now inversion Hh end.
  - now apply IH.
Qed.

Lemma resolve_fold_disjoint (l : list entity) :
  forall acc,
    Sorted Resolver.disjoint (acc ++ l) ->
    fold_left resolve_step l acc = acc ++ l.
Proof.
  induction l as [|c l IH]; intros acc H; cbn [fold_left].
  - now rewrite app_nil_r.
  - assert (resolve_step acc c = acc ++ [c]) as ->.
    { destruct (last_of_cases acc) as [[-> _]|[acc' [x [-> _]]]];
        [reflexivity|].
      rewrite Resolver.step_snoc. rewrite <- app_assoc in H.
      apply Sorted_middle in H. unfold Resolver.disjoint in H.
      replace (start c <? end_ x) with false
        by (symmetry; apply Z.ltb_ge; lia).
      now rewrite <- app_assoc. }
    rewrite IH; rewrite <- app_assoc; [reflexivity|exact H].
Qed.

Lemma resolve_of_disjoint (entities : list entity) :
  Sorted Resolver.disjoint (sort_by start entities) ->
  resolve_overlapping_entities entities = sort_by start entities.
Proof.
  intros H. destruct entities as [|e es]; [reflexivity|].
  unfold resolve_overlapping_entities.
  now rewrite resolve_fold_disjoint.
Qed.

(** X2. When, taken in ascending order of [start], each candidate starts
    at or after the end of the one before it, the resolver drops nothing:
    its result is the sorted list of all candidates. *)
Theorem resolve_keeps_disjoint (entities : list entity) :
  Sorted Resolver.disjoint (sort_by start entities) ->
  resolve_overlapping_entities entities = sort_by start entities.
Proof. exact (resolve_of_disjoint entities). Qed.

Lemma resolve_keeps_disjoint_witness :
  let entities := [mkEntity "PHONE_NUMBER" 30 42 [] 0.8%float None;
                   mkEntity "PERSON" 8 12 [] 0.85%float None;
                   mkEntity "EMAIL_ADDRESS" 12 28 [] 1.0%float None] in
  Sorted Resolver.disjoint (sort_by start entities)
  /\ resolve_overlapping_entities entities = sort_by start entities.
Proof.
  cbv zeta.
  match goal with
  | |- ?P /\ _ =>
      assert P as H by (repeat constructor; vm_compute; discriminate)
  end.
  split; [exact H|]. exact (resolve_keeps_disjoint _ H).
Defined.

(** X3. Resolving is idempotent: a resolved list is its own resolution. *)
Theorem resolve_idempotent (entities : list entity) :
  resolve_overlapping_entities (resolve_overlapping_entities entities)
  = resolve_overlapping_entities entities.
Proof.
  pose proof (Resolver.follows_sorted entities) as H.
  set (out := resolve_overlapping_entities entities) in *.
  assert (sort_by start out = out) as Hsort.
  { apply sort_by_sorted_id. eapply Sorted_weaken; [|exact H].
    now intros a b [? _]. }
  rewrite resolve_of_disjoint; rewrite Hsort; [reflexivity|].
  eapply Sorted_weaken; [|exact H]. now intros a b [_ ?].
Qed.

(** ** Reclassifying twice *)

Lemma date_snippet_span (s : text) (e e' : entity) :
  start e' = start e -> end_ e' = end_ e ->
  date_snippet s e' = date_snippet s e.
Proof. unfold date_snippet. now intros -> ->. Qed.

Lemma reclassify_is_date (s : text) (e : entity) :
  is_date (reclassify s e) <-> is_date e.
Proof.
  split.
  - intros H. destruct (String.eqb_spec (entity_type e) "DOB") as [E|N1];
      [now left|].
    destruct (String.eqb_spec (entity_type e) "EXPIRY_NO") as [E|N2];
      [now right|].
    rewrite reclassify_other in H by (unfold is_date; tauto). exact H.
  - intros H. rewrite (reclassify_date s e H).
    destruct (any_in dob_keywords _); [now left|].
    destruct (any_in expiry_keywords _); [now right|exact H].
Qed.

Lemma reclassify_idem (s : text) (e : entity) :
  reclassify s (reclassify s e) = reclassify s e.
Proof.
  destruct (String.eqb_spec (entity_type e) "DOB") as [E|N1];
    [|destruct (String.eqb_spec (entity_type e) "EXPIRY_NO") as [E|N2]].
  3: { now rewrite !(reclassify_other s e) by (unfold is_date; tauto). }
  all: assert (is_date e) as Hd by (unfold is_date; tauto);
    pose proof (proj2 (reclassify_is_date s e) Hd) as Hd';
    rewrite (reclassify_date s _ Hd');
    destruct (reclassify_same s e) as [E1 [E2 _]];
    rewrite (date_snippet_span s e _ E1 E2);
    rewrite (reclassify_date s e Hd);
    destruct (any_in dob_keywords _); [reflexivity|];
    destruct (any_in expiry_keywords _); reflexivity.
Qed.

(** X4. Reclassification is idempotent and stays within the date types: a
    second pass over the list changes nothing, the list keeps its length,
    and an entity is typed DOB or EXPIRY_NO afterwards exactly when it was
    before. *)
Theorem post_process_dates_idempotent (s : text) (entities : list entity) :
  post_process_dates s (post_process_dates s entities)
  = post_process_dates s entities
  /\ List.length (post_process_dates s entities) = List.length entities
  /\ Forall2 (fun e e' => is_date e' <-> is_date e)
       entities (post_process_dates s entities).
Proof.
  unfold post_process_dates. split; [|split].
  - rewrite map_map. apply map_ext. intros e. apply reclassify_idem.
  - apply length_map.
  - induction entities as [|e l IH]; cbn [map]; constructor; [|exact IH].
    apply reclassify_is_date.
Qed.

(** X5. On a store where the list may refer to one dictionary several
    times, the in-place loop leaves in each dictionary the list refers to
    what one reclassification of its initial contents gives, and leaves
    every other dictionary as it was: repeated references do no harm. *)
Theorem post_process_dates_store_result (s : text) (entities : list nat) :
  forall (h : store) (a : nat) (e : entity),
    nth_error h a = Some e ->
    (In a entities ->
     nth_error (fst (post_process_dates_store s h entities)) a
     = Some (reclassify s e))
    /\ (~ In a entities ->
        nth_error (fst (post_process_dates_store s h entities)) a = Some e).
Proof.
  unfold post_process_dates_store. cbn [fst].
  induction entities as [|r l IH]; intros h a e Ha; cbn [fold_left In].
  - split; [intros []|intros _; exact Ha].
  - assert (nth_error (reclassify_at s h r) a
            = Some (if Nat.eqb r a then reclassify s e else e)) as H1.
    { unfold reclassify_at. destruct (Nat.eqb_spec r a) as [->|Hra].
      - rewrite Ha. now apply (Store.store_set_same h a _ e).
      - destruct (nth_error h r); [|exact Ha].
        now rewrite Store.store_set_other. }
    destruct (IH _ _ _ H1) as [Hin Hout].
    destruct (Nat.eqb_spec r a) as [->|Hra].
    + split; [intros _|tauto].
      destruct (in_dec Nat.eq_dec a l) as [Hl|Hl].
      * rewrite (Hin Hl). now rewrite reclassify_idem.
      * exact (Hout Hl).
    + split.
      * intros [E|Hl]; [contradiction|exact (Hin Hl)].
      * intros Hn. apply Hout. tauto.
Qed.

Lemma post_process_dates_store_result_witness :
  let s := str "born 01-02-1990" in
  let e := mkEntity "EXPIRY_NO" 5 10 (str "01-02") 0.8%float None in
  nth_error [e] 0 = Some e
  /\ nth_error (fst (post_process_dates_store s [e] [0; 0; 0]%nat)) 0
     = Some (reclassify s e).
Proof.
  intros s e. split; [reflexivity|].
  refine (proj1 (post_process_dates_store_result s [0; 0; 0]%nat [e] 0%nat e
                   eq_refl) _).
  now left.
Defined.

(** ** Every candidate of the CVV detector *)

(** The entity the second pass builds for a match (lines 231-238). *)
Definition proximity_entity (s : text) (m : rx_match) : entity :=
  mkEntity "CVV_NO" (group_start m 1) (group_end m 1) (group s m 1)
    proximity_score
    (Some (strip (lower (slice s (Z.max 0 (group_start m 1 - 50))
                                 (Z.min (len s) (group_end m 1 + 50)))))).

(** The window of lines 207-209 has a card-related word in it. *)
Definition has_card_context (s : text) (m : rx_match) : bool :=
  existsb (fun keyword =>
             search (whole_word keyword)
               (lower (slice s (Z.max 0 (group_start m 1 - 50))
                               (Z.min (len s) (group_end m 1 + 50)))))
          card_keywords.

Lemma proximity_step_cases (s : text) (acc : list entity) (m : rx_match) :
  proximity_step s acc m = acc
  \/ (proximity_step s acc m = acc ++ [proximity_entity s m]
      /\ has_card_context s m = true).
Proof.
  unfold proximity_step, has_card_context, proximity_entity.
  destruct (existsb _ card_keywords); cbn [andb]; [|now left].
  destruct (negb (search date_like _) && _ && _ && _); [|now left].
  destruct (negb (existsb _ acc)); [right|left]; now split.
Qed.

Lemma proximity_fold_In (s : text) (ms : list rx_match) :
  forall acc e,
    In e (fold_left (proximity_step s) ms acc) ->
    In e acc
    \/ exists m, In m ms /\ e = proximity_entity s m
                 /\ has_card_context s m = true.
Proof.
  induction ms as [|m ms IH]; intros acc e H; cbn [fold_left] in H.
  - now left.
  - apply IH in H as [H|[m' [Hm' H]]].
    + destruct (proximity_step_cases s acc m) as [E|[E Hc]]; rewrite E in H.
      * now left.
      * apply in_app_or in H as [H|[<-|[]]]; [now left|].
        right. exists m. split; [now left|now split].
    + right. exists m'. split; [now right|exact H].
Qed.

(** A match of [\b(\d{3,4})\b]: group 1 is the whole match, a run of three
    or four digits with no word character on either side. *)
Lemma digit_match_shape (s : text) (m : rx_match) :
  In m (finditer digit_pattern s) ->
  exists a w b,
    s = a ++ w ++ b
    /\ all_digits w /\ (3 <= List.length w <= 4)%nat
    /\ find_group 1 (mt_groups m)
       = Some (List.length a, (List.length a + List.length w)%nat)
    /\ is_word_opt (char_before a) = false
    /\ is_word_opt (hd_error b) = false.
Proof.
  intros H. apply finditer_reach in H as [pre [rest [st' [-> [Hr ->]]]]].
  cbn [digit_pattern seq_of Regex.reach] in Hr.
  destruct Hr as [m0 [[Hb1 ->] [m1 [[st1 [Hd ->]] [Hb2 ->]]]]].
  destruct Hd as [w [t [Ew [Hw [Hlo [Hhi ->]]]]]].
  cbn [m_rest m_pos m_groups m_prev] in *. subst rest.
  exists pre, w, t. unfold all_digits. cbn in Hhi.
  cbn [mt_groups Regex.close_group Regex.after m_pos m_groups find_group
         Nat.eqb].
  split; [reflexivity|]. split; [exact Hw|]. split; [lia|].
  split; [reflexivity|].
  destruct w as [|d w]; [cbn in Hlo; lia|].
  assert (forall c, is_digit c = true -> is_word c = true) as Hdw.
  { intros c Hc. unfold is_word. unfold is_digit in Hc. now rewrite Hc. }
  unfold at_boundary, Regex.close_group, Regex.after in Hb1, Hb2.
  cbn [m_prev m_rest m_pos m_groups app hd_error is_word_opt] in Hb1, Hb2.
  cbn [forallb] in Hw. apply andb_true_iff in Hw as [Hd Hw].
  rewrite (Hdw d Hd) in Hb1.
  assert (is_word_opt (last (map Some (d :: w)) (char_before pre)) = true)
    as Hlast.
  { destruct (@exists_last _ (d :: w)) as [l [y E]]; [discriminate|].
    rewrite E, map_app, Regex.last_app. cbn [map last is_word_opt].
    apply Hdw.
    assert (forallb is_digit (d :: w) = true) as Hall
      by (cbn [forallb]; now rewrite Hd, Hw).
    rewrite E, forallb_app in Hall.
    apply andb_true_iff in Hall as [_ Hall]. cbn in Hall.
    now rewrite andb_true_r in Hall. }
  rewrite Hlast in Hb2. split.
  - now destruct (is_word_opt (char_before pre)).
  - now destruct (is_word_opt (hd_error t)).
Qed.

(** A candidate covering the digits [w] of [s = a ++ w ++ b]. *)
Definition covers_digits (s : text) (e : entity) : Prop :=
  exists a w b,
    s = a ++ w ++ b
    /\ start e = len a /\ end_ e = len a + len w /\ entity_text e = w
    /\ all_digits w /\ 3 <= len w <= 4.

Lemma group_covers (s : text) (m : rx_match) (a w b : text) :
  s = a ++ w ++ b ->
  find_group 1 (mt_groups m)
  = Some (List.length a, (List.length a + List.length w)%nat) ->
  group_start m 1 = len a /\ group_end m 1 = len a + len w
  /\ group s m 1 = w.
Proof.
  intros Es Hg. unfold group, group_start, group_end. rewrite Hg. unfold len.
  split; [reflexivity|]. split; [lia|].
  rewrite Es at 1. rewrite Nat2Z.inj_add. apply slice_app.
Qed.

Lemma cvv_candidate_shape (s : text) (e : entity) :
  In e (detect_cvv_from_context s) ->
  entity_type e = "CVV_NO"%string
  /\ (score e = 0.9%float \/ score e = 0.7%float)
  /\ covers_digits s e.
Proof.
  unfold detect_cvv_from_context. intros H.
  apply proximity_fold_In in H as [H|[m [Hm [-> _]]]].
  - unfold keyword_pass in H.
    apply in_flat_map in H as [keyword [_ H]].
    apply in_flat_map in H as [m [Hm H]].
    apply keyword_hit_In in H as [_ ->].
    destruct (cvv_match_shape keyword s m Hm)
      as [a [w [b [Es [Hw [Hlen [Hg _]]]]]]].
    destruct (group_covers s m a w b Es Hg) as [G1 [G2 G3]].
    split; [reflexivity|]. split; [now left|].
    exists a, w, b. cbn [start end_ entity_text]. unfold len.
    repeat split; try assumption; lia.
  - destruct (digit_match_shape s m Hm)
      as [a [w [b [Es [Hw [Hlen [Hg _]]]]]]].
    destruct (group_covers s m a w b Es Hg) as [G1 [G2 G3]].
    split; [reflexivity|]. split; [now right|].
    exists a, w, b. unfold proximity_entity.
    cbn [start end_ entity_text]. unfold len.
    repeat split; try assumption; lia.
Qed.

(** X6. Every candidate the CVV detector returns, from either pass, is
    typed CVV_NO with confidence 0.9 or 0.7, lies inside the text with
    [0 <= start < end <= len(text)], spans three or four digits of it, and
    holds exactly those digits as its [entity]. *)
Theorem cvv_candidates_are_valid (s : text) (e : entity) :
  In e (detect_cvv_from_context s) ->
  entity_type e = "CVV_NO"%string
  /\ (score e = 0.9%float \/ score e = 0.7%float)
  /\ 0 <= start e < end_ e /\ end_ e <= len s
  /\ 3 <= end_ e - start e <= 4
  /\ entity_text e = slice s (start e) (end_ e)
  /\ forallb is_digit (entity_text e) = true.
Proof.
  intros H. destruct (cvv_candidate_shape s e H)
    as [Ht [Hs [a [w [b [Es [E1 [E2 [E3 [Hw Hl]]]]]]]]]].
  split; [exact Ht|]. split; [exact Hs|].
  assert (len s = len a + len w + len b) as Hlen
    by (rewrite Es; unfold len; rewrite !length_app; lia).
  assert (0 <= len a /\ 0 <= len b) as [? ?] by (unfold len; lia).
  repeat split; try lia.
  - rewrite E3, E1, E2. rewrite Es at 1. symmetry. apply slice_app.
  - now rewrite E3.
Qed.

Lemma cvv_candidates_are_valid_witness :
  let s := str "my card 4321 ok" in
  let e := mkEntity "CVV_NO" 8 12 (str "4321") 0.7%float (Some s) in
  In e (detect_cvv_from_context s)
  /\ 0 <= start e < end_ e /\ end_ e <= len s.
Proof.
  intros s e.
  assert (In e (detect_cvv_from_context s)) as H
    by (vm_compute; left; reflexivity).
  split; [exact H|].
  destruct (cvv_candidates_are_valid s e H) as [_ [_ [H1 [H2 _]]]].
  split; [exact H1|exact H2].
Defined.

(** X7. A text with no digit in it has no CVV candidate. *)
Theorem no_digit_no_cvv (s : text) :
  (forall c, In c s -> is_digit c = false) ->
  detect_cvv_from_context s = [].
Proof.
  intros Hnd. destruct (detect_cvv_from_context s) as [|e l] eqn:E;
    [reflexivity|exfalso].
  assert (In e (detect_cvv_from_context s)) as H by (rewrite E; now left).
  destruct (cvv_candidate_shape s e H)
    as [_ [_ [a [w [b [Es [_ [_ [_ [Hw Hl]]]]]]]]]].
  destruct w as [|d w]; [cbn in Hl; lia|].
  unfold all_digits in Hw. cbn [forallb] in Hw.
  apply andb_true_iff in Hw as [Hd _].
  rewrite (Hnd d) in Hd; [discriminate|].
  rewrite Es. apply in_or_app. right. now left.
Qed.

Lemma no_digit_no_cvv_witness :
  let s := str "Please send the security code by post." in
  (forall c, In c s -> is_digit c = false)
  /\ detect_cvv_from_context s = [].
Proof.
  intros s.
  assert (forall c, In c s -> is_digit c = false) as H.
  { apply Forall_forall. unfold s. repeat constructor. }
  split; [exact H|exact (no_digit_no_cvv s H)].
Defined.

(** ** The proximity pass needs a card-related word *)

Lemma denotes_lit (cs w : text) :
  Regex.denotes (seq_of (map (fun a => Cls (is_char a)) cs)) w -> w = cs.
Proof.
  revert w. induction cs as [|a cs IH]; intros w H.
  - exact H.
  - destruct cs as [|b cs].
    + cbn in H. destruct H as [c [-> Hc]]. apply is_char_eq in Hc. now subst.
    + change (seq_of (map (fun a => Cls (is_char a)) (a :: b :: cs)))
        with (Seq (Cls (is_char a))
                  (seq_of (map (fun a => Cls (is_char a)) (b :: cs)))) in H.
      cbn [Regex.denotes] in H.
      destruct H as [w1 [w2 [-> [[c [-> Hc]] H2]]]].
      apply is_char_eq in Hc. subst c. apply IH in H2. now subst.
Qed.

(** A whole-word hit is, in particular, an occurrence of the word. *)
Lemma search_whole_word_occurs (keyword : string) (ctx : text) :
  search (whole_word keyword) ctx = true -> occurs (str keyword) ctx.
Proof.
  unfold search. destruct (finditer (whole_word keyword) ctx) as [|m l] eqn:E;
    [discriminate|]. intros _.
  assert (In m (finditer (whole_word keyword) ctx)) as H
    by (rewrite E; now left).
  apply finditer_reach in H as [pre [rest [st' [-> [Hr _]]]]].
  apply Regex.reach_denotes in Hr as [w [Hd [Er _]]].
  cbn [m_rest] in Er. unfold whole_word in Hd.
  cbn [seq_of Regex.denotes] in Hd.
  destruct Hd as [w0 [w1 [-> [-> [w2 [w3 [-> [Hl ->]]]]]]]].
  apply denotes_lit in Hl. subst w2. cbn [app] in Er.
  rewrite app_nil_r in Er. exists pre, (m_rest st'). now rewrite Er.
Qed.

Lemma slice_occurs (s : text) (i j : Z) : occurs (slice s i j) s.
Proof.
  unfold slice.
  set (m := Z.to_nat (slice_bound (len s) i)).
  set (n := Z.to_nat (slice_bound (len s) j - slice_bound (len s) i)).
  exists (firstn m s), (skipn n (skipn m s)).
  now rewrite firstn_skipn, firstn_skipn.
Qed.

Lemma occurs_trans (kw w s : text) : occurs kw w -> occurs w s -> occurs kw s.
Proof.
  intros [a [b ->]] [c [d ->]]. exists (c ++ a), (b ++ d).
  now rewrite <- !app_assoc.
Qed.

Lemma occurs_lower (w s : text) : occurs w s -> occurs (lower w) (lower s).
Proof.
  intros [a [b ->]]. exists (lower a), (lower b).
  unfold lower. now rewrite !map_app.
Qed.

Lemma card_context_occurs (s : text) (m : rx_match) :
  has_card_context s m = true ->
  exists keyword, In keyword card_keywords
                  /\ occurs (str keyword) (lower s).
Proof.
  unfold has_card_context. intros H.
  apply existsb_exists in H as [keyword [Hin H]].
  exists keyword. split; [exact Hin|].
  apply search_whole_word_occurs in H.
  eapply occurs_trans; [exact H|]. apply occurs_lower, slice_occurs.
Qed.

(** X8. When none of the words card, credit, debit, payment, expire,
    expiry, valid occurs in the lower-cased text, the second pass adds
    nothing: the detector returns the keyword-anchored candidates alone. *)
Theorem no_card_word_no_proximity (s : text) :
  (forall keyword, In keyword card_keywords ->
                   ~ occurs (str keyword) (lower s)) ->
  detect_cvv_from_context s = keyword_pass s.
Proof.
  intros Hno. unfold detect_cvv_from_context.
  generalize (keyword_pass s) as acc.
  induction (finditer digit_pattern s) as [|m ms IH]; intros acc;
    cbn [fold_left]; [reflexivity|].
  destruct (proximity_step_cases s acc m) as [E|[_ Hc]].
  - rewrite E. apply IH.
  - exfalso. apply card_context_occurs in Hc as [keyword [Hin Hoc]].
    exact (Hno keyword Hin Hoc).
Qed.

Lemma no_card_word_no_proximity_witness :
  let s := str "Zip: 123, CVV: 456" in
  (forall keyword, In keyword card_keywords ->
                   ~ occurs (str keyword) (lower s))
  /\ detect_cvv_from_context s = keyword_pass s.
Proof.
  intros s.
  assert (forall keyword, In keyword card_keywords ->
                          ~ occurs (str keyword) (lower s)) as H.
  { assert (Forall (fun keyword => str_in (str keyword) (lower s) = false)
                     card_keywords) as Hall
      by (repeat constructor).
    intros keyword Hin Hoc. apply str_in_occurs in Hoc.
    eapply Forall_forall in Hall; [|exact Hin]. cbn beta in Hall.
    congruence. }
  split; [exact H|exact (no_card_word_no_proximity s H)].
Defined.

(** ** The spans added by the proximity pass are new *)

Definition span (e : entity) : Z * Z := (start e, end_ e).

Lemma fresh_spans_new (later : list entity) :
  forall before,
    fresh_spans before later ->
    NoDup (map span later)
    /\ forall x y, In x before -> In y later -> span x <> span y.
Proof.
  induction later as [|e l IH]; intros before H; cbn [fresh_spans map] in *.
  - split; [constructor|intros x y _ []].
  - destruct H as [Hnew Hrest]. destruct (IH _ Hrest) as [Hnd Hsep].
    split.
    + constructor; [|exact Hnd]. intros Hin.
      apply in_map_iff in Hin as [y [Ey Hy]].
      apply (Hsep e y); [apply in_or_app; right; now left|exact Hy|].
      now symmetry.
    + intros x y Hx [<-|Hy].
      * intros E. apply (Hnew x Hx). unfold span in E.
        now injection E.
      * apply Hsep; [apply in_or_app; now left|exact Hy].
Qed.

(** X9. The detector's result is the keyword-anchored candidates followed
    by those of the proximity pass; no two proximity candidates have the
    same span, and none has the span of a keyword-anchored candidate. *)
Theorem proximity_candidates_are_new (s : text) :
  exists later,
    detect_cvv_from_context s = keyword_pass s ++ later
    /\ NoDup (map span later)
    /\ (forall x y, In x (keyword_pass s) -> In y later -> span x <> span y)
    /\ Forall (fun y => score y = 0.7%float) later.
Proof.
  unfold detect_cvv_from_context.
  destruct (proximity_fold_fresh s (finditer digit_pattern s) (keyword_pass s))
    as [later [E Hf]].
  destruct (proximity_fold_app s (finditer digit_pattern s) (keyword_pass s))
    as [later' [E' Hs]].
  assert (later' = later) as -> by (rewrite E in E'; now apply app_inv_head in E').
  exists later. split; [exact E|].
  destruct (fresh_spans_new later _ Hf) as [Hnd Hsep].
  split; [exact Hnd|]. split; [exact Hsep|].
  eapply Forall_impl; [|exact Hs]. now intros y [_ Hy].
Qed.

(** ** [mask_pii] and the cleaning done before it *)

Lemma clean_text_twice (x : text) : clean_text (clean_text x) = clean_text x.
Proof.
  rewrite (Clean.clean_text_steps (clean_text x)).
  rewrite (Clean.tagfree_untag _ (Clean.clean_tagfree x)).
  rewrite (Clean.collapsed_squeeze _ (Clean.clean_collapsed x)).
  rewrite Clean.clean_text_steps. apply Clean.strip_idem.
Qed.

(** X10. [mask_pii] cleans its argument itself, so cleaning it beforehand,
    as [email_processing_api] does, changes nothing: the outcome for the
    cleaned text is the outcome for the text. *)
Theorem mask_pii_of_cleaned
    (analyze : text -> option (list recognizer_result))
    (anonymize : text -> list entity -> option text) (s : text) :
  mask_pii analyze anonymize (clean_text s) = mask_pii analyze anonymize s.
Proof. unfold mask_pii. now rewrite clean_text_twice. Qed.

Lemma Sorted_map {A B : Type} (f : A -> B) (R : B -> B -> Prop) (l : list A) :
  Sorted (fun a b => R (f a) (f b)) l -> Sorted R (map f l).
Proof.
  induction 1 as [|a l Hs IH Hhd]; cbn [map]; constructor; [exact IH|].
  destruct Hhd; cbn [map]; constructor. assumption.
Qed.

Lemma masked_of_resolved (entities : list entity) :
  masked_entities_of (resolve_overlapping_entities entities)
  = map to_masked (resolve_overlapping_entities entities).
Proof.
  unfold masked_entities_of. apply sort_by_sorted_id.
  apply Sorted_map. unfold key_le. cbn [to_masked position fst].
  eapply Sorted_weaken; [|apply Resolver.follows_sorted].
  now intros a b [? _].
Qed.

(** X11. The sort at the end of [mask_pii] never moves a record: resolved
    entities are already in ascending order of [start], so the records
    are, one for one and in the same order, the entities handed to the
    anonymizer, each with its position and text. *)
Theorem records_parallel_entities (s : text)
    (analyzer_results : list recognizer_result) :
  let entities := resolved_entities_of s analyzer_results in
  masked_entities_of entities = map to_masked entities
  /\ List.length (masked_entities_of entities) = List.length entities
  /\ forall i e, nth_error entities i = Some e ->
       exists r, nth_error (masked_entities_of entities) i = Some r
                 /\ position r = (start e, end_ e)
                 /\ entity_value r = entity_text e.
Proof.
  intros entities.
  assert (masked_entities_of entities = map to_masked entities) as E
    by apply masked_of_resolved.
  rewrite E. split; [reflexivity|]. split; [apply length_map|].
  intros i e Hi. exists (to_masked e).
  split; [now apply map_nth_error|now split].
Qed.

Definition valid_result (n : Z) (r : recognizer_result) : Prop :=
  0 <= rr_start r < rr_end r /\ rr_end r <= n.

Definition valid_record (n : Z) (r : masked_entity) : Prop :=
  0 <= fst (position r) < snd (position r) /\ snd (position r) <= n.

Lemma resolved_valid (s : text) (analyzer_results : list recognizer_result) :
  Forall (valid_result (len s)) analyzer_results ->
  Forall (fun e => 0 <= start e < end_ e /\ end_ e <= len s)
         (resolved_entities_of s analyzer_results).
Proof.
  intros Hv. unfold resolved_entities_of. apply Forall_forall. intros e He.
  apply Resolver.resolve_incl in He. unfold post_process_dates in He.
  apply in_map_iff in He as [e0 [<- H0]].
  destruct (reclassify_same s e0) as [E1 [E2 _]]. rewrite E1, E2.
  apply in_app_or in H0 as [H0|H0].
  - apply in_map_iff in H0 as [r [<- Hr]].
    eapply Forall_forall in Hv; [|exact Hr]. exact Hv.
  - destruct (cvv_candidate_shape s e0 H0)
      as [_ [_ [a [w [b [Es [Ea [Eb [_ [_ Hl]]]]]]]]]].
    assert (len s = len a + len w + len b) as Hlen
      by (rewrite Es; unfold len; rewrite !length_app; lia).
    unfold len in *. lia.
Qed.

(** X12. When every span the analyzer reports satisfies
    [0 <= start < end <= len(cleaned_text)], so does the position of every
    record, and the records are pairwise disjoint and in ascending order:
    each one ends at or before the start of every later one. *)
Theorem valid_analyzer_valid_records (s : text)
    (analyzer_results : list recognizer_result) :
  Forall (valid_result (len s)) analyzer_results ->
  let records := masked_entities_of (resolved_entities_of s analyzer_results) in
  Forall (valid_record (len s)) records
  /\ StronglySorted
       (fun a b => snd (position a) <= fst (position b)) records.
Proof.
  intros Hv records. unfold records, resolved_entities_of at 1 2.
  rewrite !masked_of_resolved.
  fold (resolved_entities_of s analyzer_results).
  pose proof (resolved_valid s analyzer_results Hv) as Hval.
  split.
  - apply Forall_map. eapply Forall_impl; [|exact Hval].
    intros e He. exact He.
  - assert (StronglySorted
              (fun a b => start a < start b /\ end_ a <= start b)
              (resolved_entities_of s analyzer_results)) as Hss.
    { apply Resolver.follows_all_pairs.
      - eapply Forall_impl; [|exact Hval].
        intros e [He _]. unfold Resolver.nonempty_span. lia.
      - apply Resolver.follows_sorted. }
    induction Hss as [|e l Hl IH Hall]; cbn [map]; constructor.
    + apply IH. now inversion Hval.
    + apply Forall_map. eapply Forall_impl; [|exact Hall].
      cbn. intros b [_ H]. exact H.
Qed.

Lemma valid_analyzer_valid_records_witness :
  let s := str "Contact John at john@example.com or 555-123-4567." in
  let results := [mkResult "PERSON" 8 12 0.85%float;
                  mkResult "EMAIL_ADDRESS" 16 32 1.0%float;
                  mkResult "PHONE_NUMBER" 36 48 0.8%float] in
  Forall (valid_result (len s)) results
  /\ Forall (valid_record (len s))
       (masked_entities_of (resolved_entities_of s results)).
Proof.
  intros s results.
  assert (Forall (valid_result (len s)) results) as H
    by (repeat constructor; vm_compute; congruence).
  split; [exact H|].
  exact (proj1 (valid_analyzer_valid_records s results H)).
Defined.

(** ** The request handler *)

(** The request carries JSON with a non-empty string under
    ["input_email_body"]. *)
Definition well_formed (req : request) : Prop :=
  is_json req = true
  /\ exists body, input_email_body req = PyStr body /\ body <> [].

Lemma well_formed_dec (req : request) :
  {body | is_json req = true /\ input_email_body req = PyStr body
          /\ body <> []}
  + {~ well_formed req}.
Proof.
  destruct req as [[|] [|[|c body]|t]]; cbn;
    try (right; unfold well_formed; cbn;
         intros [H [b [E Hb]]]; congruence).
  left. exists (c :: body). repeat split; discriminate.
Qed.

(** X13. The handler answers 400 exactly when the request is not JSON or
    the value under ["input_email_body"] is not a non-empty string
    (missing, [None], empty, or of another type); in that case neither
    the analyzer, the anonymizer nor the classifier is consulted.  Its
    status is always 200, 400 or 500. *)
Theorem api_validation
    (analyze : text -> option (list recognizer_result))
    (anonymize : text -> list entity -> option text)
    (classify_email : text -> option string) (req : request) :
  let response := email_processing_api analyze anonymize classify_email req in
  (snd response = 400 <-> ~ well_formed req)
  /\ ((~ well_formed req) ->
      (exists msg, fst response = ErrorBody msg)
      /\ forall analyze' anonymize' classify_email',
           email_processing_api analyze' anonymize' classify_email' req
           = response)
  /\ (snd response = 200 \/ snd response = 400 \/ snd response = 500).
Proof.
  intros response. unfold response.
  destruct (well_formed_dec req) as [[body [Hj [Hb Hne]]]|Hbad].
  - assert (well_formed req) as Hwf by (split; [exact Hj|eauto]).
    unfold email_processing_api. rewrite Hj, Hb.
    destruct body as [|c body]; [congruence|]. cbn [negb truthy is_str orb].
    destruct (mask_pii analyze anonymize _) as [[m r]|];
      [destruct (classify_email m)|]; cbn [snd fst];
      (split; [split; [discriminate|tauto]|]);
      (split; [tauto|]); auto.
  - assert (forall an ano cl,
               email_processing_api an ano cl req
               = (ErrorBody (if is_json req then
                               "Invalid or missing 'input_email_body'"
                             else "Request must be JSON"), 400)) as E.
    { intros an ano cl. unfold email_processing_api.
      destruct req as [[|] [|[|c body]|[|]]]; try reflexivity.
      exfalso. apply Hbad. split; [reflexivity|].
      exists (c :: body). split; [reflexivity|discriminate]. }
    rewrite E. cbn [snd fst].
    split; [tauto|]. split; [|auto].
    intros _. split; [eauto|]. intros an ano cl. apply E.
Qed.

(** X14. For a JSON request whose ["input_email_body"] is a non-empty
    string, the handler answers 500 when the analyzer, the anonymizer or
    the classifier raises, and otherwise 200 with the body echoed as it
    was sent, the masked text and records of [mask_pii] for that body, and
    the category the classifier gives for the masked text.  The positions
    of the records refer to the cleaned body: each record holds the slice
    of [clean_text(body)] at its position. *)
Theorem api_outcome
    (analyze : text -> option (list recognizer_result))
    (anonymize : text -> list entity -> option text)
    (classify_email : text -> option string) (req : request) (body : text) :
  is_json req = true ->
  input_email_body req = PyStr body ->
  body <> [] ->
  match mask_pii analyze anonymize body with
  | None =>
      email_processing_api analyze anonymize classify_email req
      = (InternalErrorBody, 500)
  | Some (masked_email, records) =>
      Forall (fun r => entity_value r
                       = slice (clean_text body)
                           (fst (position r)) (snd (position r))) records
      /\ match classify_email masked_email with
         | None =>
             email_processing_api analyze anonymize classify_email req
             = (InternalErrorBody, 500)
         | Some category =>
             email_processing_api analyze anonymize classify_email req
             = (ResultBody body records masked_email category, 200)
         end
  end.
Proof.
  intros Hj Hb Hne. unfold email_processing_api. rewrite Hj, Hb.
  destruct body as [|c body]; [congruence|]. cbn [negb truthy is_str orb].
  assert (mask_pii analyze anonymize (clean_text (c :: body))
          = mask_pii analyze anonymize (c :: body)) as ->
    by (unfold mask_pii; now rewrite clean_text_twice).
  destruct (mask_pii analyze anonymize (c :: body)) as [[m r]|] eqn:E;
    [|reflexivity].
  split; [|now destruct (classify_email m)].
  unfold mask_pii in E.
  destruct (analyze (clean_text (c :: body))) as [results|]; [|discriminate].
  destruct (anonymize _ _); [|discriminate]. injection E as _ <-.
  unfold masked_entities_of.
  eapply Permutation_Forall; [apply sort_by_perm|].
  apply Forall_map. eapply Forall_impl; [|apply resolved_faithful].
  intros e He. exact He.
Qed.

Lemma api_outcome_witness :
  let analyze := fun _ : text => Some [mkResult "PERSON" 6 9 0.85%float] in
  let anonymize := fun (t : text) (_ : list entity) =>
                     Some (str "Hello [full_name]") in
  let classify_email := fun _ : text => Some "Request"%string in
  let req := mkRequest true (PyStr (str "<p>Hello   Ann</p>")) in
  is_json req = true
  /\ email_processing_api analyze anonymize classify_email req
     = (ResultBody (str "<p>Hello   Ann</p>")
          [mkMasked (6, 9) "full_name" (str "Ann")]
          (str "Hello [full_name]") "Request", 200).
Proof.
  intros analyze anonymize classify_email req. split; [reflexivity|].
  pose proof (api_outcome analyze anonymize classify_email req
                (str "<p>Hello   Ann</p>") eq_refl eq_refl
                ltac:(discriminate)) as H.
  vm_compute in H. vm_compute. exact (proj2 H).
Defined.

(** ** What [clean_text] leaves of a text *)

Lemma untag_length (s : text) :
  forall k, (List.length (Clean.untag s k) <= List.length s)%nat.
Proof.
  induction s as [|c t IH]; intros k.
  - now rewrite Clean.untag_nil.
  - destruct k as [|k].
    + rewrite Clean.untag_cons.
      destruct (Clean.tag_len (c :: t)) as [[|n]|]; cbn [List.length];
        try (specialize (IH 0%nat); lia).
      specialize (IH n). lia.
    + change (Clean.untag (c :: t) (S k)) with (Clean.untag t k).
      specialize (IH k). cbn [List.length]. lia.
Qed.

Lemma squeeze_length (s : text) :
  forall k, (List.length (Clean.squeeze s k) <= List.length s)%nat.
Proof.
  induction s as [|c t IH]; intros k.
  - now rewrite Clean.squeeze_nil.
  - destruct k as [|k].
    + rewrite Clean.squeeze_cons. destruct (is_space c); cbn [List.length].
      * specialize (IH (Clean.run is_space t)). lia.
      * specialize (IH 0%nat). lia.
    + change (Clean.squeeze (c :: t) (S k)) with (Clean.squeeze t k).
      specialize (IH k). cbn [List.length]. lia.
Qed.

Lemma lstrip_length (s : text) : (List.length (lstrip s) <= List.length s)%nat.
Proof.
  induction s as [|c t IH]; [reflexivity|]. cbn [lstrip].
  destruct (is_space c); cbn [List.length] in *; lia.
Qed.

Lemma rstrip_length (s : text) : (List.length (rstrip s) <= List.length s)%nat.
Proof.
  induction s as [|c t IH]; [reflexivity|]. rewrite Clean.rstrip_cons.
  destruct (rstrip t); [destruct (is_space c)|]; cbn [List.length] in *; lia.
Qed.

Lemma lstrip_In (s : text) : forall x, In x (lstrip s) -> In x s.
Proof.
  induction s as [|c t IH]; intros x H; [exact H|]. cbn [lstrip] in H.
  destruct (is_space c); [right; now apply IH|exact H].
Qed.

(** X15. Cleaning never lengthens a text and never brings in a character:
    each character of the result is a character of the text, or the space
    put in place of a run of whitespace. *)
Theorem clean_text_shrinks (s : text) :
  (List.length (clean_text s) <= List.length s)%nat
  /\ forall c, In c (clean_text s) -> In c s \/ c = " "%char.
Proof.
  rewrite Clean.clean_text_steps. unfold strip. split.
  - pose proof (rstrip_length (lstrip (Clean.squeeze (Clean.untag s 0) 0))).
    pose proof (lstrip_length (Clean.squeeze (Clean.untag s 0) 0)).
    pose proof (squeeze_length (Clean.untag s 0) 0).
    pose proof (untag_length s 0). lia.
  - intros c H. apply Clean.rstrip_In, lstrip_In, Clean.squeeze_In in H.
    destruct H as [H|H]; [left|now right].
    exact (Clean.untag_In s 0 c H).
Qed.

(** *** Without a [<], only whitespace is touched *)

Definition not_space (c : ascii) : bool := negb (is_space c).

Lemma no_lt_tagfree (s : text) : ~ In "<"%char s -> Clean.tagfree s.
Proof.
  induction s as [|c t IH]; [intros _; exact I|]. intros H.
  cbn [Clean.tagfree].
  split; [|apply IH; intros Hin; apply H; now right].
  unfold Clean.tag_len. destruct (is_char "<" c) eqn:E; [|reflexivity].
  apply is_char_eq in E. subst c. exfalso. apply H. now left.
Qed.

Lemma squeeze_keeps_words (s : text) :
  forall k, (k <= Clean.run is_space s)%nat ->
            filter not_space (Clean.squeeze s k) = filter not_space s.
Proof.
  induction s as [|c t IH]; intros k Hk.
  - now rewrite Clean.squeeze_nil.
  - destruct k as [|k].
    + rewrite Clean.squeeze_cons. unfold not_space at 2. cbn [filter].
      destruct (is_space c) eqn:Hc; cbn [filter negb].
      * apply IH. lia.
      * unfold not_space at 1. rewrite Hc. cbn [negb]. f_equal.
        apply IH. lia.
    + change (Clean.squeeze (c :: t) (S k)) with (Clean.squeeze t k).
      cbn [Clean.run] in Hk. cbn [filter]. unfold not_space at 2.
      destruct (is_space c); [|lia]. cbn [negb]. apply IH. lia.
Qed.

Lemma lstrip_keeps_words (s : text) :
  filter not_space (lstrip s) = filter not_space s.
Proof.
  induction s as [|c t IH]; [reflexivity|]. cbn [lstrip filter].
  unfold not_space at 2. destruct (is_space c) eqn:Hc; cbn [negb];
    [exact IH|].
  cbn [filter]. unfold not_space at 1. now rewrite Hc.
Qed.

Lemma rstrip_keeps_words (s : text) :
  filter not_space (rstrip s) = filter not_space s.
Proof.
  induction s as [|c t IH]; [reflexivity|]. rewrite Clean.rstrip_cons.
  cbn [filter]. rewrite <- IH.
  destruct (rstrip t) as [|d r]; [|reflexivity].
  unfold not_space. destruct (is_space c) eqn:Hc; cbn [negb filter];
    [reflexivity|].
  unfold not_space. now rewrite Hc.
Qed.

(** X16. In a text without [<], cleaning touches whitespace only: the
    characters that are not whitespace come out all of them, in their
    order. *)
Theorem clean_text_keeps_words (s : text) :
  ~ In "<"%char s ->
  filter not_space (clean_text s) = filter not_space s.
Proof.
  intros H. rewrite Clean.clean_text_steps. unfold strip.
  rewrite rstrip_keeps_words, lstrip_keeps_words.
  rewrite (Clean.tagfree_untag s (no_lt_tagfree s H)).
  apply squeeze_keeps_words. lia.
Qed.

Lemma clean_text_keeps_words_witness :
  let s := str "  total > 40,   see
 attached  " in
  ~ In "<"%char s
  /\ filter not_space (clean_text s) = filter not_space s.
Proof.
  intros s.
  assert (~ In "<"%char s) as H.
  { intros Hin. unfold s in Hin. cbn in Hin.
    repeat (destruct Hin as [Hin|Hin]; [discriminate|]). exact Hin. }
  split; [exact H|exact (clean_text_keeps_words s H)].
Defined.

(** ** The other pattern recognizers *)

(** What a candidate of a pattern recognizer is: the recognizer's type and
    score on a word [w] of the pattern, found in the text between [a] and
    [b]; [st'] is where the matcher stood at the end of [w]. *)
Lemma recognizer_candidate (ty : string) (pattern : regex) (sc : float)
    (s : text) (r : recognizer_result) :
  In r (pattern_recognizer ty pattern sc s) ->
  rr_entity_type r = ty /\ rr_score r = sc
  /\ exists a w b st',
       s = a ++ w ++ b
       /\ rr_start r = len a /\ rr_end r = len a + len w
       /\ Regex.denotes pattern w
       /\ Regex.reach pattern
            (mkState (char_before a) (List.length a) (w ++ b) []) st'
       /\ m_rest st' = b
       /\ m_prev st' = last (map Some w) (char_before a).
Proof.
  unfold pattern_recognizer. intros H.
  apply in_map_iff in H as [m [<- Hm]].
  split; [reflexivity|]. split; [reflexivity|].
  apply finditer_reach in Hm as [pre [rest [st' [-> [Hr ->]]]]].
  pose proof (Regex.reach_denotes _ _ _ Hr) as [w [Hd [Er [Hp Hl]]]].
  cbn [m_rest m_pos m_prev] in Er, Hp, Hl.
  exists pre, w, (m_rest st'), st'. cbn [rr_start rr_end mt_start mt_end].
  rewrite Er in *. unfold len. rewrite Hp.
  repeat split; try assumption; lia.
Qed.

Lemma reach_first_boundary (l : list regex) (st st' : mstate) :
  Regex.reach (seq_of (WordB :: l)) st st' -> at_boundary st = true.
Proof.
  destruct l as [|r l]; cbn [seq_of Regex.reach].
  - now intros [H _].
  - now intros [mid [[H ->] _]].
Qed.

Lemma reach_last_boundary (l : list regex) :
  forall st st',
    Regex.reach (seq_of (l ++ [WordB])) st st' -> at_boundary st' = true.
Proof.
  induction l as [|r l IH]; intros st st' H.
  - cbn in H. now destruct H as [H ->].
  - assert (seq_of ((r :: l) ++ [WordB]) = Seq r (seq_of (l ++ [WordB])))
      as E by (cbn [app seq_of]; now destruct l).
    rewrite E in H. cbn [Regex.reach] in H. destruct H as [mid [_ H]].
    exact (IH _ _ H).
Qed.

(** A word that begins and ends with a word character. *)
Definition word_ends (w : text) : Prop :=
  exists c t, w = c :: t /\ is_word c = true
              /\ is_word_opt (last (map Some w) None) = true.

(** Between two [\b], such a word has no word character next to it. *)
Lemma bounded_word (a w b : text) (n : nat) (st' : mstate) :
  word_ends w ->
  at_boundary (mkState (char_before a) n (w ++ b) []) = true ->
  at_boundary st' = true ->
  m_rest st' = b ->
  m_prev st' = last (map Some w) (char_before a) ->
  is_word_opt (char_before a) = false /\ is_word_opt (hd_error b) = false.
Proof.
  intros [c [t [-> [Hc Hl]]]] H1 H2 Er Ep. unfold at_boundary in H1, H2.
  cbn [m_prev m_rest app hd_error is_word_opt] in H1.
  rewrite Hc in H1. rewrite Er, Ep in H2. cbn [map] in H2, Hl.
  rewrite Regex.last_cons in H2, Hl. rewrite Hl in H2. split.
  - now destruct (is_word_opt (char_before a)).
  - now destruct (is_word_opt (hd_error b)).
Qed.

(** Four digits. *)
Definition four_digits (g : text) : Prop :=
  List.length g = 4%nat /\ forallb is_digit g = true.

Lemma denotes_four_digits (g : text) :
  Regex.denotes (times is_digit 4 4) g -> four_digits g.
Proof.
  unfold times. cbn [Regex.denotes Regex.within]. unfold four_digits.
  intros [H1 [H2 H3]]. split; [lia|exact H1].
Qed.

Lemma digit_word (c : ascii) : is_digit c = true -> is_word c = true.
Proof. unfold is_word, is_digit. now intros ->. Qed.

Lemma digits_word_ends (g1 mid g2 : text) :
  four_digits g1 -> four_digits g2 -> word_ends (g1 ++ mid ++ g2).
Proof.
  intros [L1 D1] [L2 D2].
  destruct g1 as [|c g1]; [discriminate|].
  exists c, (g1 ++ mid ++ g2). split; [reflexivity|].
  cbn [forallb] in D1. apply andb_true_iff in D1 as [Dc _].
  split; [now apply digit_word|].
  destruct (@exists_last _ g2) as [l [y E]]; [intros ->; discriminate|].
  rewrite E, !app_assoc, map_app, Regex.last_app. cbn [map last is_word_opt].
  apply digit_word. rewrite E, forallb_app in D2.
  apply andb_true_iff in D2 as [_ D2]. cbn in D2.
  now rewrite andb_true_r in D2.
Qed.

(** X17. Every candidate of the national-id recognizer is typed AADHAR_NUM
    with confidence 0.9 and covers fourteen characters of the text: three
    groups of four digits, separated by one whitespace character each,
    with no word character directly before or after. *)
Theorem aadhar_candidates (s : text) (r : recognizer_result) :
  In r (aadhar_recognizer s) ->
  rr_entity_type r = "AADHAR_NUM"%string
  /\ rr_score r = 0.9%float
  /\ exists a g1 s1 g2 s2 g3 b,
       s = a ++ (g1 ++ s1 :: g2 ++ s2 :: g3) ++ b
       /\ rr_start r = len a /\ rr_end r = len a + 14
       /\ four_digits g1 /\ four_digits g2 /\ four_digits g3
       /\ is_space s1 = true /\ is_space s2 = true
       /\ is_word_opt (char_before a) = false
       /\ is_word_opt (hd_error b) = false.
Proof.
  intros H. apply recognizer_candidate in H
    as [Ht [Hs [a [w [b [st' [Es [E1 [E2 [Hd [Hr [Er Ep]]]]]]]]]]]].
  split; [exact Ht|]. split; [exact Hs|].
  pose proof (reach_first_boundary _ _ _ Hr) as Hb1.
  pose proof (reach_last_boundary
                [WordB; times is_digit 4 4; Cls is_space; times is_digit 4 4;
                 Cls is_space; times is_digit 4 4] _ _ Hr) as Hb2.
  cbn [aadhar_pattern seq_of Regex.denotes] in Hd.
  destruct Hd as [w0 [w1 [-> [-> Hd]]]].
  destruct Hd as [g1 [w2 [-> [G1 Hd]]]].
  destruct Hd as [x1 [w3 [-> [[s1 [-> S1]] Hd]]]].
  destruct Hd as [g2 [w4 [-> [G2 Hd]]]].
  destruct Hd as [x2 [w5 [-> [[s2 [-> S2]] Hd]]]].
  destruct Hd as [g3 [w6 [-> [G3 ->]]]].
  apply denotes_four_digits in G1, G2, G3.
  cbn [app] in *. rewrite app_nil_r in *.
  exists a, g1, s1, g2, s2, g3, b.
  assert (word_ends (g1 ++ s1 :: g2 ++ s2 :: g3)) as Hw.
  { replace (g1 ++ s1 :: g2 ++ s2 :: g3)
      with (g1 ++ (s1 :: g2 ++ [s2]) ++ g3)
      by (cbn [app]; now rewrite <- app_assoc).
    now apply digits_word_ends. }
  destruct (bounded_word _ _ _ _ _ Hw Hb1 Hb2 Er Ep) as [B1 B2].
  destruct G1 as [L1 D1], G2 as [L2 D2], G3 as [L3 D3].
  assert (len (g1 ++ s1 :: g2 ++ s2 :: g3) = 14) as Hlen
    by (unfold len; rewrite !length_app; cbn [List.length];
        rewrite !length_app; cbn [List.length]; lia).
  unfold four_digits. rewrite Hlen in E2.
  repeat split; assumption.
Qed.

Lemma aadhar_candidates_witness :
  let s := str "id 1234 5678 9012." in
  let r := mkResult "AADHAR_NUM" 3 17 0.9%float in
  In r (aadhar_recognizer s)
  /\ rr_entity_type r = "AADHAR_NUM"%string /\ rr_score r = 0.9%float.
Proof.
  intros s r.
  assert (In r (aadhar_recognizer s)) as H by (vm_compute; left; reflexivity).
  split; [exact H|].
  destruct (aadhar_candidates s r H) as [Ht [Hs _]]. now split.
Defined.

(** At most one character, a [-] or whitespace. *)
Definition optional_separator (o : text) : Prop :=
  (List.length o <= 1)%nat /\ forallb is_dash_or_space o = true.

Lemma denotes_card_group (w : text) :
  Regex.denotes card_group w ->
  exists g o, w = g ++ o /\ four_digits g /\ optional_separator o.
Proof.
  unfold card_group, opt. cbn [Regex.denotes Regex.within].
  intros [g [o [-> [G [Ho [_ Hl]]]]]]. exists g, o.
  split; [reflexivity|]. split; [now apply denotes_four_digits|].
  now split.
Qed.

(** X18. Every candidate of the payment-card recognizer is typed
    CREDIT_DEBIT_NO with confidence 0.85 and covers sixteen digits of the
    text in four groups of four, each of the first three followed by at
    most one [-] or whitespace character: sixteen to nineteen characters,
    with no word character directly before or after. *)
Theorem credit_card_candidates (s : text) (r : recognizer_result) :
  In r (credit_card_recognizer s) ->
  rr_entity_type r = "CREDIT_DEBIT_NO"%string
  /\ rr_score r = 0.85%float
  /\ exists a g1 o1 g2 o2 g3 o3 g4 b,
       s = a ++ (g1 ++ o1 ++ g2 ++ o2 ++ g3 ++ o3 ++ g4) ++ b
       /\ rr_start r = len a
       /\ rr_end r = len a + 16 + len o1 + len o2 + len o3
       /\ 16 <= rr_end r - rr_start r <= 19
       /\ four_digits g1 /\ four_digits g2 /\ four_digits g3
       /\ four_digits g4
       /\ optional_separator o1 /\ optional_separator o2
       /\ optional_separator o3
       /\ is_word_opt (char_before a) = false
       /\ is_word_opt (hd_error b) = false.
Proof.
  intros H. apply recognizer_candidate in H
    as [Ht [Hs [a [w [b [st' [Es [E1 [E2 [Hd [Hr [Er Ep]]]]]]]]]]]].
  split; [exact Ht|]. split; [exact Hs|].
  pose proof (reach_first_boundary _ _ _ Hr) as Hb1.
  pose proof (reach_last_boundary
                [WordB; card_group; card_group; card_group;
                 times is_digit 4 4] _ _ Hr) as Hb2.
  cbn [credit_card_pattern seq_of] in Hd.
  cbn [Regex.denotes] in Hd.
  destruct Hd as [w0 [w1 [-> [-> Hd]]]].
  destruct Hd as [c1 [w2 [-> [C1 Hd]]]].
  destruct Hd as [c2 [w3 [-> [C2 Hd]]]].
  destruct Hd as [c3 [w4 [-> [C3 Hd]]]].
  destruct Hd as [g4 [w5 [-> [G4 ->]]]].
  apply denotes_card_group in C1 as [g1 [o1 [-> [G1 O1]]]].
  apply denotes_card_group in C2 as [g2 [o2 [-> [G2 O2]]]].
  apply denotes_card_group in C3 as [g3 [o3 [-> [G3 O3]]]].
  apply denotes_four_digits in G4.
  cbn [app] in *. rewrite app_nil_r in *.
  assert ((g1 ++ o1) ++ (g2 ++ o2) ++ (g3 ++ o3) ++ g4
          = g1 ++ (o1 ++ g2 ++ o2 ++ g3 ++ o3) ++ g4) as Ew
    by (now rewrite <- !app_assoc).
  rewrite Ew in *.
  pose proof (digits_word_ends g1 (o1 ++ g2 ++ o2 ++ g3 ++ o3) g4 G1 G4) as Hw.
  destruct (bounded_word _ _ _ _ _ Hw Hb1 Hb2 Er Ep) as [B1 B2].
  exists a, g1, o1, g2, o2, g3, o3, g4, b.
  assert (len (g1 ++ (o1 ++ g2 ++ o2 ++ g3 ++ o3) ++ g4)
          = 16 + len o1 + len o2 + len o3) as Hlen.
  { destruct G1 as [L1 _], G2 as [L2 _], G3 as [L3 _], G4 as [L4 _].
    unfold len. rewrite !length_app. lia. }
  rewrite Hlen in E2.
  assert (0 <= len o1 <= 1 /\ 0 <= len o2 <= 1 /\ 0 <= len o3 <= 1)
    as [? [? ?]]
    by (destruct O1 as [? _], O2 as [? _], O3 as [? _]; unfold len; lia).
  split; [rewrite Es; now rewrite <- !app_assoc|].
  repeat (split; [first [assumption|lia]|]). assumption.
Qed.

Lemma credit_card_candidates_witness :
  let s := str "card 1234-5678 90123456 ok" in
  let r := mkResult "CREDIT_DEBIT_NO" 5 23 0.85%float in
  In r (credit_card_recognizer s)
  /\ 16 <= rr_end r - rr_start r <= 19.
Proof.
  intros s r.
  assert (In r (credit_card_recognizer s)) as H
    by (vm_compute; left; reflexivity).
  split; [exact H|].
  destruct (credit_card_candidates s r H)
    as [_ [_ [a [g1 [o1 [g2 [o2 [g3 [o3 [g4 [b [_ [_ [_ [Hl _]]]]]]]]]]]]]]].
  exact Hl.
Defined.

(** A day 01..31. *)
Definition day_ok (d1 d2 : ascii) : bool :=
  (is_char "0" d1 && between "1" "9" d2)
  || (one_of (str "12") d1 && between "0" "9" d2)
  || (is_char "3" d1 && one_of (str "01") d2).

(** A year 1900..2099. *)
Definition year_ok (y1 y2 y3 y4 : ascii) : bool :=
  ((is_char "1" y1 && is_char "9" y2) || (is_char "2" y1 && is_char "0" y2))
  && is_digit y3 && is_digit y4.

(** DD-MM-YYYY with [-] or [/] at either place. *)
Definition dob_shape (w : text) : bool :=
  match w with
  | [d1; d2; s1; m1; m2; s2; y1; y2; y3; y4] =>
      day_ok d1 d2 && one_of (str "-/") s1 && month_ok m1 m2
      && one_of (str "-/") s2 && year_ok y1 y2 y3 y4
  | _ => false
  end.

Lemma denotes_two (p q : ascii -> bool) (w : text) :
  Regex.denotes (Seq (Cls p) (Cls q)) w ->
  exists c d, w = [c; d] /\ p c = true /\ q d = true.
Proof.
  cbn [Regex.denotes]. intros [w1 [w2 [-> [[c [-> Hc]] [d [-> Hd]]]]]].
  now exists c, d.
Qed.

Lemma dob_words (w : text) :
  Regex.denotes dob_pattern w -> dob_shape w = true /\ word_ends w.
Proof.
  unfold dob_pattern. cbn [seq_of]. cbn [Regex.denotes].
  intros [w0 [w1 [-> [-> Hd]]]].
  destruct Hd as [wd [w2 [-> [Hday Hd]]]].
  destruct Hd as [x1 [w3 [-> [[s1 [-> S1]] Hd]]]].
  destruct Hd as [wm [w4 [-> [Hmon Hd]]]].
  destruct Hd as [x2 [w5 [-> [[s2 [-> S2]] Hd]]]].
  destruct Hd as [wc [w6 [-> [Hcen Hd]]]].
  destruct Hd as [wy [w7 [-> [Hy ->]]]].
  assert (exists d1 d2, wd = [d1; d2] /\ day_ok d1 d2 = true
                        /\ is_word d1 = true) as [d1 [d2 [-> [Hd1 Hw1]]]].
  { unfold day_ok.
    destruct Hday as [H|[H|H]]; apply denotes_two in H
      as [c [d [-> [Hc Hd']]]]; exists c, d; rewrite Hc, Hd';
      cbn [andb orb]; rewrite ?orb_true_r;
      (split; [reflexivity|]); (split; [reflexivity|]).
    - apply is_char_eq in Hc. now subst.
    - unfold one_of in Hc. cbn [existsb str list_ascii_of_string] in Hc.
      rewrite orb_false_r in Hc. apply orb_true_iff in Hc as [Hc|Hc];
        apply Ascii.eqb_eq in Hc; now subst.
    - apply is_char_eq in Hc. now subst. }
  assert (exists m1 m2, wm = [m1; m2] /\ month_ok m1 m2 = true)
    as [m1 [m2 [-> Hmo]]].
  { unfold month_ok.
    destruct Hmon as [H|H]; apply denotes_two in H
      as [c [d [-> [Hc Hd']]]]; exists c, d; rewrite Hc, Hd';
      cbn [andb orb]; rewrite ?orb_true_r; now split. }
  assert (exists y1 y2, wc = [y1; y2]
            /\ ((is_char "1" y1 && is_char "9" y2)
                || (is_char "2" y1 && is_char "0" y2)) = true)
    as [y1 [y2 [-> Hc]]].
  { destruct Hcen as [H|H]; apply denotes_two in H
      as [c [d [-> [Hc Hd']]]]; exists c, d; rewrite Hc, Hd';
      cbn [andb orb]; rewrite ?orb_true_r; now split. }
  unfold times in Hy. cbn [Regex.denotes Regex.within] in Hy.
  destruct Hy as [Hyd [Hy1 Hy2]].
  destruct wy as [|y3 [|y4 [|]]]; cbn [List.length] in Hy1, Hy2; try lia.
  cbn [forallb] in Hyd. rewrite andb_true_r in Hyd.
  apply andb_true_iff in Hyd as [Hy3 Hy4].
  cbn [app]. split.
  - cbn [dob_shape]. unfold year_ok. now rewrite Hd1, S1, Hmo, S2, Hc, Hy3, Hy4.
  - exists d1, [d2; s1; m1; m2; s2; y1; y2; y3; y4].
    split; [reflexivity|]. split; [exact Hw1|].
    cbn [map last is_word_opt]. now apply digit_word.
Qed.

(** X19. Every candidate of the date-of-birth recognizer is typed DOB with
    confidence 0.9 and covers ten characters of the text: a day 01-31, a
    month 01-12 and a year 1900-2099, with [-] or [/] between them (not
    necessarily the same twice), and no word character directly before or
    after. *)
Theorem dob_candidates (s : text) (r : recognizer_result) :
  In r (dob_recognizer s) ->
  rr_entity_type r = "DOB"%string
  /\ rr_score r = 0.9%float
  /\ exists a w b,
       s = a ++ w ++ b
       /\ rr_start r = len a /\ rr_end r = len a + 10
       /\ dob_shape w = true
       /\ is_word_opt (char_before a) = false
       /\ is_word_opt (hd_error b) = false.
Proof.
  intros H. apply recognizer_candidate in H
    as [Ht [Hs [a [w [b [st' [Es [E1 [E2 [Hd [Hr [Er Ep]]]]]]]]]]]].
  split; [exact Ht|]. split; [exact Hs|].
  pose proof (reach_first_boundary _ _ _ Hr) as Hb1.
  assert (at_boundary st' = true) as Hb2.
  { unfold dob_pattern in Hr.
    match type of Hr with
    | Regex.reach (seq_of [?a; ?b; ?c; ?d; ?e; ?f; ?g; WordB]) _ _ =>
        exact (reach_last_boundary [a; b; c; d; e; f; g] _ _ Hr)
    end. }
  apply dob_words in Hd as [Hsh Hw].
  destruct (bounded_word _ _ _ _ _ Hw Hb1 Hb2 Er Ep) as [B1 B2].
  exists a, w, b.
  assert (len w = 10) as Hlen.
  { destruct w as [|? [|? [|? [|? [|? [|? [|? [|? [|? [|? [|? ?]]]]]]]]]]];
      try discriminate. reflexivity. }
  rewrite Hlen in E2. repeat split; assumption.
Qed.

Lemma dob_candidates_witness :
  let s := str "DOB: 01-02-1990" in
  let r := mkResult "DOB" 5 15 0.9%float in
  In r (dob_recognizer s)
  /\ rr_entity_type r = "DOB"%string /\ rr_score r = 0.9%float.
Proof.
  intros s r.
  assert (In r (dob_recognizer s)) as H by (vm_compute; left; reflexivity).
  split; [exact H|].
  destruct (dob_candidates s r H) as [Ht [Hs _]]. now split.
Defined.

(** Exactly [n] digits. *)
Definition digits (n : nat) (g : text) : Prop :=
  List.length g = n /\ forallb is_digit g = true.

(** At most one character, of the class [p]. *)
Definition at_most_one (p : ascii -> bool) (o : text) : Prop :=
  (List.length o <= 1)%nat /\ forallb p o = true.

(** Nothing, or [+], one to three digits and at most one separator. *)
Definition country_code (cc : text) : Prop :=
  cc = []
  \/ exists ds o,
       cc = "+"%char :: ds ++ o
       /\ (1 <= List.length ds <= 3)%nat /\ forallb is_digit ds = true
       /\ at_most_one is_phone_separator o.

Lemma denotes_opt (p : ascii -> bool) (o : text) :
  Regex.denotes (opt p) o -> at_most_one p o.
Proof.
  unfold opt. cbn [Regex.denotes Regex.within]. intros [H [_ Hl]]. now split.
Qed.

Lemma denotes_digits (n : nat) (g : text) :
  Regex.denotes (times is_digit n n) g -> digits n g.
Proof.
  unfold times. cbn [Regex.denotes Regex.within]. intros [H [H1 H2]].
  split; [lia|exact H].
Qed.

Lemma denotes_country_code (w : text) :
  Regex.denotes
    (Alt (seq_of [Cls (is_char "+"); times is_digit 1 3;
                  opt is_phone_separator]) Eps) w ->
  country_code w.
Proof.
  cbn [seq_of Regex.denotes]. intros [H| ->]; [|now left].
  destruct H as [w1 [w2 [-> [[c [-> Hc]] [ds [o [-> [Hd Ho]]]]]]]].
  apply is_char_eq in Hc. subst c. right. exists ds, o.
  split; [reflexivity|].
  unfold times in Hd. cbn [Regex.denotes Regex.within] in Hd.
  destruct Hd as [Hd [Hl1 Hl2]]. split; [lia|]. split; [exact Hd|].
  now apply denotes_opt.
Qed.

(** X20. Every candidate of the phone-number recognizer is typed
    PHONE_NUMBER with confidence 0.8 and covers, in this order: an optional
    country code ([+], one to three digits, at most one separator), at most
    one [(], three digits, at most one [)], at most one separator, three
    digits, at most one separator and four digits, a separator being [-],
    [.] or a whitespace character: ten to nineteen characters.  Nothing is
    required of the characters around it, and the parentheses need not
    pair. *)
Theorem phone_candidates (s : text) (r : recognizer_result) :
  In r (phone_recognizer s) ->
  rr_entity_type r = "PHONE_NUMBER"%string
  /\ rr_score r = 0.8%float
  /\ exists a cc p1 d1 p2 s1 d2 s2 d3 b,
       s = a ++ (cc ++ p1 ++ d1 ++ p2 ++ s1 ++ d2 ++ s2 ++ d3) ++ b
       /\ rr_start r = len a
       /\ rr_end r
          = len a + len (cc ++ p1 ++ d1 ++ p2 ++ s1 ++ d2 ++ s2 ++ d3)
       /\ 10 <= rr_end r - rr_start r <= 19
       /\ country_code cc
       /\ at_most_one (is_char "(") p1 /\ digits 3 d1
       /\ at_most_one (is_char ")") p2
       /\ at_most_one is_phone_separator s1 /\ digits 3 d2
       /\ at_most_one is_phone_separator s2 /\ digits 4 d3.
Proof.
  intros H. apply recognizer_candidate in H
    as [Ht [Hs [a [w [b [st' [Es [E1 [E2 [Hd [_ _]]]]]]]]]]].
  split; [exact Ht|]. split; [exact Hs|].
  unfold phone_pattern in Hd.
  cbn [seq_of] in Hd.
  destruct Hd as [cc [w1 [-> [Hcc Hd]]]].
  destruct Hd as [p1 [w2 [-> [Hp1 Hd]]]].
  destruct Hd as [d1 [w3 [-> [Hd1 Hd]]]].
  destruct Hd as [p2 [w4 [-> [Hp2 Hd]]]].
  destruct Hd as [s1 [w5 [-> [Hs1 Hd]]]].
  destruct Hd as [d2 [w6 [-> [Hd2 Hd]]]].
  destruct Hd as [s2 [d3 [-> [Hs2 Hd3]]]].
  apply denotes_country_code in Hcc.
  apply denotes_opt in Hp1, Hp2, Hs1, Hs2.
  apply denotes_digits in Hd1, Hd2, Hd3.
  exists a, cc, p1, d1, p2, s1, d2, s2, d3, b.
  assert (10 <= len (cc ++ p1 ++ d1 ++ p2 ++ s1 ++ d2 ++ s2 ++ d3) <= 19)
    as Hlen.
  { unfold len. rewrite !length_app.
    destruct Hp1 as [? _], Hp2 as [? _], Hs1 as [? _], Hs2 as [? _],
      Hd1 as [? _], Hd2 as [? _], Hd3 as [? _].
    destruct Hcc as [->|[ds [o [-> [? [_ [? _]]]]]]];
      cbn [List.length]; rewrite ?length_app; lia. }
  repeat (split; [first [assumption|lia]|]). assumption.
Qed.

Lemma phone_candidates_witness :
  let s := str "4111111111111111" in
  let r := mkResult "PHONE_NUMBER" 0 10 0.8%float in
  In r (phone_recognizer s)
  /\ 10 <= rr_end r - rr_start r <= 19.
Proof.
  intros s r.
  assert (In r (phone_recognizer s)) as H
    by (vm_compute; left; reflexivity).
  split; [exact H|].
  destruct (phone_candidates s r H)
    as [_ [_ [a [cc [p1 [d1 [p2 [s1 [d2 [s2 [d3 [b [_ [_ [_ [Hl _]]]]]]]]]]]]]]]].
  exact Hl.
Defined.

Lemma rstrip_last (s : text) :
  forall a c, rstrip s = a ++ [c] -> is_space c = false.
Proof.
  induction s as [|x t IH]; intros a c.
  - cbn [rstrip]. now destruct a.
  - rewrite Clean.rstrip_cons. destruct (rstrip t) as [|d r].
    + destruct (is_space x) eqn:Hx; [now destruct a|].
      destruct a as [|y [|z a]]; intros [= -> ]; try exact Hx.
    + destruct a as [|y a]; [intros [= _ E]; discriminate|].
      cbn [app]. intros [= _ E]. exact (IH a c E).
Qed.

Lemma collapsed_spaces (s : text) (c : ascii) :
  Clean.collapsed s -> In c s -> is_space c = true -> c = " "%char.
Proof.
  induction s as [|x t IH]; [intros _ []|]. cbn [Clean.collapsed In].
  intros [Hx Ht] [<-|Hin] Hc; [now apply Hx|now apply IH].
Qed.

Lemma collapsed_adjacent (a : text) (c d : ascii) (b : text) :
  Clean.collapsed (a ++ c :: d :: b) -> is_space c = true ->
  is_space d = false.
Proof.
  induction a as [|x a IH]; cbn [app Clean.collapsed].
  - intros [Hc _] H. now destruct (Hc H).
  - intros [_ Ht]. now apply IH.
Qed.

Lemma tagfree_open (a : text) (c : ascii) (w b : text) :
  Clean.tagfree (a ++ "<"%char :: c :: w ++ ">"%char :: b) ->
  c = ">"%char.
Proof.
  intros H. apply Clean.tagfree_suffix in H. cbn [Clean.tagfree] in H.
  destruct H as [H _]. unfold Clean.tag_len in H.
  change (is_char "<" "<") with true in H. cbn [Clean.first_gt] in H.
  destruct (is_char ">" c) eqn:Hc; [now apply is_char_eq in Hc|].
  destruct (Clean.first_gt (w ++ ">"%char :: b)) eqn:E.
  - discriminate H.
  - apply Clean.first_gt_None in E. exfalso. apply E, in_or_app.
    right. now left.
Qed.

(** X21. The text [clean_text] returns is in normal form, whatever the
    input: its only whitespace characters are spaces, no two of them are
    adjacent, it neither starts nor ends with one, and no tag is left in it
    (a [<] still present is followed at once by [>], or by no [>] at
    all). *)
Theorem clean_text_normal_form (s : text) :
  (forall c, In c (clean_text s) -> is_space c = true -> c = " "%char)
  /\ (forall a c d b, clean_text s = a ++ c :: d :: b ->
        is_space c = true -> is_space d = false)
  /\ (forall c b, clean_text s = c :: b -> is_space c = false)
  /\ (forall a c, clean_text s = a ++ [c] -> is_space c = false)
  /\ (forall a c w b,
        clean_text s = a ++ "<"%char :: c :: w ++ ">"%char :: b ->
        c = ">"%char).
Proof.
  pose proof (Clean.clean_collapsed s) as Hc.
  pose proof (Clean.clean_tagfree s) as Ht.
  split; [intros c; now apply collapsed_spaces|].
  split;
    [intros a c d b E; rewrite E in Hc; exact (collapsed_adjacent a c d b Hc)|].
  split.
  - intros c b E.
    assert (Clean.head_not_space (clean_text s)) as Hh.
    { rewrite Clean.clean_text_steps. unfold strip.
      apply Clean.rstrip_head_not_space, Clean.lstrip_head. }
    rewrite E in Hh. exact Hh.
  - split.
    + intros a c. rewrite Clean.clean_text_steps. unfold strip.
      apply rstrip_last.
    + intros a c w b E. rewrite E in Ht. now apply tagfree_open in Ht.
Qed.

(** ** Spans that violate the invariant *)





